(** * HelenaBase: the relational store engine of [database.service.ts]

    A shallow embedding of [DatabaseService] (schemas, tables, rows and the
    insert / select / update / addColumn / executeSQL operations) together
    with the part of the JavaScript runtime these operations rely on, and the
    properties of the engine stated in the specification.

    Modelling boundaries, fixed once and for all:
    - a JavaScript number is [NaN], an infinity or a double that holds an
      integer ([Num z]); [Math.max] and the comparisons are exact on
      doubles, and [+ 1] rounds its result to the nearest double as IEEE 754
      prescribes ([JS.round]); fractional numbers are outside the model;
    - a row value is a primitive (undefined, null, boolean, number, string);
      nested objects and arrays are outside the model;
    - a row is a finite map from property names to values; the members a
      row inherits from [Object.prototype] ([toString], [constructor],
      [__proto__], ...) are outside the model: rows are read and written at
      other names;
    - the database and its schemas are finite maps as well, and for them
      the inherited members are modelled ([JS.inherited],
      [DatabaseService.lookup]), with one exception: under a schema name
      that [Object.prototype] defines and the database does not hold, the
      source reads and writes a built-in object, which is outside the model;
    - a row operation on a table name that the schema only inherits throws a
      [TypeError] before it changes anything; [executeSQL] handles the
      error, and the embedding of the row operations themselves answers
      such a name like a missing table;
    - a table is held by value: a caller that registers one table object
      under two names, or mutates an object it gave to or got from the
      service, is outside the model;
    - strings are sequences of ASCII characters;
    - the conversion of a string to a number (the runtime's [StringToNumber])
      and [Array.prototype.sort] are oracles of the runtime; what the
      language requires of the latter is stated where it is used;
    - [crypto.randomUUID], [new Date().toISOString] and [performance.now]
      are oracles held in the world and indexed by a tick counter. *)

From Stdlib Require Import ZArith Ascii String List Bool Lia Permutation Sorted.
From stdpp Require Import base option list gmap strings fin_maps.

Open Scope string_scope.
Open Scope Z_scope.

(** ** JavaScript values *)

Module JS.

Inductive number :=
  | NaN
  | NegInfinity
  | Num (z : Z)
  | PosInfinity.

Inductive value :=
  | VUndefined
  | VNull
  | VBool (b : bool)
  | VNumber (n : number)
  | VString (s : string).

#[global] Instance number_eq_dec : EqDecision number.
Proof. solve_decision. Defined.

#[global] Instance value_eq_dec : EqDecision value.
Proof. solve_decision. Defined.

(** An object with primitive property values; [obj[k]] is [undefined] when
    the property is absent. *)
Abbreviation object := (gmap string value).

(** The property names every object inherits from [Object.prototype].  The
    inherited members are functions, and the prototype itself for
    [__proto__]: values that are truthy and that are neither primitives nor
    tables. *)
Definition Object_prototype : list string :=
  [ "constructor"; "__defineGetter__"; "__defineSetter__"; "hasOwnProperty";
    "__lookupGetter__"; "__lookupSetter__"; "isPrototypeOf";
    "propertyIsEnumerable"; "toString"; "valueOf"; "__proto__";
    "toLocaleString" ].

Definition inherited (k : string) : bool :=
  existsb (String.eqb k) Object_prototype.

Definition get (o : object) (k : string) : value :=
  match o !! k with
  | Some v => v
  | None => VUndefined
  end.

(** ToBoolean *)
Definition truthy (v : value) : bool :=
  match v with
  | VUndefined | VNull => false
  | VBool b => b
  | VNumber NaN => false
  | VNumber (Num z) => negb (z =? 0)
  | VNumber _ => true
  | VString s => negb (String.eqb s "")
  end.

(** [a || b] *)
Definition or_else (a b : value) : value := if truthy a then a else b.

(** [a === b]: same type and same value, [NaN] equal to nothing. *)
Definition strict_equal (a b : value) : bool :=
  match a, b with
  | VNumber NaN, _ | _, VNumber NaN => false
  | _, _ => bool_decide (a = b)
  end.

Definition number_lt (x y : number) : bool :=
  match x, y with
  | NaN, _ | _, NaN => false
  | _, NegInfinity => false
  | NegInfinity, _ => true
  | PosInfinity, _ => false
  | Num _, PosInfinity => true
  | Num a, Num b => a <? b
  end.

Definition number_max (x y : number) : number :=
  match x, y with
  | NaN, _ | _, NaN => NaN
  | PosInfinity, _ | _, PosInfinity => PosInfinity
  | NegInfinity, n | n, NegInfinity => n
  | Num a, Num b => Num (Z.max a b)
  end.

(** The double nearest to the integer [z].  Every integer of magnitude up
    to [2^53] is a double.  A larger one is rounded to 53 significant bits,
    a tie going to the even significand, and to an infinity when the
    rounded magnitude reaches [2^1024]. *)
Definition round (z : Z) : number :=
  let a := Z.abs z in
  if a <=? 2 ^ 53 then Num z
  else
    let e := Z.log2 a - 52 in
    let q := a / 2 ^ e in
    let r := a mod 2 ^ e in
    let half := 2 ^ (e - 1) in
    let q' := if r <? half then q
              else if half <? r then q + 1
              else if Z.even q then q else q + 1 in
    let m := q' * 2 ^ e in
    if 2 ^ 1024 <=? m then (if z <? 0 then NegInfinity else PosInfinity)
    else Num (Z.sgn z * m).

(** [x + 1] on numbers *)
Definition number_succ (x : number) : number :=
  match x with
  | Num z => round (z + 1)
  | other => other
  end.

(** Code-unit order on strings, as used by [<] when both operands are
    strings. *)
Fixpoint string_lt (s t : string) : bool :=
  match s, t with
  | _, EmptyString => false
  | EmptyString, String _ _ => true
  | String a s', String b t' =>
      if (nat_of_ascii a <? nat_of_ascii b)%nat then true
      else if (nat_of_ascii b <? nat_of_ascii a)%nat then false
      else string_lt s' t'
  end.

Section Runtime.

(** The runtime's StringToNumber. *)
Variable StringToNumber : string -> number.

Definition ToNumber (v : value) : number :=
  match v with
  | VUndefined => NaN
  | VNull => Num 0
  | VBool b => if b then Num 1 else Num 0
  | VNumber n => n
  | VString s => StringToNumber s
  end.

(** [a < b] *)
Definition lt (a b : value) : bool :=
  match a, b with
  | VString s, VString t => string_lt s t
  | _, _ => number_lt (ToNumber a) (ToNumber b)
  end.

(** [a > b] *)
Definition gt (a b : value) : bool := lt b a.

(** [Math.max(...vs)] *)
Definition Math_max (vs : list value) : number :=
  fold_left (fun acc v => number_max acc (ToNumber v)) vs NegInfinity.

End Runtime.

(** *** Arrays *)

(** The relative index of [Array.prototype.slice]: negative arguments count
    from the end, everything is clamped to [0 .. len]. *)
Definition relative_index (len : Z) (n : number) : Z :=
  match n with
  | NaN => 0
  | NegInfinity => 0
  | PosInfinity => len
  | Num k => if k <? 0 then Z.max (len + k) 0 else Z.min k len
  end.

(** [l.slice(start, end)]; [end] omitted is [None]. *)
Definition slice {A} (l : list A) (start : number) (end_ : option number) : list A :=
  let len := Z.of_nat (length l) in
  let k := relative_index len start in
  let final := match end_ with
               | None => len
               | Some e => relative_index len e
               end in
  take (Z.to_nat (final - k)) (drop (Z.to_nat k) l).

(** A stable insertion sort, which puts [a] before [b] whenever the
    comparator is positive on [(b, a)].  It is one of the sorts an engine
    may implement [Array.prototype.sort] with, and the one of the runtimes
    of the examples; the service calls the sort of its runtime
    ([Array_sort]). *)
Fixpoint insertion_sort_step {A} (cmp : A -> A -> Z) (x : A) (l : list A)
    : list A :=
  match l with
  | [] => [x]
  | y :: l' =>
      if 0 <? cmp x y then y :: insertion_sort_step cmp x l' else x :: l
  end.

Fixpoint insertion_sort {A} (cmp : A -> A -> Z) (l : list A) : list A :=
  match l with
  | [] => []
  | x :: l' => insertion_sort_step cmp x (insertion_sort cmp l')
  end.

(** [Object.entries(o).every(p)] *)
Definition entries_every (o : object) (p : string -> value -> bool) : bool :=
  forallb (fun kv => p kv.1 kv.2) (map_to_list o).

(** [Object.assign(target, source)] *)
Definition assign (target source : object) : object := source ∪ target.

(** *** Strings *)

(** WhiteSpace and LineTerminator code points below 128: what [trim] strips
    and what [\s] matches. *)
Definition is_space (c : ascii) : bool :=
  let n := nat_of_ascii c in
  ((9 <=? n) && (n <=? 13) || (n =? 32))%nat.

(** [\w] *)
Definition is_word (c : ascii) : bool :=
  let n := nat_of_ascii c in
  ((48 <=? n) && (n <=? 57) || (65 <=? n) && (n <=? 90)
   || (97 <=? n) && (n <=? 122) || (n =? 95))%nat.

(** [.] matches everything except the line terminators *)
Definition is_line_terminator (c : ascii) : bool :=
  let n := nat_of_ascii c in ((n =? 10) || (n =? 13))%nat.

Definition upper (c : ascii) : ascii :=
  let n := nat_of_ascii c in
  if ((97 <=? n) && (n <=? 122))%nat then ascii_of_nat (n - 32) else c.

Fixpoint toUpperCase (s : string) : string :=
  match s with
  | EmptyString => EmptyString
  | String c s' => String (upper c) (toUpperCase s')
  end.

Fixpoint trimStart (s : string) : string :=
  match s with
  | EmptyString => EmptyString
  | String c s' => if is_space c then trimStart s' else s
  end.

Fixpoint trimEnd (s : string) : string :=
  match s with
  | EmptyString => EmptyString
  | String c s' =>
      match trimEnd s' with
      | EmptyString => if is_space c then EmptyString else String c EmptyString
      | t => String c t
      end
  end.

Definition trim (s : string) : string := trimEnd (trimStart s).

(** [s.startsWith(p)] *)
Definition startsWith (s p : string) : bool := String.prefix p s.

(** [s.includes(p)] *)
Fixpoint includes (s p : string) : bool :=
  if String.prefix p s then true
  else match s with
       | EmptyString => false
       | String _ s' => includes s' p
       end.

Definition cons_head (c : ascii) (l : list string) : list string :=
  match l with
  | [] => [String c EmptyString]
  | h :: t => String c h :: t
  end.

(** [s.split(sep)] for a one-character separator *)
Fixpoint split (sep : ascii) (s : string) : list string :=
  match s with
  | EmptyString => [EmptyString]
  | String c s' =>
      if Ascii.eqb c sep then EmptyString :: split sep s'
      else cons_head c (split sep s')
  end.

(** [s.split(/\s+/)]: [in_run] holds while a run of white space is being
    skipped. *)
Fixpoint split_space_from (in_run : bool) (s : string) : list string :=
  match s with
  | EmptyString => [EmptyString]
  | String c s' =>
      if is_space c then
        if in_run then split_space_from true s'
        else EmptyString :: split_space_from true s'
      else cons_head c (split_space_from false s')
  end.

Definition split_space (s : string) : list string := split_space_from false s.

(** *** Regular expressions

    The fragment the engine's two patterns are written in: single-character
    classes, greedy [*] and [+] on a class, greedy [?] on a sub-pattern,
    numbered capture groups and sequencing, matched by backtracking in
    the order the language prescribes. *)

Inductive cclass :=
  | Lit (c : ascii)
  | Word
  | Space
  | Dot.

Inductive regex :=
  | Eps
  | Chr (k : cclass)
  | Star (k : cclass)
  | Plus (k : cclass)
  | Opt (r : regex)
  | Group (i : nat) (r : regex)
  | Seq (r1 r2 : regex).

(** Does class [k] accept character [a]?  [ic] is the [i] flag. *)
Definition accepts (ic : bool) (k : cclass) (a : ascii) : bool :=
  match k with
  | Lit c => if ic then Ascii.eqb (upper c) (upper a) else Ascii.eqb c a
  | Word => is_word a
  | Space => is_space a
  | Dot => negb (is_line_terminator a)
  end.

(** The literal text [s] as a pattern *)
Fixpoint lits (s : string) : regex :=
  match s with
  | EmptyString => Eps
  | String c s' => Seq (Chr (Lit c)) (lits s')
  end.

Abbreviation captures := (gmap nat string).

(** The text consumed between position [s] and the later position [s'] *)
Definition consumed (s s' : string) : string :=
  String.substring 0 (String.length s - String.length s') s.

Section Matcher.

Context {R : Type}.

(** Greedy iteration of a predicate: the longest run first. *)
Fixpoint star_match (p : ascii -> bool) (s : string) (k : string -> option R) : option R :=
  match s with
  | EmptyString => k s
  | String c s' =>
      if p c then
        match star_match p s' k with
        | Some r => Some r
        | None => k s
        end
      else k s
  end.

Fixpoint run (ic : bool) (r : regex) (s : string) (caps : captures)
    (k : string -> captures -> option R) : option R :=
  match r with
  | Eps => k s caps
  | Chr c =>
      match s with
      | String a s' => if accepts ic c a then k s' caps else None
      | EmptyString => None
      end
  | Star c => star_match (accepts ic c) s (fun s' => k s' caps)
  | Plus c =>
      match s with
      | String a s' =>
          if accepts ic c a
          then star_match (accepts ic c) s' (fun s'' => k s'' caps)
          else None
      | EmptyString => None
      end
  | Opt r' =>
      (* an iteration that consumes nothing is rejected *)
      match run ic r' s caps
              (fun s' caps' =>
                 if (String.length s' =? String.length s)%nat then None
                 else k s' caps') with
      | Some x => Some x
      | None => k s caps
      end
  | Group i r' =>
      run ic r' s caps (fun s' caps' => k s' (<[i := consumed s s']> caps'))
  | Seq r1 r2 =>
      run ic r1 s caps (fun s' caps' => run ic r2 s' caps' k)
  end.

End Matcher.

(** The array returned by [String.prototype.match] for a pattern without
    the [g] flag: the matched text and the groups ([undefined] when a group
    took no part in the match). *)
Record match_array := { matched : string; groups : captures }.

Definition group (m : match_array) (i : nat) : option string := groups m !! i.

(** [s.match(r)]: the leftmost position at which the pattern matches. *)
Fixpoint string_match (ic : bool) (r : regex) (s : string) : option match_array :=
  match run ic r s ∅ (fun s' caps => Some (s', caps)) with
  | Some (s', caps) => Some {| matched := consumed s s'; groups := caps |}
  | None =>
      match s with
      | EmptyString => None
      | String _ s' => string_match ic r s'
      end
  end.

End JS.

(** ** The data model *)

Module Column.
Record t := {
  name : string;
  type : string;
  nullable : bool;
  default : JS.value;            (* [VUndefined] when absent *)
  primary : option bool;
  unique : option bool;
  autoIncrement : option bool;
  length : option Z;
}.
End Column.

Module Index.
Record t := { name : string; columns : list string; unique : bool }.
End Index.

Module Policy.
Record t := {
  id : string; name : string; type : string;
  using_ : string; check : option string;
}.
End Policy.

Module Table.
Record t := {
  id : string;
  name : string;
  schema : string;
  columns : list Column.t;
  rows : list JS.object;
  indexes : list Index.t;
  policies : list Policy.t;
  createdAt : string;
  updatedAt : string;
}.
End Table.

Module QueryResult.
Record t := {
  success : bool;
  data : option (list JS.object);
  error : option string;
  rowsAffected : option Z;
  executionTime : option Z;
}.
End QueryResult.

(** [{ [schema]: { [tableName]: Table } }] *)
Abbreviation Database := (gmap string (gmap string Table.t)).

(** An optional flag such as [col.autoIncrement] used as a condition *)
Definition flag (b : option bool) : bool :=
  match b with
  | Some true => true
  | _ => false
  end.

(** ** The world the service runs in *)

Record Runtime := {
  StringToNumber : string -> JS.number;
  randomUUID : nat -> string;          (* crypto.randomUUID(), n-th draw *)
  toISOString : nat -> string;         (* new Date().toISOString() *)
  performance_now : nat -> Z;          (* performance.now() *)
  (* rows.sort(comparefn) *)
  Array_sort : (JS.object -> JS.object -> Z) -> list JS.object -> list JS.object;
  (* the message of the TypeError raised on [...undefined] *)
  TypeError_message : string;
}.

Record World := {
  runtime : Runtime;
  tick : nat;                          (* oracle draws made so far *)
  database : Database;                 (* this.database *)
  localStorage : option Database;      (* the item under STORAGE_KEY *)
  setItems : nat;                      (* calls of localStorage.setItem *)
}.

Definition with_tick (w : World) (n : nat) : World :=
  {| runtime := runtime w; tick := n; database := database w;
     localStorage := localStorage w; setItems := setItems w |}.

Definition with_database (w : World) (d : Database) : World :=
  {| runtime := runtime w; tick := tick w; database := d;
     localStorage := localStorage w; setItems := setItems w |}.

(** *** JSON

    [JSON.stringify] drops the properties whose value is [undefined] and
    writes [NaN] and the infinities as [null]; [JSON.parse] reads the text
    back.  The stored item is kept in parsed form. *)
Module JSON.

Definition value (v : JS.value) : JS.value :=
  match v with
  | JS.VNumber (JS.Num z) => v
  | JS.VNumber _ => JS.VNull
  | _ => v
  end.

Definition object (o : JS.object) : JS.object :=
  JSON.value <$> filter (fun kv => kv.2 ≠ JS.VUndefined) o.

Definition column (c : Column.t) : Column.t :=
  {| Column.name := Column.name c; Column.type := Column.type c;
     Column.nullable := Column.nullable c;
     Column.default := JSON.value (Column.default c);
     Column.primary := Column.primary c; Column.unique := Column.unique c;
     Column.autoIncrement := Column.autoIncrement c;
     Column.length := Column.length c |}.

Definition table (t : Table.t) : Table.t :=
  {| Table.id := Table.id t; Table.name := Table.name t;
     Table.schema := Table.schema t;
     Table.columns := JSON.column <$> Table.columns t;
     Table.rows := JSON.object <$> Table.rows t;
     Table.indexes := Table.indexes t; Table.policies := Table.policies t;
     Table.createdAt := Table.createdAt t;
     Table.updatedAt := Table.updatedAt t |}.

(** [JSON.parse(JSON.stringify(d))] *)
Definition roundtrip (d : Database) : Database :=
  (fun tables : gmap string Table.t => JSON.table <$> tables) <$> d.

End JSON.

(** *** A state monad over the world *)

Definition M (A : Type) : Type := World -> A * World.

Definition ret {A} (a : A) : M A := fun w => (a, w).

Definition bind {A B} (m : M A) (k : A -> M B) : M B :=
  fun w => let (a, w') := m w in k a w'.

Notation "'let*' x ':=' m 'in' k" := (bind m (fun x => k))
  (at level 10, x name, m at level 100, k at level 200).
Notation "m ';;' k" := (bind m (fun _ => k))
  (at level 100, k at level 200, right associativity).

(** [for (const x of l) body(x)] threading an accumulator *)
Fixpoint forEach {A S} (l : list A) (body : S -> A -> M S) (acc : S) : M S :=
  match l with
  | [] => ret acc
  | x :: l' => let* acc' := body acc x in forEach l' body acc'
  end.

Definition draw {A} (oracle : Runtime -> nat -> A) : M A :=
  fun w => (oracle (runtime w) (tick w), with_tick w (S (tick w))).

Definition crypto_randomUUID : M string := draw randomUUID.
Definition Date_now_toISOString : M string := draw toISOString.
Definition performance_now_ : M Z := draw performance_now.

Definition read {A} (f : World -> A) : M A := fun w => (f w, w).

(** ** The service *)

Module DatabaseService.

(** [localStorage.setItem(STORAGE_KEY, JSON.stringify(this.database))] *)
Definition saveDatabase : M unit :=
  fun w =>
    (tt, {| runtime := runtime w; tick := tick w; database := database w;
            localStorage := Some (JSON.roundtrip (database w));
            setItems := S (setItems w) |}).

(** What [this.database[schema]?.[tableName]] evaluates to: a table of the
    schema, a member the schema object inherits from [Object.prototype], or
    [undefined]. *)
Inductive member :=
  | Own (table : Table.t)
  | Inherited
  | Missing.

Definition lookup (schema tableName : string) (w : World) : member :=
  match database w !! schema with
  | Some tables =>
      match tables !! tableName with
      | Some table => Own table
      | None => if JS.inherited tableName then Inherited else Missing
      end
  | None => Missing
  end.

(** [this.database[schema]?.[tableName] || null], when this is a table or
    [null].  For a name the schema only inherits ([lookup] is [Inherited])
    the source returns the inherited member, which is no table: [getTable]
    is [None] there as well. *)
Definition getTable (schema tableName : string) (w : World) : option Table.t :=
  match database w !! schema with
  | Some tables => tables !! tableName
  | None => None
  end.

(** The table object found by [getTable] is the one held by the database:
    a mutation of its fields is a write at [database[schema][tableName]]. *)
Definition setTable (schema tableName : string) (t : Table.t) : M unit :=
  fun w =>
    (tt, with_database w
           (<[schema := <[tableName := t]> (default ∅ (database w !! schema))]>
              (database w))).

Definition set_columns (t : Table.t) (cs : list Column.t) : Table.t :=
  {| Table.id := Table.id t; Table.name := Table.name t;
     Table.schema := Table.schema t; Table.columns := cs;
     Table.rows := Table.rows t; Table.indexes := Table.indexes t;
     Table.policies := Table.policies t; Table.createdAt := Table.createdAt t;
     Table.updatedAt := Table.updatedAt t |}.

Definition set_rows (t : Table.t) (rs : list JS.object) : Table.t :=
  {| Table.id := Table.id t; Table.name := Table.name t;
     Table.schema := Table.schema t; Table.columns := Table.columns t;
     Table.rows := rs; Table.indexes := Table.indexes t;
     Table.policies := Table.policies t; Table.createdAt := Table.createdAt t;
     Table.updatedAt := Table.updatedAt t |}.

Definition set_updatedAt (t : Table.t) (now : string) : Table.t :=
  {| Table.id := Table.id t; Table.name := Table.name t;
     Table.schema := Table.schema t; Table.columns := Table.columns t;
     Table.rows := Table.rows t; Table.indexes := Table.indexes t;
     Table.policies := Table.policies t; Table.createdAt := Table.createdAt t;
     Table.updatedAt := now |}.

(** [if (!this.database[schema]) this.database[schema] = {}] *)
Definition ensure_schema (schema : string) : M unit :=
  fun w =>
    match database w !! schema with
    | Some _ => (tt, w)
    | None => (tt, with_database w (<[schema := ∅]> (database w)))
    end.

(** The test [this.database[schema][table.name]] is truthy for a table of
    the schema and for an inherited member alike: both names are refused,
    after the schema has been created and without a write of the
    snapshot. *)
Definition createTable (schema : string) (table : Table.t) : M bool :=
  ensure_schema schema ;;
  let* found := read (lookup schema (Table.name table)) in
  match found with
  | Own _ | Inherited => ret false
  | Missing =>
      setTable schema (Table.name table) table ;;
      saveDatabase ;;
      ret true
  end.

Definition addColumn (schema tableName : string) (column : Column.t) : M bool :=
  let* found := read (getTable schema tableName) in
  match found with
  | None => ret false
  | Some table =>
      match List.find (fun c => String.eqb (Column.name c) (Column.name column))
                      (Table.columns table) with
      | Some _ => ret false
      | None =>
          let columns := (Table.columns table ++ [column])%list in
          let rows :=
            (fun row : JS.object =>
               <[Column.name column :=
                   JS.or_else (Column.default column) JS.VNull]> row)
              <$> Table.rows table in
          let* now := Date_now_toISOString in
          setTable schema tableName
            (set_updatedAt (set_rows (set_columns table columns) rows) now) ;;
          saveDatabase ;;
          ret true
      end
  end.

Definition not_found (schema tableName : string) : QueryResult.t :=
  {| QueryResult.success := false; QueryResult.data := None;
     QueryResult.error :=
       Some ("Table " +:+ schema +:+ "." +:+ tableName +:+ " not found");
     QueryResult.rowsAffected := None; QueryResult.executionTime := None |}.

(** The value [insert] stores for one column. *)
Definition column_value (table : Table.t) (data : JS.object) (col : Column.t)
    : M JS.value :=
  let name := Column.name col in
  if negb (JS.strict_equal (JS.get data name) JS.VUndefined) then
    ret (JS.get data name)
  else if JS.truthy (Column.default col) then
    if JS.strict_equal (Column.default col) (JS.VString "gen_random_uuid()") then
      let* id := crypto_randomUUID in ret (JS.VString id)
    else if JS.strict_equal (Column.default col) (JS.VString "now()") then
      let* now := Date_now_toISOString in ret (JS.VString now)
    else ret (Column.default col)
  else if flag (Column.autoIncrement col) then
    let* to_number := read (fun w => StringToNumber (runtime w)) in
    let maxId :=
      if (0 <? List.length (Table.rows table))%nat
      then JS.Math_max to_number
             ((fun r : JS.object =>
                 JS.or_else (JS.get r name) (JS.VNumber (JS.Num 0)))
                <$> Table.rows table)
      else JS.Num 0 in
    ret (JS.VNumber (JS.number_succ maxId))
  else ret JS.VNull.

(** The body of the loop over the columns: one more key in the row *)
Definition insert_body (table : Table.t) (data : JS.object)
    (row : JS.object) (col : Column.t) : M JS.object :=
  let* v := column_value table data col in
  ret (<[Column.name col := v]> row).

Definition insert (schema tableName : string) (data : JS.object) : M QueryResult.t :=
  let* startTime := performance_now_ in
  let* found := read (getTable schema tableName) in
  match found with
  | None => ret (not_found schema tableName)
  | Some table =>
      let* row := forEach (Table.columns table) (insert_body table data) ∅ in
      let* now := Date_now_toISOString in
      setTable schema tableName
        (set_updatedAt (set_rows table (Table.rows table ++ [row])%list) now) ;;
      saveDatabase ;;
      let* endTime := performance_now_ in
      ret {| QueryResult.success := true; QueryResult.data := Some [row];
             QueryResult.error := None; QueryResult.rowsAffected := Some 1;
             QueryResult.executionTime := Some (endTime - startTime) |}
  end.

Inductive direction := ASC | DESC.

Record order := { column : string; dir : direction }.

Record options := {
  where_ : option JS.object;
  orderBy : option (list order);
  limit : option JS.number;
  offset : option JS.number;
}.

(** [select(schema, tableName)] without the third argument *)
Definition no_options : options :=
  {| where_ := None; orderBy := None; limit := None; offset := None |}.

(** [Object.entries(where).every(([key, value]) => row[key] === value)] *)
Definition matches (where_ row : JS.object) : bool :=
  JS.entries_every where_ (fun key value => JS.strict_equal (JS.get row key) value).

(** The comparator handed to [sort] *)
Fixpoint compare_rows (to_number : string -> JS.number) (orderBy : list order)
    (a b : JS.object) : Z :=
  match orderBy with
  | [] => 0
  | o :: rest =>
      let aVal := JS.get a (column o) in
      let bVal := JS.get b (column o) in
      if JS.lt to_number aVal bVal then
        match dir o with ASC => -1 | DESC => 1 end
      else if JS.gt to_number aVal bVal then
        match dir o with ASC => 1 | DESC => -1 end
      else compare_rows to_number rest a b
  end.

(** [if (options.limit)]: an option that is absent, [0] or [NaN] is not
    applied *)
Definition given (n : option JS.number) : option JS.number :=
  match n with
  | Some k => if JS.truthy (JS.VNumber k) then Some k else None
  | None => None
  end.

(** The four steps of [select], in the order of the source: WHERE,
    ORDER BY, OFFSET, LIMIT. *)
Definition apply_where (opts : options) (results : list JS.object) : list JS.object :=
  match where_ opts with
  | Some w => List.filter (matches w) results
  | None => results
  end.

Definition apply_orderBy (rt : Runtime) (opts : options)
    (results : list JS.object) : list JS.object :=
  match orderBy opts with
  | Some keys => Array_sort rt (compare_rows (StringToNumber rt) keys) results
  | None => results
  end.

Definition apply_offset (opts : options) (results : list JS.object) : list JS.object :=
  match given (offset opts) with
  | Some k => JS.slice results k None
  | None => results
  end.

Definition apply_limit (opts : options) (results : list JS.object) : list JS.object :=
  match given (limit opts) with
  | Some k => JS.slice results (JS.Num 0) (Some k)
  | None => results
  end.

Definition select (schema tableName : string) (opts : options) : M QueryResult.t :=
  let* startTime := performance_now_ in
  let* found := read (getTable schema tableName) in
  match found with
  | None => ret (not_found schema tableName)
  | Some table =>
      let results := Table.rows table in
      let results := apply_where opts results in
      let* rt := read runtime in
      let results := apply_orderBy rt opts results in
      let results := apply_offset opts results in
      let results := apply_limit opts results in
      let* endTime := performance_now_ in
      ret {| QueryResult.success := true; QueryResult.data := Some results;
             QueryResult.error := None;
             QueryResult.rowsAffected := Some (Z.of_nat (List.length results));
             QueryResult.executionTime := Some (endTime - startTime) |}
  end.

(** The loop of [update]: the rows after the merge and the number of rows
    that matched. *)
Fixpoint update_rows (where_ data : JS.object) (rows : list JS.object)
    : list JS.object * Z :=
  match rows with
  | [] => ([], 0)
  | row :: rest =>
      let (rest', n) := update_rows where_ data rest in
      if matches where_ row then (JS.assign row data :: rest', n + 1)
      else (row :: rest', n)
  end.

Definition update (schema tableName : string) (where_ data : JS.object)
    : M QueryResult.t :=
  let* startTime := performance_now_ in
  let* found := read (getTable schema tableName) in
  match found with
  | None => ret (not_found schema tableName)
  | Some table =>
      let (rows, rowsAffected) := update_rows where_ data (Table.rows table) in
      setTable schema tableName (set_rows table rows) ;;
      (if 0 <? rowsAffected then
         let* now := Date_now_toISOString in
         setTable schema tableName (set_updatedAt (set_rows table rows) now) ;;
         saveDatabase
       else ret tt) ;;
      let* endTime := performance_now_ in
      ret {| QueryResult.success := true; QueryResult.data := None;
             QueryResult.error := None;
             QueryResult.rowsAffected := Some rowsAffected;
             QueryResult.executionTime := Some (endTime - startTime) |}
  end.

(** *** The SQL recogniser *)

(** The pattern of the CREATE TABLE branch, flag [i]: the text
    [CREATE TABLE ], group 1 [\w+], an optional dot, an optional group 2
    [\w+], white space, an opening parenthesis, group 3 (any run of
    characters without a line break) and a closing parenthesis. *)
Definition create_table_pattern : JS.regex :=
  JS.Seq (JS.lits "CREATE TABLE ")
  (JS.Seq (JS.Group 1 (JS.Plus JS.Word))
  (JS.Seq (JS.Opt (JS.Chr (JS.Lit ".")))
  (JS.Seq (JS.Opt (JS.Group 2 (JS.Plus JS.Word)))
  (JS.Seq (JS.Star JS.Space)
  (JS.Seq (JS.Chr (JS.Lit "("))
  (JS.Seq (JS.Group 3 (JS.Star JS.Dot))
          (JS.Chr (JS.Lit ")")))))))).

(** The pattern of the SELECT branch, flag [i]: the text [SELECT ], any run
    of characters without a line break, the text [ FROM ], group 1 [\w+],
    an optional dot and an optional group 2 [\w+]. *)
Definition select_pattern : JS.regex :=
  JS.Seq (JS.lits "SELECT ")
  (JS.Seq (JS.Star JS.Dot)
  (JS.Seq (JS.lits " FROM ")
  (JS.Seq (JS.Group 1 (JS.Plus JS.Word))
  (JS.Seq (JS.Opt (JS.Chr (JS.Lit ".")))
          (JS.Opt (JS.Group 2 (JS.Plus JS.Word))))))).

(** A group of a match used as a condition: [undefined] and the empty
    string are falsy. *)
Definition group_truthy (g : option string) : bool :=
  match g with
  | Some s => JS.truthy (JS.VString s)
  | None => false
  end.

(** A group used as text.  Groups 1 and 3 take part in every match of the
    patterns they belong to, so the [undefined] case does not arise. *)
Definition group_text (g : option string) : string := default "undefined" g.

(** [match[2] ? match[1] : 'public'] *)
Definition schema_of (m : JS.match_array) : string :=
  if group_truthy (JS.group m 2) then group_text (JS.group m 1) else "public".

(** [match[2] || match[1]] *)
Definition tableName_of (m : JS.match_array) : string :=
  if group_truthy (JS.group m 2) then group_text (JS.group m 2)
  else group_text (JS.group m 1).

(** The column a definition such as [name VARCHAR NOT NULL] stands for *)
Definition parse_column (colDef : string) : Column.t :=
  let parts := JS.split_space (JS.trim colDef) in
  {| Column.name := hd "" parts;
     Column.type :=
       match nth_error parts 1 with
       | Some ty => if JS.truthy (JS.VString ty) then ty else "TEXT"
       | None => "TEXT"
       end;
     Column.nullable := negb (JS.includes colDef "NOT NULL");
     Column.default := JS.VUndefined;
     Column.primary := Some (JS.includes colDef "PRIMARY KEY");
     Column.unique := Some (JS.includes colDef "UNIQUE");
     Column.autoIncrement := None;
     Column.length := None |}.

Definition not_implemented : QueryResult.t :=
  {| QueryResult.success := false; QueryResult.data := None;
     QueryResult.error := Some "SQL parsing not fully implemented for this query";
     QueryResult.rowsAffected := None; QueryResult.executionTime := None |}.

(** A block of statements either returns a value ([Some]) or lets control
    fall out of its end ([None]). *)

(** [if (trimmedSQL.startsWith('CREATE TABLE')) { ... }] *)
Definition create_table_block (startTime : Z) (sql trimmedSQL : string)
    : M (option QueryResult.t) :=
  if JS.startsWith trimmedSQL "CREATE TABLE" then
    match JS.string_match true create_table_pattern sql with
    | Some m =>
        let schema := schema_of m in
        let tableName := tableName_of m in
        let columnsStr := group_text (JS.group m 3) in
        let columns := parse_column <$> JS.split "," columnsStr in
        let* id := crypto_randomUUID in
        let* createdAt := Date_now_toISOString in
        let* updatedAt := Date_now_toISOString in
        let table :=
          {| Table.id := id; Table.name := tableName; Table.schema := schema;
             Table.columns := columns; Table.rows := [];
             Table.indexes := []; Table.policies := [];
             Table.createdAt := createdAt; Table.updatedAt := updatedAt |} in
        createTable schema table ;;
        let* endTime := performance_now_ in
        ret (Some {| QueryResult.success := true; QueryResult.data := Some [];
                     QueryResult.error := None;
                     QueryResult.rowsAffected := Some 0;
                     QueryResult.executionTime := Some (endTime - startTime) |})
    | None => ret None
    end
  else ret None.

(** [if (trimmedSQL.startsWith('SELECT')) { ... }].  On a name that the
    schema only inherits, [select] reads the clock, finds the inherited
    member and throws a [TypeError] at [[...table.rows]]; the [catch] of
    [executeSQL] reads the clock and returns the failure. *)
Definition select_block (startTime : Z) (sql trimmedSQL : string)
    : M (option QueryResult.t) :=
  if JS.startsWith trimmedSQL "SELECT" then
    match JS.string_match true select_pattern sql with
    | Some m =>
        let* found := read (lookup (schema_of m) (tableName_of m)) in
        match found with
        | Inherited =>
            performance_now_ ;;
            let* endTime := performance_now_ in
            let* message := read (fun w => TypeError_message (runtime w)) in
            ret (Some {| QueryResult.success := false;
                         QueryResult.data := None;
                         QueryResult.error := Some message;
                         QueryResult.rowsAffected := None;
                         QueryResult.executionTime :=
                           Some (endTime - startTime) |})
        | Own _ | Missing =>
            let* r := select (schema_of m) (tableName_of m) no_options in
            ret (Some r)
        end
    | None => ret None
    end
  else ret None.

(** The body of [executeSQL]; the simulated delay of 100 ms is not
    modelled.  The one statement of the body that can throw is the call of
    [select] (see [select_block]); [createTable] refuses an inherited name
    without throwing.  [None] would be a run that reaches the end of the
    body without a [return]. *)
Definition executeSQL (sql : string) : M (option QueryResult.t) :=
  let* startTime := performance_now_ in
  let trimmedSQL := JS.toUpperCase (JS.trim sql) in
  let* r := create_table_block startTime sql trimmedSQL in
  match r with
  | Some result => ret (Some result)
  | None =>
      let* r := select_block startTime sql trimmedSQL in
      match r with
      | Some result => ret (Some result)
      | None => ret (Some not_implemented)
      end
  end.

(** *** Start-up *)

Definition users_table (id createdAt updatedAt : string) : Table.t :=
  {| Table.id := id; Table.name := "users"; Table.schema := "public";
     Table.columns :=
       [ {| Column.name := "id"; Column.type := "UUID"; Column.nullable := false;
            Column.default := JS.VString "gen_random_uuid()";
            Column.primary := Some true; Column.unique := None;
            Column.autoIncrement := None; Column.length := None |};
         {| Column.name := "email"; Column.type := "VARCHAR";
            Column.nullable := false; Column.default := JS.VUndefined;
            Column.primary := None; Column.unique := Some true;
            Column.autoIncrement := None; Column.length := Some 255 |};
         {| Column.name := "name"; Column.type := "VARCHAR";
            Column.nullable := false; Column.default := JS.VUndefined;
            Column.primary := None; Column.unique := None;
            Column.autoIncrement := None; Column.length := Some 100 |};
         {| Column.name := "avatar_url"; Column.type := "TEXT";
            Column.nullable := true; Column.default := JS.VUndefined;
            Column.primary := None; Column.unique := None;
            Column.autoIncrement := None; Column.length := None |};
         {| Column.name := "created_at"; Column.type := "TIMESTAMP";
            Column.nullable := false; Column.default := JS.VString "now()";
            Column.primary := None; Column.unique := None;
            Column.autoIncrement := None; Column.length := None |} ];
     Table.rows := [];
     Table.indexes :=
       [ {| Index.name := "users_email_idx"; Index.columns := ["email"];
            Index.unique := true |} ];
     Table.policies := [];
     Table.createdAt := createdAt; Table.updatedAt := updatedAt |}.

(** [new DatabaseService()]: [loadDatabase] then [initializeDefaultTables].
    A stored snapshot without the schema [public] makes the constructor
    throw ([None]). *)
Definition construct (rt : Runtime) (stored : option Database) : option World :=
  let w := {| runtime := rt; tick := 0;
              database := match stored with
                          | Some d => d
                          | None => {[ "public" := ∅ ]}
                          end;
              localStorage := stored; setItems := 0 |} in
  match database w !! "public" with
  | None => None
  | Some tables =>
      match tables !! "users" with
      | Some _ => Some w
      | None =>
          Some (snd ((let* id := crypto_randomUUID in
                      let* createdAt := Date_now_toISOString in
                      let* updatedAt := Date_now_toISOString in
                      createTable "public" (users_table id createdAt updatedAt)) w))
      end
  end.

(** *** The remaining operations *)

(** [Object.keys(this.database)].  A finite map does not keep the order in
    which its keys were added: the list is right up to its order. *)
Definition getSchemas (w : World) : list string := (map_to_list (database w)).*1.

(** [Object.values(this.database[schema])], up to order as well *)
Definition getTables (schema : string) (w : World) : list Table.t :=
  match database w !! schema with
  | None => []
  | Some tables => (map_to_list tables).*2
  end.

(** The test [!this.database[schema]?.[tableName]] lets an inherited
    member through like a table: [delete] then removes nothing, and the
    snapshot is written all the same. *)
Definition dropTable (schema tableName : string) : M bool :=
  let* found := read (lookup schema tableName) in
  match found with
  | Missing => ret false
  | Own _ | Inherited =>
      (fun w =>
         (tt, with_database w
                (<[schema := base.delete tableName
                               (default ∅ (database w !! schema))]>
                   (database w)))) ;;
      saveDatabase ;;
      ret true
  end.

(** [columns.findIndex(p)]; [None] is the index -1 *)
Fixpoint findIndex {A} (p : A -> bool) (l : list A) : option nat :=
  match l with
  | [] => None
  | x :: l' => if p x then Some 0%nat else S <$> findIndex p l'
  end.

(** [l.splice(i, 1)] for an index inside the list *)
Definition splice1 {A} (i : nat) (l : list A) : list A :=
  (take i l ++ drop (S i) l)%list.

Definition removeColumn (schema tableName columnName : string) : M bool :=
  let* found := read (getTable schema tableName) in
  match found with
  | None => ret false
  | Some table =>
      match findIndex (fun c => String.eqb (Column.name c) columnName)
                      (Table.columns table) with
      | None => ret false
      | Some columnIndex =>
          let columns := splice1 columnIndex (Table.columns table) in
          let rows :=
            (fun row : JS.object => base.delete columnName row)
              <$> Table.rows table in
          let* now := Date_now_toISOString in
          setTable schema tableName
            (set_updatedAt (set_rows (set_columns table columns) rows) now) ;;
          saveDatabase ;;
          ret true
      end
  end.

Definition delete (schema tableName : string) (where_ : JS.object)
    : M QueryResult.t :=
  let* startTime := performance_now_ in
  let* found := read (getTable schema tableName) in
  match found with
  | None => ret (not_found schema tableName)
  | Some table =>
      let initialLength := Z.of_nat (List.length (Table.rows table)) in
      let rows :=
        List.filter (fun row => negb (matches where_ row)) (Table.rows table) in
      setTable schema tableName (set_rows table rows) ;;
      let rowsAffected := initialLength - Z.of_nat (List.length rows) in
      (if 0 <? rowsAffected then
         let* now := Date_now_toISOString in
         setTable schema tableName (set_updatedAt (set_rows table rows) now) ;;
         saveDatabase
       else ret tt) ;;
      let* endTime := performance_now_ in
      ret {| QueryResult.success := true; QueryResult.data := None;
             QueryResult.error := None;
             QueryResult.rowsAffected := Some rowsAffected;
             QueryResult.executionTime := Some (endTime - startTime) |}
  end.

(** *** The query history

    The history is the item of the local storage under the key
    [helenabase_query_history], a list of statements; no other operation
    reads or writes that key, so the item is threaded on its own. *)

(** [history ? JSON.parse(history) : []] *)
Definition getQueryHistory (item : option (list string)) : list string :=
  match item with
  | Some history => history
  | None => []
  end.

Definition saveQueryToHistory (sql : string) (item : option (list string))
    : option (list string) :=
  let history := sql :: getQueryHistory item in          (* unshift *)
  let history :=
    if (50 <? List.length history)%nat then removelast history   (* pop *)
    else history in
  Some history.

End DatabaseService.

(** ** The pages that call the service *)

(** The SQL editor ([SQLEditor.tsx]) *)
Module SQLEditor.

(** [handleExecute]: a blank statement is not run; a statement is added to
    the history when its result is a success. *)
Definition handleExecute (sql : string) (w : World) (item : option (list string))
    : World * option (list string) :=
  if negb (JS.truthy (JS.VString (JS.trim sql))) then (w, item)
  else
    let (queryResult, w') := DatabaseService.executeSQL sql w in
    match queryResult with
    | Some result =>
        if QueryResult.success result
        then (w', DatabaseService.saveQueryToHistory sql item)
        else (w', item)
    | None => (w', item)
    end.

End SQLEditor.

(** The table page: adding, editing and deleting rows *)
Module TableEditor.





(** [handleDeleteRow]; [confirmed] is the answer to the confirmation
    dialog.  [None]: no call of the service. *)
Definition handleDeleteRow (table : Table.t) (row : JS.object) (confirmed : bool)
    : M (option QueryResult.t) :=
  match List.find (fun c => flag (Column.primary c)) (Table.columns table) with
  | None => ret None
  | Some primaryKey =>
      if confirmed then
        let* result :=
          DatabaseService.delete "public" (Table.name table)
            {[ Column.name primaryKey := JS.get row (Column.name primaryKey) ]} in
        ret (Some result)
      else ret None
  end.

End TableEditor.
(** ** Definitions used by the statements *)

Import DatabaseService.

(** The maximum of a column over the rows as [insert] takes it: a falsy
    value counts as 0, and the maximum over no rows is 0. *)
Definition max_existing (to_number : string -> JS.number) (name : string)
    (rows : list JS.object) : JS.number :=
  match rows with
  | [] => JS.Num 0
  | _ => JS.Math_max to_number
           ((fun r : JS.object =>
               JS.or_else (JS.get r name) (JS.VNumber (JS.Num 0))) <$> rows)
  end.

(** The branch by which [insert] resolves the value of a column.  The
    relation serves the proofs that follow one column through the loop: it
    fixes the branch taken and, but for the two generated values, the value
    itself; of an identifier or a timestamp it records only that it was
    drawn at tick [from] or later.  (Which draw it is, and that two columns
    never share one, is [insert_loop_uuid].) *)
Inductive resolves (rt : Runtime) (from : nat) (table : Table.t)
    (data : JS.object) (col : Column.t) : JS.value -> Prop :=
  | resolves_explicit :
      JS.get data (Column.name col) <> JS.VUndefined ->
      resolves rt from table data col (JS.get data (Column.name col))
  | resolves_uuid n :
      JS.get data (Column.name col) = JS.VUndefined ->
      Column.default col = JS.VString "gen_random_uuid()" ->
      (from <= n)%nat ->
      resolves rt from table data col (JS.VString (randomUUID rt n))
  | resolves_now n :
      JS.get data (Column.name col) = JS.VUndefined ->
      Column.default col = JS.VString "now()" ->
      (from <= n)%nat ->
      resolves rt from table data col (JS.VString (toISOString rt n))
  | resolves_literal :
      JS.get data (Column.name col) = JS.VUndefined ->
      JS.truthy (Column.default col) = true ->
      Column.default col <> JS.VString "gen_random_uuid()" ->
      Column.default col <> JS.VString "now()" ->
      resolves rt from table data col (Column.default col)
  | resolves_auto_increment :
      JS.get data (Column.name col) = JS.VUndefined ->
      JS.truthy (Column.default col) = false ->
      Column.autoIncrement col = Some true ->
      resolves rt from table data col
        (JS.VNumber
           (JS.number_succ
              (max_existing (StringToNumber rt) (Column.name col)
                 (Table.rows table))))
  | resolves_null :
      JS.get data (Column.name col) = JS.VUndefined ->
      JS.truthy (Column.default col) = false ->
      Column.autoIncrement col <> Some true ->
      resolves rt from table data col JS.VNull.

(** [select] options with one field replaced *)
Definition with_limit (opts : options) (n : option JS.number) : options :=
  {| where_ := where_ opts; orderBy := orderBy opts; limit := n;
     offset := offset opts |}.

Definition with_offset (opts : options) (n : option JS.number) : options :=
  {| where_ := where_ opts; orderBy := orderBy opts; limit := limit opts;
     offset := n |}.

(** A row satisfies a filter when every pair of the filter is strictly
    equal to the row's value at that key. *)
Definition satisfies (filter_ row : JS.object) : Prop :=
  map_Forall (fun key value => JS.strict_equal (JS.get row key) value = true)
             filter_.

#[global] Instance satisfies_dec filter_ row : Decision (satisfies filter_ row).
Proof. unfold satisfies. apply _. Defined.

(** An option of [select] that is absent or a non-negative integer *)
Definition natural (n : option JS.number) : Prop :=
  match n with
  | None => True
  | Some (JS.Num k) => 0 <= k
  | Some _ => False
  end.

Definition filtered (opts : options) (rows : list JS.object) : list JS.object :=
  match where_ opts with
  | Some f => filter (satisfies f) rows
  | None => rows
  end.

(** The rows as the sort of the runtime leaves them *)
Definition ordered (rt : Runtime) (opts : options)
    (rows : list JS.object) : list JS.object :=
  match orderBy opts with
  | Some keys => Array_sort rt (compare_rows (StringToNumber rt) keys) rows
  | None => rows
  end.

Definition after_offset (opts : options) (rows : list JS.object) : list JS.object :=
  match offset opts with
  | Some (JS.Num k) => drop (Z.to_nat k) rows
  | _ => rows
  end.

(** The pipeline as the specification words it: filter, sort, drop
    [offset] rows, keep [limit] rows. *)
Definition pipeline_as_specified (rt : Runtime)
    (opts : options) (rows : list JS.object) : list JS.object :=
  let rows := after_offset opts (ordered rt opts (filtered opts rows)) in
  match limit opts with
  | Some (JS.Num k) => take (Z.to_nat k) rows
  | _ => rows
  end.

(** The pipeline the engine runs: a limit of zero keeps every row. *)
Definition pipeline (rt : Runtime)
    (opts : options) (rows : list JS.object) : list JS.object :=
  let rows := after_offset opts (ordered rt opts (filtered opts rows)) in
  match limit opts with
  | Some (JS.Num k) => if k =? 0 then rows else take (Z.to_nat k) rows
  | _ => rows
  end.

(** Values the comparison operators order by their own type: two integers
    or two strings. *)
Definition comparable (x y : JS.value) : Prop :=
  match x, y with
  | JS.VNumber (JS.Num _), JS.VNumber (JS.Num _) => True
  | JS.VString _, JS.VString _ => True
  | _, _ => False
  end.

(** Neither [x < y] nor [x > y]: equal values, and values the operators do
    not order (a number and a missing value, [null] and a text that is not
    a number, ...) *)
Definition unordered (to_number : string -> JS.number) (x y : JS.value) : Prop :=
  JS.lt to_number x y = false /\ JS.gt to_number x y = false.

(** The comparator as the specification words it: two rows are decided at
    the first key where their values differ, whatever the keys after it. *)
Definition decides_at_first_difference
    (cmp : list order -> JS.object -> JS.object -> Z) : Prop :=
  forall pre o post a b,
    (forall o', o' ∈ pre -> JS.get a (column o') = JS.get b (column o')) ->
    JS.get a (column o) <> JS.get b (column o) ->
    (cmp (pre ++ o :: post)%list a b <> 0) /\
    (cmp (pre ++ o :: post)%list a b = cmp [o] a b).

(** A consistent comparator for the elements of [l], in the words of the
    language definition ([Array.prototype.sort]): [a =CF a], [=CF] is
    symmetric, and [=CF], [<CF] and [>CF] are transitive. *)
Definition consistent {A} (cmp : A -> A -> Z) (l : list A) : Prop :=
  (forall a, a ∈ l -> cmp a a = 0) /\
  (forall a b, a ∈ l -> b ∈ l -> cmp a b = 0 -> cmp b a = 0) /\
  (forall a b c, a ∈ l -> b ∈ l -> c ∈ l ->
     cmp a b = 0 -> cmp b c = 0 -> cmp a c = 0) /\
  (forall a b c, a ∈ l -> b ∈ l -> c ∈ l ->
     cmp a b < 0 -> cmp b c < 0 -> cmp a c < 0) /\
  (forall a b c, a ∈ l -> b ∈ l -> c ∈ l ->
     0 < cmp a b -> 0 < cmp b c -> 0 < cmp a c).

(** What the language requires of [sort]: the result holds the elements of
    the array, and for a consistent comparator no element comes after one
    it is less than.  (For another comparator the order is left to the
    engine.) *)
Definition conforming (rt : Runtime) : Prop :=
  forall cmp l,
    Permutation (Array_sort rt cmp l) l /\
    (consistent cmp l ->
     StronglySorted (fun a b => ~ cmp b a < 0) (Array_sort rt cmp l)).

(** Every ordering column holds integers in all the rows, or strings in all
    the rows. *)
Definition uniform (keys : list order) (rows : list JS.object) : Prop :=
  forall o, o ∈ keys ->
    (forall r, r ∈ rows -> exists z, JS.get r (column o) = JS.VNumber (JS.Num z)) \/
    (forall r, r ∈ rows -> exists s, JS.get r (column o) = JS.VString s).

(** What the value of a row counts as in the maximum [insert] takes: a
    falsy value (missing, [null], [false], 0, [NaN], the empty string)
    counts as 0, [true] as 1, another number as itself and another string
    as its conversion to a number. *)
Definition counted (to_number : string -> JS.number) (name : string)
    (row : JS.object) : JS.number :=
  match JS.get row name with
  | JS.VUndefined | JS.VNull => JS.Num 0
  | JS.VBool b => JS.Num (if b then 1 else 0)
  | JS.VNumber JS.NaN => JS.Num 0
  | JS.VNumber n => n
  | JS.VString s => if String.eqb s "" then JS.Num 0 else to_number s
  end.

Definition number_le (x y : JS.number) : Prop :=
  x = y \/ JS.number_lt x y = true.

(** The outcome of the comparator at a deciding key *)
Definition decided (d : direction) (less : bool) : Z :=
  match d, less with
  | ASC, true => -1
  | ASC, false => 1
  | DESC, true => 1
  | DESC, false => -1
  end.

(** The stored snapshot is the database as [JSON] writes it. *)
Definition synced (w : World) : Prop :=
  localStorage w = Some (JSON.roundtrip (database w)).

(** [this.database[schema]] is a schema of the database or [undefined],
    not a member of [Object.prototype]. *)
Definition regular (schema : string) (w : World) : Prop :=
  is_Some (database w !! schema) \/ JS.inherited schema = false.

(** The database holds the empty schema [schema] that the snapshot does not
    hold: what a [createTable] refused in a new schema leaves behind. *)
Definition unsaved_schema (schema : string) (w w' : World) : Prop :=
  database w !! schema = None /\
  database w' = <[schema := ∅]> (database w) /\
  localStorage w' = localStorage w /\ setItems w' = setItems w.


(** Every table except the one at [(schema, tableName)] is the same in
    both worlds. *)
Definition same_elsewhere (schema tableName : string) (w w' : World) : Prop :=
  forall s t, (s, t) <> (schema, tableName) -> getTable s t w' = getTable s t w.

(** The column names of a table are pairwise different. *)
Definition distinct_columns (t : Table.t) : Prop :=
  NoDup (Column.name <$> Table.columns t).

(** Every table of the world has pairwise different column names. *)
Definition all_distinct (w : World) : Prop :=
  forall s t table, getTable s t w = Some table -> distinct_columns table.

(** What an operation on the table at [(schema, tableName)] may do to the
    world: nothing to the database and the stored snapshot, or replace that
    one table by a table related to it by [P] and write the snapshot. *)
Definition rewrites (schema tableName : string) (P : Table.t -> Table.t -> Prop)
    (w w' : World) : Prop :=
  (database w' = database w /\ localStorage w' = localStorage w) \/
  (exists table table',
     getTable schema tableName w = Some table /\ P table table' /\
     database w' =
       <[schema := <[tableName := table']> (default ∅ (database w !! schema))]>
         (database w) /\
     synced w').

Definition same_columns (table table' : Table.t) : Prop :=
  Table.columns table' = Table.columns table.

(** [select] options with a filter and nothing else *)
Definition only_where (f : JS.object) : options :=
  {| where_ := Some f; orderBy := None; limit := None; offset := None |}.

(** A value equal to itself under [===]: anything but [NaN] *)
Definition self_equal (v : JS.value) : Prop := v <> JS.VNumber JS.NaN.

(** A statement whose keyword [executeSQL] recognises *)
Definition recognised (sql : string) : Prop :=
  JS.startsWith (JS.toUpperCase (JS.trim sql)) "CREATE TABLE" = true \/
  JS.startsWith (JS.toUpperCase (JS.trim sql)) "SELECT" = true.

(** Values [JSON] writes and reads back unchanged: everything but
    [undefined], [NaN] and the infinities. *)
Definition storable (v : JS.value) : Prop :=
  v <> JS.VUndefined /\ JSON.value v = v.

(** A table whose rows hold storable values only and whose column defaults
    are written as they are. *)
Definition storable_table (t : Table.t) : Prop :=
  Forall (fun row : JS.object => map_Forall (fun _ v => storable v) row)
         (Table.rows t) /\
  Forall (fun c => JSON.value (Column.default c) = Column.default c)
         (Table.columns t).

Definition storable_database (d : Database) : Prop :=
  forall s tables name t,
    d !! s = Some tables -> tables !! name = Some t -> storable_table t.

(** Saving a list of statements one after the other, the first of the
    list first *)
Definition save_all (statements : list string) (item : option (list string))
    : option (list string) :=
  fold_left (fun it sql => saveQueryToHistory sql it) statements item.





(** [select] options with a given offset and limit *)
Definition paged (opts : options) (offset_ : Z) (limit_ : option Z) : options :=
  {| where_ := where_ opts; orderBy := orderBy opts;
     limit := JS.Num <$> limit_; offset := Some (JS.Num offset_) |}.

(** The failure returned by the handler of [executeSQL] when [select]
    throws *)
Definition caught (rt : Runtime) (startTime endTime : Z) : QueryResult.t :=
  {| QueryResult.success := false; QueryResult.data := None;
     QueryResult.error := Some (TypeError_message rt);
     QueryResult.rowsAffected := None;
     QueryResult.executionTime := Some (endTime - startTime) |}.

(** ** Inputs of the examples *)

(** A runtime for the examples: identifiers and timestamps are numbered, the
    clock advances by one millisecond a reading, and arrays are sorted by
    insertion. *)
Definition digit (n : nat) : string :=
  String (ascii_of_nat (48 + n mod 10)) EmptyString.

Definition example_runtime : Runtime :=
  {| StringToNumber := fun _ => JS.NaN;
     randomUUID := fun n => "uuid-" +:+ digit n;
     toISOString := fun n => "2025-01-01T00:00:0" +:+ digit n +:+ ".000Z";
     performance_now := fun n => Z.of_nat n;
     Array_sort := JS.insertion_sort;
     TypeError_message := "table.rows is not iterable" |}.

Definition fresh_world : World :=
  default {| runtime := example_runtime; tick := 0; database := ∅;
             localStorage := None; setItems := 0 |}
          (DatabaseService.construct example_runtime None).

(** A table named [t] of schema [public] with the given columns and rows *)
Definition example_table (columns : list Column.t) (rows : list JS.object)
    : Table.t :=
  {| Table.id := "table-t"; Table.name := "t"; Table.schema := "public";
     Table.columns := columns; Table.rows := rows;
     Table.indexes := []; Table.policies := [];
     Table.createdAt := "2025-01-01T00:00:00.000Z";
     Table.updatedAt := "2025-01-01T00:00:00.000Z" |}.

(** The freshly started engine after [createTable('public', table)] *)
Definition world_with (table : Table.t) : World :=
  (DatabaseService.createTable "public" table fresh_world).2.

Definition plain_column (name type : string) : Column.t :=
  {| Column.name := name; Column.type := type; Column.nullable := true;
     Column.default := JS.VUndefined; Column.primary := None;
     Column.unique := None; Column.autoIncrement := None;
     Column.length := None |}.

Definition column_with_default (name type : string) (d : JS.value) : Column.t :=
  {| Column.name := name; Column.type := type; Column.nullable := true;
     Column.default := d; Column.primary := None;
     Column.unique := None; Column.autoIncrement := None;
     Column.length := None |}.

Definition serial_column (name : string) : Column.t :=
  {| Column.name := name; Column.type := "INTEGER"; Column.nullable := false;
     Column.default := JS.VUndefined; Column.primary := Some true;
     Column.unique := None; Column.autoIncrement := Some true;
     Column.length := None |}.

Definition int (z : Z) : JS.value := JS.VNumber (JS.Num z).

(** The rows [{x: 3}], [{x: 1}], [{x: 2}] *)
Definition x_rows : list JS.object :=
  [ {[ "x" := int 3 ]}; {[ "x" := int 1 ]}; {[ "x" := int 2 ]} ].

Definition order_by (keys : list order) : options :=
  {| where_ := None; orderBy := Some keys; limit := None; offset := None |}.

Definition page (offset_ limit_ : Z) : options :=
  {| where_ := None; orderBy := None; limit := Some (JS.Num limit_);
     offset := Some (JS.Num offset_) |}.

(** The statement of the CREATE TABLE example and the two columns it
    declares *)
Definition create_foo : string :=
  "CREATE TABLE public.foo (id UUID PRIMARY KEY, name VARCHAR NOT NULL)".

Definition foo_id : Column.t :=
  {| Column.name := "id"; Column.type := "UUID"; Column.nullable := true;
     Column.default := JS.VUndefined; Column.primary := Some true;
     Column.unique := Some false; Column.autoIncrement := None;
     Column.length := None |}.

Definition foo_name : Column.t :=
  {| Column.name := "name"; Column.type := "VARCHAR"; Column.nullable := false;
     Column.default := JS.VUndefined; Column.primary := Some false;
     Column.unique := Some false; Column.autoIncrement := None;
     Column.length := None |}.

(** A statement is malformed when its keyword is recognised and its
    pattern does not match. *)
Definition malformed (sql : string) : Prop :=
  let trimmedSQL := JS.toUpperCase (JS.trim sql) in
  (JS.startsWith trimmedSQL "CREATE TABLE" = true /\
   JS.string_match true create_table_pattern sql = None) \/
  (JS.startsWith trimmedSQL "SELECT" = true /\
   JS.string_match true select_pattern sql = None).

(** The table [t] holding the rows [x_rows], and the engine holding it *)
Definition t_x : Table.t := example_table [plain_column "x" "INTEGER"] x_rows.
Definition w_x : World := world_with t_x.

(** A table with an auto-increment key, empty and with two rows *)
Definition serial_columns : list Column.t :=
  [serial_column "id"; plain_column "name" "TEXT"].

Definition t_serial_empty : Table.t := example_table serial_columns [].

Definition t_serial : Table.t :=
  example_table serial_columns
    [ {[ "id" := int 1; "name" := JS.VString "ann" ]};
      {[ "id" := int 5; "name" := JS.VString "bob" ]} ].

(** A column whose default is the number 0 *)
Definition zero_column : Column.t := column_with_default "n" "INTEGER" (int 0).

Definition t_zero : Table.t := example_table [zero_column] [].

Definition limit_zero : options :=
  {| where_ := None; orderBy := None; limit := Some (JS.Num 0); offset := None |}.








Definition note_column : Column.t :=
  column_with_default "note" "TEXT" (JS.VString "n/a").


(** A table whose greatest key is [2^53], the first integer whose successor
    is not a double *)
Definition t_serial_big : Table.t :=
  example_table serial_columns
    [ {[ "id" := int (2 ^ 53); "name" := JS.VString "ann" ]} ].

(** A table with two columns named [id], the first one auto-increment *)
Definition t_twice : Table.t :=
  example_table [serial_column "id"; plain_column "id" "TEXT"] [].

(** Two rows that differ in [x], where one of them has no value, and in
    [y], and the table holding them *)
Definition row_a : JS.object := {[ "x" := int 1; "y" := int 2 ]}.
Definition row_b : JS.object := {[ "y" := int 1 ]}.

Definition t_ab : Table.t :=
  example_table [plain_column "x" "INTEGER"; plain_column "y" "INTEGER"]
    [row_a; row_b].

Definition by_x_then_y (d : direction) : list order :=
  [ {| column := "x"; dir := ASC |}; {| column := "y"; dir := d |} ].

(** An empty table of one column under a given name *)
Definition table_named (name : string) : Table.t :=
  {| Table.id := "table-" +:+ name; Table.name := name;
     Table.schema := "public";
     Table.columns := [plain_column "x" "INTEGER"]; Table.rows := [];
     Table.indexes := []; Table.policies := [];
     Table.createdAt := "2025-01-01T00:00:00.000Z";
     Table.updatedAt := "2025-01-01T00:00:00.000Z" |}.

(** * Properties *)

(** ** The runtime on small inputs *)

Example trim_strips_both_ends : JS.trim "  a b  " = "a b".
Proof. reflexivity. Qed.

Example split_space_keeps_empty_ends :
  JS.split_space " a  b " = [""; "a"; "b"; ""].
Proof. reflexivity. Qed.

Example split_on_commas : JS.split "," "a,b,,c" = ["a"; "b"; ""; "c"].
Proof. reflexivity. Qed.

Example slice_counts_from_the_end :
  JS.slice [1; 2; 3] (JS.Num (-1)) None = [3] /\
  JS.slice [1; 2; 3] (JS.Num 0) (Some (JS.Num (-1))) = [1; 2].
Proof. split; reflexivity. Qed.

(** An unqualified table name goes to the schema [public]; the keyword may
    be in lower case. *)
Example create_table_unqualified :
  (fun m => (schema_of m, tableName_of m, JS.group m 3))
    <$> JS.string_match true create_table_pattern "create table foo(a INTEGER)"
  = Some ("public", "foo", Some "a INTEGER").
Proof. vm_compute. reflexivity. Qed.

(** A column list broken over several lines is not matched: [.] stops at a
    line break. *)
Example create_table_over_lines :
  JS.string_match true create_table_pattern
    (String.concat (String "010" "") ["CREATE TABLE foo ("; "  a INTEGER"; ")"])
  = None.
Proof. vm_compute. reflexivity. Qed.

Example select_from_qualified :
  (fun m => (schema_of m, tableName_of m))
    <$> JS.string_match true select_pattern "select id, name from app.users where id = 1"
  = Some ("app", "users").
Proof. vm_compute. reflexivity. Qed.

(** ** Tables held by the database *)

Lemma getTable_with_tick schema tableName w n :
  getTable schema tableName (with_tick w n) = getTable schema tableName w.
Proof. reflexivity. Qed.

Lemma getTable_setTable schema tableName t w :
  getTable schema tableName (setTable schema tableName t w).2 = Some t.
Proof.
  unfold getTable, setTable; simpl.
  rewrite lookup_insert_eq. apply lookup_insert_eq.
Qed.

Lemma setTable_same schema tableName t w :
  getTable schema tableName w = Some t ->
  database (setTable schema tableName t w).2 = database w.
Proof.
  unfold getTable, setTable; simpl. intros H.
  destruct (database w !! schema) as [tables|] eqn:E; [|discriminate].
  simpl. rewrite (insert_id tables tableName t H).
  by apply insert_id.
Qed.

Lemma set_rows_same t : set_rows t (Table.rows t) = t.
Proof. by destruct t. Qed.

(** ** The WHERE filter *)

(** [matches] holds exactly when every pair of the filter is strictly equal
    to the row's value at that key. *)
Lemma matches_spec where_ row :
  matches where_ row = true <->
  forall key value, where_ !! key = Some value ->
                    JS.strict_equal (JS.get row key) value = true.
Proof.
  unfold matches, JS.entries_every. rewrite forallb_forall. split.
  - intros H key value Hk.
    apply (H (key, value)). apply list_elem_of_In.
    by apply elem_of_map_to_list.
  - intros H [key value] Hin. simpl.
    apply H. apply elem_of_map_to_list. by apply list_elem_of_In.
Qed.

(** ** update *)

Lemma update_rows_no_match where_ data rows :
  Forall (fun row => matches where_ row = false) rows ->
  update_rows where_ data rows = (rows, 0).
Proof.
  induction 1 as [|row rest Hrow _ IH]; simpl; [done|].
  by rewrite IH, Hrow.
Qed.

Lemma update_rows_count_nonneg where_ data rows :
  0 <= (update_rows where_ data rows).2.
Proof.
  induction rows as [|row rest IH]; simpl; [lia|].
  destruct (update_rows where_ data rest) as [rest' n]; simpl in *.
  destruct (matches where_ row); simpl; lia.
Qed.

Lemma update_rows_lookup where_ data rows i row :
  rows !! i = Some row ->
  (update_rows where_ data rows).1 !! i =
    Some (if matches where_ row then JS.assign row data else row).
Proof.
  revert i. induction rows as [|r rest IH]; intros i Hi; [done|].
  simpl. specialize (IH (pred i)).
  destruct (update_rows where_ data rest) as [rest' n]; simpl in *.
  destruct i as [|i]; simpl in *.
  - injection Hi as ->. by destruct (matches where_ row).
  - specialize (IH Hi). by destruct (matches where_ r).
Qed.


(** C6.  An update whose filter matches no row of an existing table returns
    success with [rowsAffected = 0] and changes nothing: the database (hence
    every row and the table's [updatedAt]) is as before, and nothing is
    written to the local storage. *)
Theorem update_without_match_changes_nothing
    schema tableName where_ data table w :
  getTable schema tableName w = Some table ->
  Forall (fun row => matches where_ row = false) (Table.rows table) ->
  let result := (update schema tableName where_ data w).1 in
  let w' := (update schema tableName where_ data w).2 in
  QueryResult.success result = true /\
  QueryResult.error result = None /\
  QueryResult.rowsAffected result = Some 0 /\
  database w' = database w /\
  getTable schema tableName w' = Some table /\
  localStorage w' = localStorage w /\
  setItems w' = setItems w.
Proof.
  intros Hget Hnone.
  assert (Hdb : database (update schema tableName where_ data w).2 = database w).
  { unfold update, bind, read, performance_now_, draw; simpl.
    rewrite getTable_with_tick, Hget, (update_rows_no_match _ _ _ Hnone); simpl.
    rewrite set_rows_same.
    apply (setTable_same schema tableName table (with_tick w (S (tick w)))), Hget. }
  cbv zeta. repeat split; try exact Hdb.
  - unfold update, bind, read, performance_now_, draw; simpl.
    by rewrite getTable_with_tick, Hget, (update_rows_no_match _ _ _ Hnone).
  - unfold update, bind, read, performance_now_, draw; simpl.
    by rewrite getTable_with_tick, Hget, (update_rows_no_match _ _ _ Hnone).
  - unfold update, bind, read, performance_now_, draw; simpl.
    by rewrite getTable_with_tick, Hget, (update_rows_no_match _ _ _ Hnone).
  - unfold getTable in *. by rewrite Hdb.
  - unfold update, bind, read, performance_now_, draw; simpl.
    by rewrite getTable_with_tick, Hget, (update_rows_no_match _ _ _ Hnone).
  - unfold update, bind, read, performance_now_, draw; simpl.
    by rewrite getTable_with_tick, Hget, (update_rows_no_match _ _ _ Hnone).
Qed.

(** ** insert *)

Lemma strict_equal_undefined v :
  JS.strict_equal v JS.VUndefined = bool_decide (v = JS.VUndefined).
Proof. by destruct v as [| | |[]|]. Qed.

Lemma strict_equal_string v s :
  JS.strict_equal v (JS.VString s) = bool_decide (v = JS.VString s).
Proof. by destruct v as [| | |[]|]. Qed.

Lemma resolves_later rt from from' table data col v :
  (from <= from')%nat ->
  resolves rt from' table data col v -> resolves rt from table data col v.
Proof.
  intros Hle H. destruct H.
  - by apply resolves_explicit.
  - apply resolves_uuid; [done..|lia].
  - apply resolves_now; [done..|lia].
  - by apply resolves_literal.
  - by apply resolves_auto_increment.
  - by apply resolves_null.
Qed.

Lemma column_value_spec table data col w :
  resolves (runtime w) (tick w) table data col (column_value table data col w).1
  /\ exists n, (tick w <= n)%nat /\ (column_value table data col w).2 = with_tick w n.
Proof.
  assert (Hsame : w = with_tick w (tick w)) by (by destruct w).
  unfold column_value.
  rewrite strict_equal_undefined, !strict_equal_string.
  case_bool_decide as Hdata; simpl.
  - destruct (JS.truthy (Column.default col)) eqn:Htruthy.
    + case_bool_decide as Huuid; [|case_bool_decide as Hnow].
      * split; [by apply resolves_uuid|].
        exists (S (tick w)). split; [lia|done].
      * split; [by apply resolves_now|].
        exists (S (tick w)). split; [lia|done].
      * split; [by apply resolves_literal|]. by exists (tick w).
    + destruct (Column.autoIncrement col) as [[]|] eqn:Hauto; simpl.
      * split; [|by exists (tick w)].
        replace (JS.VNumber _) with
          (JS.VNumber (JS.number_succ
             (max_existing (StringToNumber (runtime w)) (Column.name col)
                (Table.rows table)))).
        { by apply resolves_auto_increment. }
        unfold max_existing. by destruct (Table.rows table).
      * split; [apply resolves_null; [done..|congruence]|]. by exists (tick w).
      * split; [apply resolves_null; [done..|congruence]|]. by exists (tick w).
  - split; [by apply resolves_explicit|]. by exists (tick w).
Qed.

Lemma insert_loop_spec table data cols : forall (row : JS.object) w,
  let row' := (forEach cols (insert_body table data) row w).1 in
  let w' := (forEach cols (insert_body table data) row w).2 in
  (exists n, (tick w <= n)%nat /\ w' = with_tick w n) /\
  (forall k, k ∉ Column.name <$> cols -> row' !! k = row !! k) /\
  (forall k, k ∈ Column.name <$> cols -> is_Some (row' !! k)) /\
  (NoDup (Column.name <$> cols) ->
   forall col, col ∈ cols ->
     exists v, row' !! Column.name col = Some v /\
               resolves (runtime w) (tick w) table data col v).
Proof.
  induction cols as [|c cols IH]; intros row w; simpl.
  - repeat split.
    + exists (tick w). split; [lia|by destruct w].
    + intros k Hk. by apply elem_of_nil in Hk.
    + intros _ col Hcol. by apply elem_of_nil in Hcol.
  - destruct (column_value_spec table data c w) as [Hres [n [Hn Hw]]].
    unfold bind, insert_body at 1 3 5 7. unfold bind, ret.
    destruct (column_value table data c w) as [v w1] eqn:Ecv; simpl in *.
    subst w1.
    specialize (IH (<[Column.name c := v]> row) (with_tick w n)).
    simpl in IH. destruct IH as [[n' [Hn' Hw']] [Hframe [Hdom Hvals]]].
    repeat split.
    + exists n'. split; [lia|]. by rewrite Hw'.
    + intros k Hk. apply not_elem_of_cons in Hk as [Hne Hk].
      rewrite (Hframe k Hk). by rewrite lookup_insert_ne.
    + intros k Hk.
      destruct (decide (k ∈ Column.name <$> cols)) as [Hin|Hnin].
      * by apply Hdom.
      * rewrite (Hframe k Hnin). apply elem_of_cons in Hk as [->|Hk]; [|done].
        rewrite lookup_insert_eq. by eexists.
    + intros Hnodup col Hcol.
      apply NoDup_cons in Hnodup as [Hfresh Hnodup].
      apply elem_of_cons in Hcol as [->|Hcol].
      * exists v. split; [|done].
        rewrite (Hframe _ Hfresh). apply lookup_insert_eq.
      * destruct (Hvals Hnodup col Hcol) as [v' [Hv' Hres']].
        exists v'. split; [done|].
        by apply (resolves_later _ _ n).
Qed.

(** What a successful [insert] returns and leaves behind, in terms of the
    row built by the loop. *)
Lemma insert_found schema tableName data table w :
  getTable schema tableName w = Some table ->
  exists row n,
    (tick w < n)%nat /\
    forEach (Table.columns table) (insert_body table data) ∅
      (with_tick w (S (tick w))) = (row, with_tick w n) /\
    let table' :=
      set_updatedAt (set_rows table (Table.rows table ++ [row])%list)
        (toISOString (runtime w) n) in
    let db :=
      <[schema := <[tableName := table']> (default ∅ (database w !! schema))]>
        (database w) in
    insert schema tableName data w =
      ({| QueryResult.success := true; QueryResult.data := Some [row];
          QueryResult.error := None; QueryResult.rowsAffected := Some 1;
          QueryResult.executionTime :=
            Some (performance_now (runtime w) (S n)
                  - performance_now (runtime w) (tick w)) |},
       {| runtime := runtime w; tick := S (S n); database := db;
          localStorage := Some (JSON.roundtrip db);
          setItems := S (setItems w) |}).
Proof.
  intros Hget.
  destruct (insert_loop_spec table data (Table.columns table) ∅
              (with_tick w (S (tick w)))) as [[n [Hn Hw]] _].
  simpl in Hn, Hw.
  destruct (forEach (Table.columns table) (insert_body table data) ∅
              (with_tick w (S (tick w)))) as [row w2] eqn:Eloop.
  simpl in Hw. subst w2.
  exists row, n. split; [lia|]. split; [done|].
  unfold insert, bind, read, performance_now_, draw; simpl.
  rewrite getTable_with_tick, Hget.
  by rewrite Eloop.
Qed.

(** The row built by [insert]: its keys are the declared column names, and
    with distinct names every column holds a value resolved by the
    precedence. *)
Lemma insert_row schema tableName data table w :
  getTable schema tableName w = Some table ->
  exists row now,
    QueryResult.data (insert schema tableName data w).1 = Some [row] /\
    getTable schema tableName (insert schema tableName data w).2 =
      Some (set_updatedAt
              (set_rows table (Table.rows table ++ [row])%list) now) /\
    (forall k, is_Some (row !! k) <-> k ∈ Column.name <$> Table.columns table) /\
    (NoDup (Column.name <$> Table.columns table) ->
     forall col, col ∈ Table.columns table ->
       exists v, row !! Column.name col = Some v /\
                 resolves (runtime w) (tick w) table data col v).
Proof.
  intros Hget.
  destruct (insert_found schema tableName data table w Hget)
    as [row [n [Hn [Hloop Hins]]]].
  exists row, (toISOString (runtime w) n).
  cbv zeta in *. rewrite Hins. simpl.
  pose proof (insert_loop_spec table data (Table.columns table) ∅
                (with_tick w (S (tick w)))) as Hspec.
  cbv zeta in Hspec. rewrite Hloop in Hspec. simpl in Hspec.
  destruct Hspec as [_ [Hframe [Hdom Hvals]]].
  repeat split; try done.
  - unfold getTable; simpl. rewrite lookup_insert_eq. apply lookup_insert_eq.
  - intros Hk.
    destruct (decide (k ∈ Column.name <$> Table.columns table)); [done|].
    rewrite (Hframe k) in Hk by done. rewrite lookup_empty in Hk.
    by destruct Hk.
  - apply Hdom.
  - intros Hnodup col Hcol.
    destruct (Hvals Hnodup col Hcol) as [v [Hv Hres]].
    exists v. split; [done|].
    apply (resolves_later _ _ (S (tick w))); [lia|done].
Qed.

(** *** Auto-increment *)






(** [+ 1] is exact as long as the result is at most [2^53] in magnitude. *)
Lemma round_safe z : Z.abs z <= 2 ^ 53 -> JS.round z = JS.Num z.
Proof.
  intros Hz. unfold JS.round.
  by destruct (Z.leb_spec (Z.abs z) (2 ^ 53)); [|lia].
Qed.

Lemma number_succ_safe z :
  - 2 ^ 53 <= z < 2 ^ 53 -> JS.number_succ (JS.Num z) = JS.Num (z + 1).
Proof. intros Hz. simpl. apply round_safe. lia. Qed.

(** The value [insert] hands to [Math.max] for a row is what the row counts
    as. *)
Lemma ToNumber_counted to_number name (r : JS.object) :
  JS.ToNumber to_number (JS.or_else (JS.get r name) (JS.VNumber (JS.Num 0)))
  = counted to_number name r.
Proof.
  unfold counted, JS.or_else.
  destruct (JS.get r name) as [| |[]|[| |z|]|s]; simpl; try done.
  - by destruct (Z.eqb_spec z 0) as [->|].
  - by destruct (String.eqb s "").
Qed.

Lemma number_lt_transitive x y z :
  JS.number_lt x y = true -> JS.number_lt y z = true -> JS.number_lt x z = true.
Proof.
  destruct x, y, z; simpl; try done.
  intros H1%Z.ltb_lt H2%Z.ltb_lt. apply Z.ltb_lt. lia.
Qed.

Lemma number_le_transitive x y z :
  number_le x y -> number_le y z -> number_le x z.
Proof.
  intros [->|Hxy] [->|Hyz]; [by left|by right|by right|right].
  by apply (number_lt_transitive x y z).
Qed.

(** The greater of two numbers that are not [NaN] is one of them and
    bounds both. *)
Lemma number_max_bounds x y :
  x <> JS.NaN -> y <> JS.NaN ->
  JS.number_max x y <> JS.NaN /\
  number_le x (JS.number_max x y) /\ number_le y (JS.number_max x y) /\
  (JS.number_max x y = x \/ JS.number_max x y = y).
Proof.
  unfold number_le.
  destruct x as [| |a|], y as [| |b|]; simpl; intros Hx Hy; try done;
    repeat split; try done; auto.
  - destruct (Z.max_spec a b) as [[Hlt ->]|[Hle ->]]; [right|by left].
    by apply Z.ltb_lt.
  - destruct (Z.max_spec a b) as [[Hlt ->]|[Hle ->]]; [by left|].
    destruct (decide (a = b)) as [->|Hne]; [by left|right].
    apply Z.ltb_lt. lia.
  - destruct (Z.max_spec a b) as [[_ ->]|[_ ->]]; [by right|by left].
Qed.

Lemma number_max_NaN x y :
  x = JS.NaN \/ y = JS.NaN -> JS.number_max x y = JS.NaN.
Proof. intros [->| ->]; [done|]. by destruct x. Qed.

(** [Math.max]: [NaN] as soon as one argument is, the greatest argument
    otherwise. *)
Lemma fold_number_max ms : forall acc,
  let r := fold_left JS.number_max ms acc in
  (acc = JS.NaN \/ JS.NaN ∈ ms -> r = JS.NaN) /\
  (acc <> JS.NaN -> JS.NaN ∉ ms ->
   r <> JS.NaN /\ number_le acc r /\
   (forall y, y ∈ ms -> number_le y r) /\ (r = acc \/ r ∈ ms)).
Proof.
  induction ms as [|m ms IH]; intros acc; simpl.
  - split.
    + intros [->|H]; [done|by apply elem_of_nil in H].
    + intros Hacc _. split; [done|]. split; [by left|]. split; [|by left].
      intros y Hy. by apply elem_of_nil in Hy.
  - destruct (IH (JS.number_max acc m)) as [Hnan Hmax]. split.
    + intros H. apply Hnan.
      destruct H as [->|H]; [by left|].
      apply elem_of_cons in H as [<-|H]; [left|by right].
      apply number_max_NaN. by right.
    + intros Hacc Hms. apply not_elem_of_cons in Hms as [Hm Hms].
      destruct (number_max_bounds acc m Hacc (not_eq_sym Hm))
        as (Hmax1 & Hle1 & Hle2 & Hwhich).
      destruct (Hmax Hmax1 Hms) as (Hr & Hle & Hall & Hin).
      split; [done|]. split; [by eapply number_le_transitive|]. split.
      * intros y Hy. apply elem_of_cons in Hy as [->|Hy]; [|by apply Hall].
        by eapply number_le_transitive.
      * destruct Hin as [Heq|Hin]; [|right; apply elem_of_cons; by right].
        rewrite Heq. destruct Hwhich as [->| ->]; [by left|right].
        apply elem_of_cons. by left.
Qed.

Lemma max_existing_counted to_number name rows :
  rows <> [] ->
  max_existing to_number name rows
  = fold_left JS.number_max (counted to_number name <$> rows) JS.NegInfinity.
Proof.
  intros Hne. unfold max_existing, JS.Math_max.
  destruct rows as [|r0 rows]; [done|]. clear Hne.
  generalize JS.NegInfinity. generalize (r0 :: rows). clear.
  intros rows. induction rows as [|r rows IH]; intros acc; simpl; [done|].
  by rewrite ToNumber_counted, IH.
Qed.

(** The maximum [insert] takes over the rows of a table that has some: [NaN]
    when a row counts as [NaN], the greatest of what the rows count as
    otherwise. *)
Lemma max_existing_greatest to_number name rows :
  rows <> [] ->
  let existing := counted to_number name <$> rows in
  (JS.NaN ∈ existing -> max_existing to_number name rows = JS.NaN) /\
  (JS.NaN ∉ existing ->
   max_existing to_number name rows ∈ existing /\
   forall y, y ∈ existing -> number_le y (max_existing to_number name rows)).
Proof.
  intros Hne existing. rewrite (max_existing_counted _ _ _ Hne).
  fold existing.
  destruct (fold_number_max existing JS.NegInfinity) as [Hnan Hmax]. split.
  - intros H. apply Hnan. by right.
  - intros H. destruct (Hmax ltac:(done) H) as (_ & _ & Hall & Hin).
    split; [|done].
    destruct Hin as [Heq|Hin]; [|done].
    (* the maximum is the seed only if every row counts as the seed *)
    destruct rows as [|r rows]; [done|].
    assert (Hr : counted to_number name r ∈ existing) by (by left).
    destruct (Hall _ Hr) as [Hsame|Hlt].
    + by rewrite <- Hsame.
    + rewrite Heq in Hlt. by destruct (counted to_number name r).
Qed.

(** The value of the last column of its name is the value [insert] leaves
    in the row. *)
Lemma insert_loop_last table data col post : forall pre (row : JS.object) w,
  Column.name col ∉ Column.name <$> post ->
  exists v,
    (forEach (pre ++ col :: post)%list (insert_body table data) row w).1
      !! Column.name col = Some v /\
    resolves (runtime w) (tick w) table data col v.
Proof.
  intros pre. induction pre as [|c pre IH]; intros row w Hlast; simpl.
  - destruct (column_value_spec table data col w) as [Hres [n [Hn Hw]]].
    unfold bind, insert_body at 1. unfold bind, ret.
    destruct (column_value table data col w) as [v w1]; simpl in *.
    exists v. split; [|done].
    destruct (insert_loop_spec table data post (<[Column.name col := v]> row) w1)
      as (_ & Hframe & _).
    rewrite (Hframe _ Hlast). apply lookup_insert_eq.
  - destruct (column_value_spec table data c w) as [_ [n [Hn Hw]]].
    unfold bind, insert_body at 1. unfold bind, ret.
    destruct (column_value table data c w) as [v0 w1]; simpl in *. subst w1.
    destruct (IH (<[Column.name c := v0]> row) (with_tick w n) Hlast)
      as [v [Hv Hres]].
    exists v. split; [done|].
    by apply (resolves_later _ _ n).
Qed.

Lemma insert_row_last schema tableName data table pre col post w :
  getTable schema tableName w = Some table ->
  Table.columns table = (pre ++ col :: post)%list ->
  Column.name col ∉ Column.name <$> post ->
  exists row now v,
    QueryResult.data (insert schema tableName data w).1 = Some [row] /\
    getTable schema tableName (insert schema tableName data w).2 =
      Some (set_updatedAt
              (set_rows table (Table.rows table ++ [row])%list) now) /\
    row !! Column.name col = Some v /\
    resolves (runtime w) (tick w) table data col v.
Proof.
  intros Hget Hcols Hlast.
  destruct (insert_found schema tableName data table w Hget)
    as [row [n [Hn [Hloop Hins]]]].
  destruct (insert_loop_last table data col post pre ∅
              (with_tick w (S (tick w))) Hlast) as [v [Hv Hres]].
  rewrite <- Hcols, Hloop in Hv. simpl in Hv.
  exists row, (toISOString (runtime w) n), v.
  cbv zeta in Hins. rewrite Hins. simpl.
  split; [done|]. split; [|split; [done|]].
  - unfold getTable; simpl. rewrite lookup_insert_eq. apply lookup_insert_eq.
  - apply (resolves_later _ _ (S (tick w))); [lia|done].
Qed.

(** C2 (amended).  Let [col] be an auto-increment column without a default,
    to which [data] gives no value, whose name no later column bears and
    no object inherits (under a name such as [constructor] every [data]
    has a value).  On a table without rows [insert] stores 1 in it.  On a table with rows
    it stores the successor of the maximum of what the rows count as in
    that column (a falsy value as 0, [true] as 1, a string as its
    conversion): [NaN] when a row counts as [NaN]; otherwise the rounded
    successor of the greatest of them, which is one more than it when it is
    an integer from [-2^53] to [2^53 - 1]. *)
Theorem insert_auto_increment schema tableName data table pre col post w :
  getTable schema tableName w = Some table ->
  Table.columns table = (pre ++ col :: post)%list ->
  Column.name col ∉ Column.name <$> post ->
  JS.inherited (Column.name col) = false ->
  Column.autoIncrement col = Some true ->
  Column.default col = JS.VUndefined ->
  JS.get data (Column.name col) = JS.VUndefined ->
  let name := Column.name col in
  let existing :=
    counted (StringToNumber (runtime w)) name <$> Table.rows table in
  exists row table',
    QueryResult.data (insert schema tableName data w).1 = Some [row] /\
    getTable schema tableName (insert schema tableName data w).2 = Some table' /\
    Table.rows table' = (Table.rows table ++ [row])%list /\
    (Table.rows table = [] -> JS.get row name = JS.VNumber (JS.Num 1)) /\
    (Table.rows table <> [] ->
     (JS.NaN ∈ existing -> JS.get row name = JS.VNumber JS.NaN) /\
     (JS.NaN ∉ existing ->
      exists m,
        m ∈ existing /\ (forall y, y ∈ existing -> number_le y m) /\
        JS.get row name = JS.VNumber (JS.number_succ m) /\
        forall z, m = JS.Num z -> - 2 ^ 53 <= z < 2 ^ 53 ->
                  JS.get row name = JS.VNumber (JS.Num (z + 1)))).
Proof.
  intros Hget Hcols Hlast _ Hauto Hdefault Hdata name existing.
  destruct (insert_row_last schema tableName data table pre col post w
              Hget Hcols Hlast) as (row & now & v & Hrow & Htable & Hv & Hres).
  exists row, (set_updatedAt
                 (set_rows table (Table.rows table ++ [row])%list) now).
  assert (Hvalue : v = JS.VNumber
            (JS.number_succ
               (max_existing (StringToNumber (runtime w)) (Column.name col)
                  (Table.rows table)))).
  { inversion Hres; try congruence.
    all: rewrite Hdefault in *; simpl in *; congruence. }
  subst v.
  assert (Hget_row : JS.get row name = JS.VNumber
            (JS.number_succ
               (max_existing (StringToNumber (runtime w)) name
                  (Table.rows table)))).
  { unfold JS.get, name. by rewrite Hv. }
  split; [done|]. split; [done|]. split; [done|]. split.
  - intros Hempty. by rewrite Hget_row, Hempty.
  - intros Hne.
    destruct (max_existing_greatest (StringToNumber (runtime w)) name
                (Table.rows table) Hne) as [Hnan Hmax].
    fold existing in Hnan, Hmax. split.
    + intros H. by rewrite Hget_row, (Hnan H).
    + intros H. destruct (Hmax H) as [Hin Hall].
      eexists. split; [exact Hin|]. split; [exact Hall|]. split; [done|].
      intros z Hz Hsafe. rewrite Hget_row, Hz.
      by rewrite number_succ_safe.
Qed.


(** ** addColumn *)

Lemma find_name_none (columns : list Column.t) name :
  (forall c, c ∈ columns -> Column.name c <> name) ->
  List.find (fun c => String.eqb (Column.name c) name) columns = None.
Proof.
  induction columns as [|c columns IH]; intros Hfresh; simpl; [done|].
  destruct (String.eqb_spec (Column.name c) name) as [Heq|_].
  - exfalso. apply (Hfresh c); [apply elem_of_cons; by left|done].
  - apply IH. intros c' Hc'. apply Hfresh. apply elem_of_cons. by right.
Qed.

(** ** select *)

Lemma select_found schema tableName opts table w :
  getTable schema tableName w = Some table ->
  let results :=
    apply_limit opts
      (apply_offset opts
         (apply_orderBy (runtime w) opts
            (apply_where opts (Table.rows table)))) in
  select schema tableName opts w =
    ({| QueryResult.success := true; QueryResult.data := Some results;
        QueryResult.error := None;
        QueryResult.rowsAffected := Some (Z.of_nat (List.length results));
        QueryResult.executionTime :=
          Some (performance_now (runtime w) (S (tick w))
                - performance_now (runtime w) (tick w)) |},
     with_tick w (S (S (tick w)))).
Proof.
  intros Hget. cbv zeta.
  unfold select, bind, read, performance_now_, draw; simpl.
  by rewrite getTable_with_tick, Hget.
Qed.

Lemma matches_satisfies f row : matches f row = true <-> satisfies f row.
Proof. apply matches_spec. Qed.

Lemma apply_where_filtered opts (rows : list JS.object) :
  apply_where opts rows = filtered opts rows.
Proof.
  unfold apply_where, filtered. destruct (where_ opts) as [f|]; [|done].
  induction rows as [|row rows IH]; simpl; [done|].
  rewrite filter_cons. destruct (decide (satisfies f row)) as [Hs|Hs].
  - apply matches_satisfies in Hs. by rewrite Hs, IH.
  - destruct (matches f row) eqn:Hm; [|done].
    by apply matches_satisfies in Hm.
Qed.

(** [slice(k)] drops the first [k] elements and [slice(0, k)] keeps the
    first [k], for [k >= 0]. *)
Lemma slice_from {A} (l : list A) k :
  0 <= k -> JS.slice l (JS.Num k) None = drop (Z.to_nat k) l.
Proof.
  intros Hk. unfold JS.slice, JS.relative_index.
  destruct (Z.ltb_spec k 0) as [|_]; [lia|].
  destruct (Z.le_gt_cases k (Z.of_nat (List.length l))) as [Hle|Hgt].
  - rewrite Z.min_l by done. apply take_ge. rewrite length_drop. lia.
  - rewrite Z.min_r by lia. rewrite Z.sub_diag. simpl.
    symmetry. apply drop_ge. lia.
Qed.

Lemma slice_upto {A} (l : list A) k :
  0 <= k -> JS.slice l (JS.Num 0) (Some (JS.Num k)) = take (Z.to_nat k) l.
Proof.
  intros Hk. unfold JS.slice, JS.relative_index. simpl.
  destruct (Z.ltb_spec k 0) as [|_]; [lia|].
  rewrite (Z.min_l 0) by lia. simpl. rewrite Z.sub_0_r.
  destruct (Z.le_gt_cases k (Z.of_nat (List.length l))) as [Hle|Hgt].
  - by rewrite Z.min_l.
  - rewrite Z.min_r by lia. rewrite Nat2Z.id.
    change (Z.to_nat 0) with 0%nat. rewrite drop_0.
    by rewrite !take_ge by lia.
Qed.

Lemma given_integer k :
  given (Some (JS.Num k)) = if k =? 0 then None else Some (JS.Num k).
Proof. unfold given; simpl. by destruct (k =? 0). Qed.

Lemma apply_offset_natural opts (rows : list JS.object) :
  natural (offset opts) -> apply_offset opts rows = after_offset opts rows.
Proof.
  unfold apply_offset, after_offset, natural.
  destruct (offset opts) as [[| |k|]|]; try done.
  intros Hk. rewrite given_integer.
  destruct (Z.eqb_spec k 0) as [->|_]; [done|by apply slice_from].
Qed.

Lemma apply_limit_natural opts (rows : list JS.object) :
  natural (limit opts) ->
  apply_limit opts rows =
    match limit opts with
    | Some (JS.Num k) => if k =? 0 then rows else take (Z.to_nat k) rows
    | _ => rows
    end.
Proof.
  unfold apply_limit, natural.
  destruct (limit opts) as [[| |k|]|]; try done.
  intros Hk. rewrite given_integer.
  destruct (Z.eqb_spec k 0) as [->|_]; [done|by apply slice_upto].
Qed.

(** The rows [select] returns, for options that are absent or natural
    numbers. *)
Lemma select_rows_pipeline schema tableName opts table w :
  getTable schema tableName w = Some table ->
  natural (offset opts) -> natural (limit opts) ->
  QueryResult.data (select schema tableName opts w).1
    = Some (pipeline (runtime w) opts (Table.rows table)) /\
  QueryResult.rowsAffected (select schema tableName opts w).1
    = Some (Z.of_nat (List.length
              (pipeline (runtime w) opts (Table.rows table)))) /\
  QueryResult.success (select schema tableName opts w).1 = true.
Proof.
  intros Hget Hoff Hlim.
  rewrite (select_found schema tableName opts table w Hget). simpl.
  rewrite (apply_limit_natural _ _ Hlim), (apply_offset_natural _ _ Hoff).
  rewrite apply_where_filtered.
  by unfold pipeline, ordered, apply_orderBy.
Qed.

Lemma ordered_permutation rt opts (rows : list JS.object) :
  conforming rt -> Permutation (ordered rt opts rows) rows.
Proof.
  intros Hconf. unfold ordered. destruct (orderBy opts) as [keys|]; [|done].
  apply Hconf.
Qed.

(** C9.  A limit of zero is not applied: [select] with [limit = 0] returns
    what it returns without a limit, that is every row that survives the
    filter and the offset: the rows satisfying the filter, as the sort of
    the engine leaves them, without the first [offset] rows; on a
    conforming engine the sort has rearranged them without losing or
    adding a row.  And an offset of zero is the same as no offset. *)
Theorem select_ignores_zero_limit_and_offset schema tableName opts w :
  select schema tableName (with_limit opts (Some (JS.Num 0))) w
    = select schema tableName (with_limit opts None) w /\
  select schema tableName (with_offset opts (Some (JS.Num 0))) w
    = select schema tableName (with_offset opts None) w /\
  (forall table,
     getTable schema tableName w = Some table ->
     natural (offset opts) ->
     let sorted :=
       ordered (runtime w) opts (filtered opts (Table.rows table)) in
     QueryResult.data
       (select schema tableName (with_limit opts (Some (JS.Num 0))) w).1
     = Some (after_offset opts sorted) /\
     (conforming (runtime w) ->
      Permutation sorted (filtered opts (Table.rows table)))).
Proof.
  split; [reflexivity|]. split; [reflexivity|].
  intros table Hget Hoff. cbv zeta. split.
  - destruct (select_rows_pipeline schema tableName
                (with_limit opts (Some (JS.Num 0))) table w Hget)
      as [Hdata _]; [done|simpl; lia|].
    by rewrite Hdata.
  - apply ordered_permutation.
Qed.

(** C3 (amended).  On an existing table, with an offset and a limit that
    are absent or natural numbers, [select] returns the rows of the
    pipeline: the rows satisfying the filter, sorted by the engine under
    the comparator of the keys when [orderBy] is given (on a conforming
    engine a rearrangement of those rows), without the first [offset] rows,
    cut to the first [limit] rows when the limit is not zero;
    [rowsAffected] is the number of rows returned; and with offset 1 and
    limit 1 a table of rows [A, B, C] yields exactly [B]. *)
Theorem select_runs_the_pipeline schema tableName opts table w :
  getTable schema tableName w = Some table ->
  natural (offset opts) ->
  natural (limit opts) ->
  let result := (select schema tableName opts w).1 in
  let rows := pipeline (runtime w) opts (Table.rows table) in
  QueryResult.success result = true /\
  QueryResult.data result = Some rows /\
  QueryResult.rowsAffected result = Some (Z.of_nat (List.length rows)) /\
  (forall row, row ∈ filtered opts (Table.rows table) <->
     row ∈ Table.rows table /\
     forall f, where_ opts = Some f -> satisfies f row) /\
  (conforming (runtime w) ->
   Permutation (ordered (runtime w) opts (filtered opts (Table.rows table)))
     (filtered opts (Table.rows table))) /\
  (forall A B C,
     Table.rows table = [A; B; C] -> opts = page 1 1 ->
     QueryResult.data result = Some [B] /\
     QueryResult.rowsAffected result = Some 1).
Proof.
  intros Hget Hoff Hlim.
  destruct (select_rows_pipeline schema tableName opts table w Hget Hoff Hlim)
    as (Hdata & Hcount & Hsucc).
  cbv zeta. split; [done|]. split; [done|]. split; [done|].
  split; [|split].
  - intros row. unfold filtered.
    destruct (where_ opts) as [f|].
    + rewrite list_elem_of_filter. split.
      * intros [Hsat Hin]. split; [done|]. by intros ? [= <-].
      * intros [Hin Hsat]. split; [by apply Hsat|done].
    + split; [by intros Hin|by intros [Hin _]].
  - apply ordered_permutation.
  - intros A B C Hrows ->. rewrite Hdata, Hcount, Hrows. by split.
Qed.

(** ** ORDER BY *)

Lemma sort_insert_permutation {A} (cmp : A -> A -> Z) x l :
  Permutation (JS.insertion_sort_step cmp x l) (x :: l).
Proof.
  induction l as [|y l IH]; simpl; [done|].
  destruct (0 <? cmp x y); [|done].
  rewrite IH. apply perm_swap.
Qed.

Lemma sort_permutation {A} (cmp : A -> A -> Z) l :
  Permutation (JS.insertion_sort cmp l) l.
Proof.
  induction l as [|x l IH]; simpl; [done|].
  rewrite sort_insert_permutation. by constructor.
Qed.

(** *** Consistent comparators *)

Section Consistent.

Context {A : Type} (cmp : A -> A -> Z) (L : list A).

Hypothesis cmp_consistent : consistent cmp L.

Lemma consistent_less_greater a b :
  a ∈ L -> b ∈ L -> cmp a b < 0 -> 0 < cmp b a.
Proof.
  destruct cmp_consistent as (Hrefl & Hsym & _ & Hless & _).
  intros Ha Hb Hab.
  destruct (Z.lt_trichotomy (cmp b a) 0) as [Hba|[Hba|Hba]]; [| |done].
  - pose proof (Hless a b a Ha Hb Ha Hab Hba). pose proof (Hrefl a Ha). lia.
  - pose proof (Hsym b a Hb Ha Hba). lia.
Qed.

Lemma consistent_greater_less a b :
  a ∈ L -> b ∈ L -> 0 < cmp a b -> cmp b a < 0.
Proof.
  destruct cmp_consistent as (Hrefl & Hsym & _ & _ & Hgreater).
  intros Ha Hb Hab.
  destruct (Z.lt_trichotomy (cmp b a) 0) as [Hba|[Hba|Hba]]; [done| |].
  - pose proof (Hsym b a Hb Ha Hba). lia.
  - pose proof (Hgreater a b a Ha Hb Ha Hab Hba). pose proof (Hrefl a Ha). lia.
Qed.

(** [a] is not after [b]: less or equal under the comparator *)
Lemma consistent_transitive a b c :
  a ∈ L -> b ∈ L -> c ∈ L -> cmp a b <= 0 -> cmp b c <= 0 -> cmp a c <= 0.
Proof.
  destruct cmp_consistent as (Hrefl & Hsym & Hequal & Hless & Hgreater).
  intros Ha Hb Hc Hab Hbc.
  destruct (Z.lt_trichotomy (cmp a c) 0) as [Hac|[Hac|Hac]]; [lia|lia|].
  exfalso.
  pose proof (consistent_greater_less a c Ha Hc Hac) as Hca.
  apply Z.le_lteq in Hab as [Hab'|Hab'], Hbc as [Hbc'|Hbc'].
  - pose proof (Hless a b c Ha Hb Hc Hab' Hbc'). lia.
  - (* c < a < b and b = c *)
    pose proof (Hless c a b Hc Ha Hb Hca Hab').
    pose proof (Hsym b c Hb Hc Hbc'). lia.
  - (* b < c < a and a = b *)
    pose proof (Hless b c a Hb Hc Ha Hbc' Hca).
    pose proof (Hsym a b Ha Hb Hab'). lia.
  - pose proof (Hequal a b c Ha Hb Hc Hab' Hbc'). lia.
Qed.

Lemma consistent_not_less a b :
  a ∈ L -> b ∈ L -> (~ cmp b a < 0 <-> cmp a b <= 0).
Proof.
  destruct cmp_consistent as (Hrefl & Hsym & _).
  intros Ha Hb. split.
  - intros Hba.
    destruct (Z.lt_trichotomy (cmp a b) 0) as [Hab|[Hab|Hab]]; [lia|lia|].
    pose proof (consistent_greater_less a b Ha Hb Hab). lia.
  - intros Hab Hba.
    pose proof (consistent_less_greater b a Hb Ha Hba). lia.
Qed.

(** Insertion keeps a list of elements of [L] in order. *)
Lemma sort_insert_strongly x l :
  x ∈ L -> (forall y, y ∈ l -> y ∈ L) ->
  StronglySorted (fun a b => cmp a b <= 0) l ->
  StronglySorted (fun a b => cmp a b <= 0) (JS.insertion_sort_step cmp x l).
Proof.
  intros Hx Hl Hsorted.
  induction Hsorted as [|y l Hsorted IH Hall]; simpl.
  - by repeat constructor.
  - assert (Hy : y ∈ L) by (apply Hl; by left).
    assert (Hl' : forall z, z ∈ l -> z ∈ L) by (intros z Hz; apply Hl; by right).
    destruct (Z.ltb_spec 0 (cmp x y)) as [Hgt|Hle].
    + constructor; [by apply IH|].
      rewrite sort_insert_permutation. constructor; [|done].
      pose proof (consistent_greater_less x y Hx Hy Hgt). lia.
    + constructor; [by constructor|].
      constructor; [done|].
      rewrite Forall_forall in Hall |- *. intros z Hz.
      apply (consistent_transitive x y z); try done.
      * by apply Hl'.
      * by apply Hall.
Qed.

Lemma sort_strongly l :
  (forall y, y ∈ l -> y ∈ L) ->
  StronglySorted (fun a b => cmp a b <= 0) (JS.insertion_sort cmp l).
Proof.
  induction l as [|x l IH]; intros Hl; simpl; [constructor|].
  apply sort_insert_strongly.
  - apply Hl. by left.
  - intros y Hy. apply Hl. right. by rewrite sort_permutation in Hy.
  - apply IH. intros y Hy. apply Hl. by right.
Qed.

End Consistent.

Lemma StronglySorted_weaken {A} (P Q : A -> A -> Prop) l :
  (forall a b, a ∈ l -> b ∈ l -> P a b -> Q a b) ->
  StronglySorted P l -> StronglySorted Q l.
Proof.
  intros HPQ Hsorted. induction Hsorted as [|x l Hsorted IH Hall].
  - constructor.
  - constructor.
    + apply IH. intros a b Ha Hb. apply HPQ; by right.
    + rewrite Forall_forall in Hall |- *. intros y Hy.
      apply HPQ; [by left|by right|by apply Hall].
Qed.

(** The insertion sort is a sort the language allows. *)
Lemma insertion_sort_conforming rt :
  Array_sort rt = JS.insertion_sort -> conforming rt.
Proof.
  intros Hsort cmp l. rewrite Hsort. split; [apply sort_permutation|].
  intros Hcons.
  apply (StronglySorted_weaken (fun a b => cmp a b <= 0)).
  - intros a b Ha Hb Hab. rewrite sort_permutation in Ha, Hb.
    by apply (consistent_not_less cmp l Hcons).
  - by apply (sort_strongly cmp l Hcons).
Qed.

(** Two arrangements of the same elements in an order that leaves no two
    different elements tied are the same list. *)
Lemma strongly_sorted_unique {A} (R : A -> A -> Prop) (l1 : list A) : forall l2,
  (forall a b, a ∈ l1 -> b ∈ l1 -> R a b -> R b a -> a = b) ->
  StronglySorted R l1 -> StronglySorted R l2 -> Permutation l1 l2 -> l1 = l2.
Proof.
  induction l1 as [|a l1 IH]; intros l2 Hanti H1 H2 Hperm.
  - by apply Permutation_nil in Hperm.
  - destruct l2 as [|b l2].
    { symmetry in Hperm. by apply Permutation_nil in Hperm. }
    apply StronglySorted_inv in H1 as [H1 Ha].
    apply StronglySorted_inv in H2 as [H2 Hb].
    rewrite Forall_forall in Ha, Hb.
    assert (a = b) as ->.
    { assert (Hin_a : a ∈ b :: l2) by (rewrite <- Hperm; by left).
      assert (Hin_b : b ∈ a :: l1) by (rewrite Hperm; by left).
      apply elem_of_cons in Hin_a as [->|Hin_a]; [done|].
      pose proof Hin_b as Hin_b'.
      apply elem_of_cons in Hin_b as [->|Hin_b]; [done|].
      apply Hanti; [by left|done| |].
      - by apply Ha.
      - by apply Hb. }
    f_equal. apply IH; [|done..|by apply Permutation_cons_inv in Hperm].
    intros x y Hx Hy. apply Hanti; by right.
Qed.

Lemma number_lt_asymmetric x y :
  JS.number_lt x y = true -> JS.number_lt y x = false.
Proof.
  destruct x, y; simpl; try done.
  intros H. apply Z.ltb_lt in H. apply Z.ltb_ge. lia.
Qed.

Lemma string_lt_asymmetric s : forall t,
  JS.string_lt s t = true -> JS.string_lt t s = false.
Proof.
  induction s as [|a s IH]; intros [|b t]; simpl; try done.
  destruct (Nat.ltb_spec (nat_of_ascii a) (nat_of_ascii b)),
           (Nat.ltb_spec (nat_of_ascii b) (nat_of_ascii a));
    try done; try lia.
  apply IH.
Qed.

Lemma lt_asymmetric to_number x y :
  JS.lt to_number x y = true -> JS.lt to_number y x = false.
Proof.
  unfold JS.lt.
  destruct x, y;
    first [apply string_lt_asymmetric | apply number_lt_asymmetric].
Qed.

Lemma lt_irreflexive to_number x : JS.lt to_number x x = false.
Proof.
  destruct (JS.lt to_number x x) eqn:E; [|done].
  by rewrite (lt_asymmetric _ _ _ E) in E.
Qed.

Lemma compare_rows_antisymmetric to_number keys a b :
  compare_rows to_number keys b a = - compare_rows to_number keys a b.
Proof.
  induction keys as [|o keys IH]; simpl; [done|].
  unfold JS.gt.
  destruct (JS.lt to_number (JS.get a (column o)) (JS.get b (column o))) eqn:Hab.
  - rewrite (lt_asymmetric _ _ _ Hab). by destruct (dir o).
  - destruct (JS.lt to_number (JS.get b (column o)) (JS.get a (column o)));
      [by destruct (dir o)|done].
Qed.

Lemma compare_rows_skip to_number pre rest a b :
  (forall o, o ∈ pre -> JS.get a (column o) = JS.get b (column o)) ->
  compare_rows to_number (pre ++ rest)%list a b = compare_rows to_number rest a b.
Proof.
  induction pre as [|o pre IH]; intros Heq; simpl; [done|].
  rewrite (Heq o) by (apply elem_of_cons; by left).
  unfold JS.gt. rewrite lt_irreflexive.
  apply IH. intros o' Ho'. apply Heq. apply elem_of_cons. by right.
Qed.

Lemma string_lt_total s : forall t,
  s <> t -> JS.string_lt s t = true \/ JS.string_lt t s = true.
Proof.
  induction s as [|a s IH]; intros [|b t] Hne; simpl; try done;
    [by left|by right|].
  destruct (Nat.ltb_spec (nat_of_ascii a) (nat_of_ascii b)); [by left|].
  destruct (Nat.ltb_spec (nat_of_ascii b) (nat_of_ascii a)); [by right|].
  assert (a = b) as ->.
  { rewrite <- (ascii_nat_embedding a), <- (ascii_nat_embedding b).
    f_equal. lia. }
  apply IH. congruence.
Qed.

(** Two different comparable values are ordered one way or the other. *)
Lemma comparable_ordered to_number x y :
  comparable x y -> x <> y ->
  JS.lt to_number x y = true \/ JS.gt to_number x y = true.
Proof.
  unfold JS.gt.
  destruct x as [| |p|[| |a|]|s], y as [| |q|[| |b|]|t]; simpl; try done.
  - intros _ Hne. rewrite !Z.ltb_lt.
    destruct (Z.lt_trichotomy a b) as [?|[->|?]]; [by left|done|by right].
  - intros _ Hne. apply string_lt_total. congruence.
Qed.

Lemma string_lt_transitive s : forall t u,
  JS.string_lt s t = true -> JS.string_lt t u = true -> JS.string_lt s u = true.
Proof.
  induction s as [|a s IH]; intros [|b t] [|c u]; simpl; try done.
  destruct (Nat.ltb_spec (nat_of_ascii a) (nat_of_ascii b)),
           (Nat.ltb_spec (nat_of_ascii b) (nat_of_ascii a)),
           (Nat.ltb_spec (nat_of_ascii b) (nat_of_ascii c)),
           (Nat.ltb_spec (nat_of_ascii c) (nat_of_ascii b)),
           (Nat.ltb_spec (nat_of_ascii a) (nat_of_ascii c)),
           (Nat.ltb_spec (nat_of_ascii c) (nat_of_ascii a));
    try done; try lia.
  apply IH.
Qed.

(** The first key of the comparator *)
Lemma compare_rows_head_equal to_number o rest a b :
  JS.get a (column o) = JS.get b (column o) ->
  compare_rows to_number (o :: rest) a b = compare_rows to_number rest a b.
Proof.
  intros Heq. simpl. unfold JS.gt. by rewrite Heq, lt_irreflexive.
Qed.

Lemma compare_rows_head_less to_number o rest a b :
  JS.lt to_number (JS.get a (column o)) (JS.get b (column o)) = true ->
  compare_rows to_number (o :: rest) a b = decided (dir o) true.
Proof. intros Hlt. simpl. rewrite Hlt. by destruct (dir o). Qed.

Lemma compare_rows_head_greater to_number o rest a b :
  JS.lt to_number (JS.get b (column o)) (JS.get a (column o)) = true ->
  compare_rows to_number (o :: rest) a b = decided (dir o) false.
Proof.
  intros Hgt. simpl. unfold JS.gt.
  rewrite (lt_asymmetric _ _ _ Hgt), Hgt. by destruct (dir o).
Qed.

(** The comparator decides at the first key where one value is less than
    the other. *)
Lemma compare_rows_decided to_number pre o post a b :
  (forall o', o' ∈ pre ->
     unordered to_number (JS.get a (column o')) (JS.get b (column o'))) ->
  ~ unordered to_number (JS.get a (column o)) (JS.get b (column o)) ->
  compare_rows to_number (pre ++ o :: post)%list a b =
    decided (dir o)
      (JS.lt to_number (JS.get a (column o)) (JS.get b (column o))).
Proof.
  intros Hpre Ho. induction pre as [|o' pre IH].
  - simpl. unfold unordered in Ho.
    destruct (JS.lt to_number (JS.get a (column o)) (JS.get b (column o)));
      [by destruct (dir o)|].
    destruct (JS.gt to_number (JS.get a (column o)) (JS.get b (column o)));
      [by destruct (dir o)|].
    by destruct Ho.
  - destruct (Hpre o') as [Hlt Hgt]; [by left|].
    simpl. rewrite Hlt, Hgt. apply IH.
    intros o'' Ho''. apply Hpre. by right.
Qed.

Lemma compare_rows_undecided to_number keys a b :
  (forall o, o ∈ keys ->
     unordered to_number (JS.get a (column o)) (JS.get b (column o))) ->
  compare_rows to_number keys a b = 0.
Proof.
  intros Hkeys. induction keys as [|o keys IH]; simpl; [done|].
  destruct (Hkeys o) as [Hlt Hgt]; [by left|].
  rewrite Hlt, Hgt. apply IH. intros o' Ho'. apply Hkeys. by right.
Qed.

(** *** The comparator on uniform columns *)

Section Uniform.

Context (to_number : string -> JS.number) (rows : list JS.object).

(** On the values the rows hold at the key, [<] is a strict total order. *)
Let ordered_key (o : order) : Prop :=
  (forall a b, a ∈ rows -> b ∈ rows ->
     JS.get a (column o) <> JS.get b (column o) ->
     JS.lt to_number (JS.get a (column o)) (JS.get b (column o)) = true \/
     JS.lt to_number (JS.get b (column o)) (JS.get a (column o)) = true) /\
  (forall a b c, a ∈ rows -> b ∈ rows -> c ∈ rows ->
     JS.lt to_number (JS.get a (column o)) (JS.get b (column o)) = true ->
     JS.lt to_number (JS.get b (column o)) (JS.get c (column o)) = true ->
     JS.lt to_number (JS.get a (column o)) (JS.get c (column o)) = true).

Lemma uniform_ordered_key keys o :
  uniform keys rows -> o ∈ keys -> ordered_key o.
Proof.
  intros Huniform Ho. destruct (Huniform o Ho) as [Hint|Hstr]; split.
  - intros a b Ha Hb. destruct (Hint a Ha) as [x ->], (Hint b Hb) as [y ->].
    intros Hne. apply (comparable_ordered to_number); done.
  - intros a b c Ha Hb Hc.
    destruct (Hint a Ha) as [x ->], (Hint b Hb) as [y ->], (Hint c Hc) as [z ->].
    simpl. rewrite !Z.ltb_lt. lia.
  - intros a b Ha Hb. destruct (Hstr a Ha) as [x ->], (Hstr b Hb) as [y ->].
    intros Hne. apply (comparable_ordered to_number); done.
  - intros a b c Ha Hb Hc.
    destruct (Hstr a Ha) as [x ->], (Hstr b Hb) as [y ->], (Hstr c Hc) as [z ->].
    simpl. apply string_lt_transitive.
Qed.

Lemma compare_rows_zero keys a b :
  (forall o, o ∈ keys -> ordered_key o) -> a ∈ rows -> b ∈ rows ->
  compare_rows to_number keys a b = 0 ->
  forall o, o ∈ keys -> JS.get a (column o) = JS.get b (column o).
Proof.
  intros Hkeys Ha Hb. induction keys as [|o keys IH]; intros Hzero o' Ho'.
  { by apply elem_of_nil in Ho'. }
  assert (Hhead : JS.get a (column o) = JS.get b (column o)).
  { destruct (decide (JS.get a (column o) = JS.get b (column o))) as [|Hne];
      [done|exfalso].
    destruct (Hkeys o) as [Htotal _]; [by left|].
    destruct (Htotal a b Ha Hb Hne) as [Hlt|Hgt].
    - rewrite (compare_rows_head_less _ _ _ _ _ Hlt) in Hzero.
      by destruct (dir o).
    - rewrite (compare_rows_head_greater _ _ _ _ _ Hgt) in Hzero.
      by destruct (dir o). }
  apply elem_of_cons in Ho' as [->|Ho']; [done|].
  rewrite (compare_rows_head_equal _ _ _ _ _ Hhead) in Hzero.
  apply IH; [|done..]. intros o'' Ho''. apply Hkeys. by right.
Qed.

(** Rows with the same value at the first key are decided alike against a
    third row that differs from them there. *)
Lemma compare_rows_head_differs o rest a b c :
  ordered_key o -> b ∈ rows -> c ∈ rows ->
  JS.get a (column o) = JS.get b (column o) ->
  JS.get b (column o) <> JS.get c (column o) ->
  compare_rows to_number (o :: rest) a c = compare_rows to_number (o :: rest) b c /\
  compare_rows to_number (o :: rest) c a = compare_rows to_number (o :: rest) c b.
Proof.
  intros [Htotal _] Hb Hc Heq Hne.
  destruct (Htotal b c Hb Hc Hne) as [Hlt|Hgt].
  - rewrite (compare_rows_head_less _ _ _ b c Hlt).
    rewrite (compare_rows_head_greater _ _ _ c b Hlt).
    rewrite <- Heq in Hlt.
    by rewrite (compare_rows_head_less _ _ _ a c Hlt),
               (compare_rows_head_greater _ _ _ c a Hlt).
  - rewrite (compare_rows_head_greater _ _ _ b c Hgt).
    rewrite (compare_rows_head_less _ _ _ c b Hgt).
    rewrite <- Heq in Hgt.
    by rewrite (compare_rows_head_greater _ _ _ a c Hgt),
               (compare_rows_head_less _ _ _ c a Hgt).
Qed.

Lemma compare_rows_less_transitive keys a b c :
  (forall o, o ∈ keys -> ordered_key o) ->
  a ∈ rows -> b ∈ rows -> c ∈ rows ->
  compare_rows to_number keys a b < 0 ->
  compare_rows to_number keys b c < 0 ->
  compare_rows to_number keys a c < 0.
Proof.
  intros Hkeys Ha Hb Hc.
  induction keys as [|o keys IH]; [simpl; lia|].
  assert (Ho : ordered_key o) by (apply Hkeys; by left).
  assert (Hrest : forall o', o' ∈ keys -> ordered_key o')
    by (intros o' Ho'; apply Hkeys; by right).
  intros Hab Hbc.
  destruct (decide (JS.get a (column o) = JS.get b (column o))) as [Exy|Nxy].
  - destruct (decide (JS.get b (column o) = JS.get c (column o))) as [Eyz|Nyz].
    + rewrite compare_rows_head_equal in Hab, Hbc |- * by congruence.
      by apply IH.
    + destruct (compare_rows_head_differs o keys a b c Ho Hb Hc Exy Nyz)
        as [-> _]. done.
  - destruct (decide (JS.get b (column o) = JS.get c (column o))) as [Eyz|Nyz].
    + destruct (compare_rows_head_differs o keys c b a Ho Hb Ha
                  (eq_sym Eyz) (not_eq_sym Nxy)) as [_ ->]. done.
    + destruct Ho as [Htotal Htrans].
      destruct (Htotal a b Ha Hb Nxy) as [Hlt1|Hgt1];
        destruct (Htotal b c Hb Hc Nyz) as [Hlt2|Hgt2].
      * rewrite (compare_rows_head_less _ _ _ _ _ (Htrans a b c Ha Hb Hc Hlt1 Hlt2)).
        by rewrite (compare_rows_head_less _ _ _ _ _ Hlt1) in Hab.
      * rewrite (compare_rows_head_less _ _ _ _ _ Hlt1) in Hab.
        rewrite (compare_rows_head_greater _ _ _ _ _ Hgt2) in Hbc.
        destruct (dir o); simpl in *; lia.
      * rewrite (compare_rows_head_greater _ _ _ _ _ Hgt1) in Hab.
        rewrite (compare_rows_head_less _ _ _ _ _ Hlt2) in Hbc.
        destruct (dir o); simpl in *; lia.
      * rewrite (compare_rows_head_greater _ _ _ _ _
                   (Htrans c b a Hc Hb Ha Hgt2 Hgt1)).
        by rewrite (compare_rows_head_greater _ _ _ _ _ Hgt1) in Hab.
Qed.

(** On uniform columns the comparator is consistent. *)
Lemma compare_rows_consistent keys :
  uniform keys rows -> consistent (compare_rows to_number keys) rows.
Proof.
  intros Huniform.
  assert (Hkeys : forall o, o ∈ keys -> ordered_key o)
    by (intros o Ho; by apply (uniform_ordered_key keys)).
  repeat split.
  - intros a _. apply compare_rows_undecided. intros o _.
    split; unfold JS.gt; apply lt_irreflexive.
  - intros a b _ _ Hab. rewrite compare_rows_antisymmetric. lia.
  - intros a b c Ha Hb Hc Hab Hbc.
    pose proof (compare_rows_zero keys a b Hkeys Ha Hb Hab) as Eab.
    pose proof (compare_rows_zero keys b c Hkeys Hb Hc Hbc) as Ebc.
    apply compare_rows_undecided. intros o Ho.
    rewrite (Eab o Ho), (Ebc o Ho).
    split; unfold JS.gt; apply lt_irreflexive.
  - intros a b c Ha Hb Hc. by apply compare_rows_less_transitive.
  - intros a b c Ha Hb Hc Hab Hbc.
    rewrite (compare_rows_antisymmetric _ _ c a).
    assert (compare_rows to_number keys c a < 0); [|lia].
    apply (compare_rows_less_transitive keys c b a); try done.
    + rewrite compare_rows_antisymmetric. lia.
    + rewrite compare_rows_antisymmetric. lia.
Qed.

End Uniform.

(** The rows a conforming engine returns for [orderBy]. *)
Lemma select_ordered schema tableName keys table w :
  getTable schema tableName w = Some table ->
  conforming (runtime w) ->
  let cmp := compare_rows (StringToNumber (runtime w)) keys in
  exists rows,
    QueryResult.data (select schema tableName (order_by keys) w).1 = Some rows /\
    Permutation rows (Table.rows table) /\
    (consistent cmp (Table.rows table) ->
     StronglySorted (fun a b => cmp a b <= 0) rows).
Proof.
  intros Hget Hconf cmp.
  rewrite (select_found _ _ _ _ _ Hget). simpl.
  eexists. split; [reflexivity|].
  unfold apply_limit, apply_offset, apply_orderBy, apply_where; simpl.
  destruct (Hconf cmp (Table.rows table)) as [Hperm Hsorted].
  split; [done|]. intros Hcons.
  apply (StronglySorted_weaken (fun a b => ~ cmp b a < 0)); [|by apply Hsorted].
  intros a b _ _ Hba. unfold cmp in *.
  rewrite compare_rows_antisymmetric in Hba. lia.
Qed.

(** The rows returned when the comparator leaves no two different rows
    tied: those of the insertion sort. *)
Lemma select_ordered_unique schema tableName keys table w :
  getTable schema tableName w = Some table ->
  conforming (runtime w) ->
  let cmp := compare_rows (StringToNumber (runtime w)) keys in
  consistent cmp (Table.rows table) ->
  (forall a b, a ∈ Table.rows table -> b ∈ Table.rows table ->
     cmp a b = 0 -> a = b) ->
  QueryResult.data (select schema tableName (order_by keys) w).1
    = Some (JS.insertion_sort cmp (Table.rows table)).
Proof.
  intros Hget Hconf cmp Hcons Hties.
  destruct (select_ordered schema tableName keys table w Hget Hconf)
    as (rows & -> & Hperm & Hsorted).
  f_equal.
  apply (strongly_sorted_unique (fun a b => cmp a b <= 0)).
  - intros a b Ha Hb Hab Hba. rewrite Hperm in Ha, Hb.
    apply Hties; [done..|].
    unfold cmp in *. rewrite compare_rows_antisymmetric in Hba. lia.
  - by apply Hsorted.
  - by apply (sort_strongly cmp (Table.rows table) Hcons).
  - by rewrite Hperm, sort_permutation.
Qed.

Lemma x_rows_uniform d :
  uniform [ {| column := "x"; dir := d |} ] x_rows.
Proof.
  intros o Ho. apply list_elem_of_singleton in Ho as ->. left.
  intros r Hr. unfold x_rows in Hr.
  repeat (apply elem_of_cons in Hr as [->|Hr]); [by eexists..|].
  by apply elem_of_nil in Hr.
Qed.

Lemma x_rows_no_ties to_number d a b :
  a ∈ x_rows -> b ∈ x_rows ->
  compare_rows to_number [ {| column := "x"; dir := d |} ] a b = 0 -> a = b.
Proof.
  unfold x_rows. intros Ha Hb.
  repeat (apply elem_of_cons in Ha as [->|Ha]);
    try (by apply elem_of_nil in Ha);
    repeat (apply elem_of_cons in Hb as [->|Hb]);
    try (by apply elem_of_nil in Hb);
    try done; by destruct d.
Qed.

(** C4 (amended).  On an existing table and a conforming engine, [select]
    with [orderBy], for ordering columns whose names no object inherits,
    returns the rows rearranged; when the comparator is
    consistent on the rows, as it is when every ordering column holds
    integers only or strings only, no row comes after a row it precedes
    under the comparator.  The comparator goes through the ordering keys in
    sequence and decides at the first key where one value is less than the
    other, by the direction of that key; keys where the two values are
    equal or not ordered are skipped.  Values are ordered as the language
    orders them: integers by size, strings by their characters, [null]
    and booleans as the numbers 0 and 1, a text against a number as its
    conversion, a missing value with nothing.  On rows with [x] equal to 3,
    1, 2 ordering by [x] returns 1, 2, 3 for ASC and 3, 2, 1 for DESC. *)
Theorem select_orders_by_first_decided_key schema tableName keys table w :
  getTable schema tableName w = Some table ->
  conforming (runtime w) ->
  Forall (fun o => JS.inherited (column o) = false) keys ->
  let to_number := StringToNumber (runtime w) in
  let cmp := compare_rows to_number in
  (exists rows,
     QueryResult.data (select schema tableName (order_by keys) w).1 = Some rows /\
     Permutation rows (Table.rows table) /\
     (consistent (cmp keys) (Table.rows table) ->
      StronglySorted (fun a b => cmp keys a b <= 0) rows)) /\
  (uniform keys (Table.rows table) -> consistent (cmp keys) (Table.rows table)) /\
  (forall pre o post a b,
     keys = (pre ++ o :: post)%list ->
     (forall o', o' ∈ pre ->
        unordered to_number (JS.get a (column o')) (JS.get b (column o'))) ->
     ~ unordered to_number (JS.get a (column o)) (JS.get b (column o)) ->
     cmp keys a b =
       decided (dir o)
         (JS.lt to_number (JS.get a (column o)) (JS.get b (column o)))) /\
  (forall a b,
     (forall o, o ∈ keys ->
        unordered to_number (JS.get a (column o)) (JS.get b (column o))) ->
     cmp keys a b = 0) /\
  (forall y z, JS.lt to_number (int y) (int z) = (y <? z)) /\
  (forall s t, JS.lt to_number (JS.VString s) (JS.VString t) = JS.string_lt s t) /\
  (forall z, JS.lt to_number JS.VNull (int z) = (0 <? z) /\
             JS.lt to_number (int z) JS.VNull = (z <? 0)) /\
  (forall (p : bool) z,
     JS.lt to_number (JS.VBool p) (int z) = ((if p then 1 else 0) <? z) /\
     JS.lt to_number (int z) (JS.VBool p) = (z <? (if p then 1 else 0))) /\
  (forall s z,
     JS.lt to_number (JS.VString s) (int z)
       = JS.number_lt (to_number s) (JS.Num z) /\
     JS.lt to_number (int z) (JS.VString s)
       = JS.number_lt (JS.Num z) (to_number s)) /\
  (forall v, unordered to_number JS.VUndefined v) /\
  (Table.rows table = x_rows ->
   QueryResult.data
     (select schema tableName
        (order_by [ {| column := "x"; dir := ASC |} ]) w).1
     = Some [ {[ "x" := int 1 ]}; {[ "x" := int 2 ]}; {[ "x" := int 3 ]} ] /\
   QueryResult.data
     (select schema tableName
        (order_by [ {| column := "x"; dir := DESC |} ]) w).1
     = Some [ {[ "x" := int 3 ]}; {[ "x" := int 2 ]}; {[ "x" := int 1 ]} ]).
Proof.
  intros Hget Hconf _ to_number cmp.
  split; [by apply select_ordered|].
  split; [apply compare_rows_consistent|].
  split; [intros pre o post a b ->; apply compare_rows_decided|].
  split; [apply compare_rows_undecided|].
  split; [done|]. split; [done|]. split; [done|].
  split; [by intros [] z|]. split; [done|].
  split.
  { intros v. split; unfold JS.gt, JS.lt; simpl; [done|].
    destruct v as [| |[]|[]|s]; simpl; try done.
    match goal with |- JS.number_lt ?x _ = _ => by destruct x end. }
  intros Hrows.
  split.
  - rewrite (select_ordered_unique _ _ _ _ _ Hget Hconf).
    + rewrite Hrows. vm_compute. reflexivity.
    + rewrite Hrows. apply compare_rows_consistent, x_rows_uniform.
    + rewrite Hrows. apply x_rows_no_ties.
  - rewrite (select_ordered_unique _ _ _ _ _ Hget Hconf).
    + rewrite Hrows. vm_compute. reflexivity.
    + rewrite Hrows. apply compare_rows_consistent, x_rows_uniform.
    + rewrite Hrows. apply x_rows_no_ties.
Qed.

(** ** executeSQL *)

Lemma createTable_fresh schema table w :
  getTable schema (Table.name table) w = None ->
  JS.inherited (Table.name table) = false ->
  createTable schema table w =
    (true,
     let db := <[schema := <[Table.name table := table]>
                             (default ∅ (database w !! schema))]> (database w) in
     {| runtime := runtime w; tick := tick w; database := db;
        localStorage := Some (JSON.roundtrip db);
        setItems := S (setItems w) |}).
Proof.
  unfold getTable, createTable, ensure_schema, lookup. intros Hget Hname.
  unfold bind, read, setTable, saveDatabase, ret.
  destruct (database w !! schema) as [tables|] eqn:E; simpl.
  - rewrite E, Hget, Hname. simpl. by rewrite E.
  - rewrite lookup_insert_eq, lookup_empty, Hname. simpl.
    rewrite lookup_insert_eq. simpl. by rewrite insert_insert_eq.
Qed.

Lemma createTable_clock schema table w :
  tick (createTable schema table w).2 = tick w /\
  runtime (createTable schema table w).2 = runtime w.
Proof.
  unfold createTable, ensure_schema, bind, read, ret.
  destruct (database w !! schema); simpl;
    by destruct (lookup schema (Table.name table) _).
Qed.

(** What [executeSQL] does with a statement its CREATE TABLE branch
    accepts. *)
Lemma executeSQL_create_table sql m w :
  JS.startsWith (JS.toUpperCase (JS.trim sql)) "CREATE TABLE" = true ->
  JS.string_match true create_table_pattern sql = Some m ->
  let rt := runtime w in
  let table :=
    {| Table.id := randomUUID rt (S (tick w));
       Table.name := tableName_of m; Table.schema := schema_of m;
       Table.columns := parse_column <$> JS.split "," (group_text (JS.group m 3));
       Table.rows := []; Table.indexes := []; Table.policies := [];
       Table.createdAt := toISOString rt (S (S (tick w)));
       Table.updatedAt := toISOString rt (S (S (S (tick w)))) |} in
  let w1 := (createTable (schema_of m) table
               (with_tick w (S (S (S (S (tick w))))))).2 in
  executeSQL sql w =
    (Some {| QueryResult.success := true; QueryResult.data := Some [];
             QueryResult.error := None; QueryResult.rowsAffected := Some 0;
             QueryResult.executionTime :=
               Some (performance_now (runtime w1) (tick w1)
                     - performance_now rt (tick w)) |},
     with_tick w1 (S (tick w1))).
Proof.
  intros Hstart Hmatch. cbv zeta.
  unfold executeSQL, create_table_block, bind, performance_now_, draw.
  rewrite Hstart, Hmatch.
  unfold bind, crypto_randomUUID, Date_now_toISOString, performance_now_, draw, ret.
  cbn [runtime tick with_tick].
  destruct (createTable _ _ _) as [created w1]. reflexivity.
Qed.

Lemma create_foo_recognised :
  JS.startsWith (JS.toUpperCase (JS.trim create_foo)) "CREATE TABLE" = true /\
  exists m,
    JS.string_match true create_table_pattern create_foo = Some m /\
    schema_of m = "public" /\ tableName_of m = "foo" /\
    parse_column <$> JS.split "," (group_text (JS.group m 3))
      = [foo_id; foo_name].
Proof.
  split; [vm_compute; reflexivity|].
  eexists. split; [vm_compute; reflexivity|].
  repeat split; vm_compute; reflexivity.
Qed.

(** C7.  On a database without a table [foo] in schema [public],
    [executeSQL] of the CREATE TABLE statement [create_foo] returns success
    with no rows affected and creates the table [public.foo] with exactly
    the columns [id] (type UUID, primary, nullable because its definition
    does not contain NOT NULL) and [name] (type VARCHAR, not nullable). *)
Theorem executeSQL_create_foo w :
  getTable "public" "foo" w = None ->
  exists result table,
    (executeSQL create_foo w).1 = Some result /\
    QueryResult.success result = true /\
    QueryResult.rowsAffected result = Some 0 /\
    getTable "public" "foo" (executeSQL create_foo w).2 = Some table /\
    Table.name table = "foo" /\ Table.schema table = "public" /\
    Table.rows table = [] /\
    Table.columns table = [foo_id; foo_name] /\
    Column.type foo_id = "UUID" /\ Column.primary foo_id = Some true /\
    Column.nullable foo_id = true /\
    Column.type foo_name = "VARCHAR" /\ Column.nullable foo_name = false.
Proof.
  intros Hget.
  destruct create_foo_recognised as [Hstart [m (Hmatch & Hschema & Hname & Hcols)]].
  rewrite (executeSQL_create_table create_foo m w Hstart Hmatch).
  cbv zeta. rewrite Hschema, Hname, Hcols.
  rewrite createTable_fresh by (simpl; by rewrite ?getTable_with_tick).
  simpl. eexists _, _. split; [reflexivity|].
  split; [done|]. split; [done|]. split.
  { unfold getTable; simpl. rewrite lookup_insert_eq. apply lookup_insert_eq. }
  by repeat split.
Qed.

Lemma starts_with_create_not_select s :
  JS.startsWith s "CREATE TABLE" = true -> JS.startsWith s "SELECT" = false.
Proof.
  unfold JS.startsWith. destruct s as [|c s]; [done|].
  cbn [String.prefix].
  destruct (ascii_dec "C" c) as [<-|]; [|done]. intros _.
  by destruct (ascii_dec "S" "C").
Qed.

Lemma starts_with_select_not_create s :
  JS.startsWith s "SELECT" = true -> JS.startsWith s "CREATE TABLE" = false.
Proof.
  intros Hselect.
  destruct (JS.startsWith s "CREATE TABLE") eqn:Hcreate; [|done].
  by rewrite (starts_with_create_not_select _ Hcreate) in Hselect.
Qed.

(** C8 (amended).  [executeSQL] always returns a result; for a statement
    whose keyword is recognised (CREATE TABLE or SELECT) and whose pattern
    does not match, the result is the failure "SQL parsing not fully
    implemented for this query", and the database is left as it was. *)
Theorem executeSQL_malformed_statement sql w :
  is_Some (executeSQL sql w).1 /\
  (malformed sql ->
   executeSQL sql w = (Some not_implemented, with_tick w (S (tick w)))).
Proof.
  split.
  - unfold executeSQL, bind, performance_now_, draw.
    destruct (create_table_block _ _ _ _) as [[r|] w1]; [by eexists|].
    destruct (select_block _ _ _) as [[r|] w2]; by eexists.
  - intros [[Hstart Hmatch]|[Hstart Hmatch]].
    + unfold executeSQL, create_table_block, select_block, bind,
        performance_now_, draw.
      by rewrite Hstart, Hmatch, (starts_with_create_not_select _ Hstart).
    + unfold executeSQL, create_table_block, select_block, bind,
        performance_now_, draw.
      by rewrite Hstart, Hmatch, (starts_with_select_not_create _ Hstart).
Qed.

(** * Instances and counterexamples *)

(** Witness of C6: no row of [t_x] has [x = 9]. *)
Lemma update_without_match_witness :
  QueryResult.rowsAffected
    (update "public" "t" {[ "x" := int 9 ]} {[ "x" := int 0 ]} w_x).1 = Some 0 /\
  getTable "public" "t"
    (update "public" "t" {[ "x" := int 9 ]} {[ "x" := int 0 ]} w_x).2 = Some t_x /\
  setItems (update "public" "t" {[ "x" := int 9 ]} {[ "x" := int 0 ]} w_x).2
    = setItems w_x.
Proof.
  destruct (update_without_match_changes_nothing "public" "t"
              {[ "x" := int 9 ]} {[ "x" := int 0 ]} t_x w_x)
    as (_ & _ & Hcount & _ & Htable & _ & Hwrites).
  - vm_compute; reflexivity.
  - repeat constructor.
  - repeat split; assumption.
Defined.


(** Witness of C2: the first key of the empty table is 1, and after the
    keys 1 and 5 the next one is 6. *)
Lemma insert_auto_increment_witness :
  (exists row,
     QueryResult.data
       (insert "public" "t" {[ "name" := JS.VString "cy" ]}
          (world_with t_serial_empty)).1 = Some [row] /\
     JS.get row "id" = int 1) /\
  (exists row,
     QueryResult.data
       (insert "public" "t" {[ "name" := JS.VString "cy" ]}
          (world_with t_serial)).1 = Some [row] /\
     JS.get row "id" = int 6).
Proof.
  split.
  - destruct (insert_auto_increment "public" "t"
                {[ "name" := JS.VString "cy" ]} t_serial_empty
                [] (serial_column "id") [plain_column "name" "TEXT"]
                (world_with t_serial_empty))
      as (row & table' & Hdata & _ & _ & Hfirst & _).
    + vm_compute; reflexivity.
    + reflexivity.
    + apply (bool_decide_unpack _). vm_compute. exact I.
    + reflexivity.
    + reflexivity.
    + reflexivity.
    + vm_compute; reflexivity.
    + exists row. split; [exact Hdata|]. apply Hfirst. reflexivity.
  - destruct (insert_auto_increment "public" "t"
                {[ "name" := JS.VString "cy" ]} t_serial
                [] (serial_column "id") [plain_column "name" "TEXT"]
                (world_with t_serial))
      as (row & table' & Hdata & _ & _ & _ & Hnext).
    + vm_compute; reflexivity.
    + reflexivity.
    + apply (bool_decide_unpack _). vm_compute. exact I.
    + reflexivity.
    + reflexivity.
    + reflexivity.
    + vm_compute; reflexivity.
    + destruct (Hnext ltac:(discriminate)) as [_ Hmax].
      destruct Hmax as (m & Hm & Hall & _ & Hrow).
      * apply (bool_decide_unpack _). vm_compute. exact I.
      * exists row. split; [exact Hdata|].
        apply (Hrow 5); [|vm_compute; split; [discriminate|reflexivity]].
        change (m ∈ [JS.Num 1; JS.Num 5]) in Hm.
        apply elem_of_cons in Hm as [->|Hm];
          [|by apply list_elem_of_singleton in Hm].
        destruct (Hall (JS.Num 5)) as [Heq|Hlt];
          [apply list_elem_of_further, list_elem_of_here|done..].
Defined.

(** Two inserts in a row into the empty table: the keys are 1 and 2. *)
Lemma insert_twice_counts :
  let w1 := (insert "public" "t" {[ "name" := JS.VString "ann" ]}
               (world_with t_serial_empty)).2 in
  let w2 := (insert "public" "t" {[ "name" := JS.VString "bob" ]} w1).2 in
  Table.rows <$> getTable "public" "t" w2 =
    Some [ {[ "id" := int 1; "name" := JS.VString "ann" ]};
           {[ "id" := int 2; "name" := JS.VString "bob" ]} ].
Proof. vm_compute. reflexivity. Qed.

(** Counterexample to C2.  A table whose only row holds [2^53]: one plus
    the maximum is [2^53 + 1], which is not a double, and [insert] stores
    [2^53] again.  A table with two columns named [id], the first of them
    auto-increment: the second column resolves to [null], which replaces
    the 1 of the first. *)
Lemma insert_repeats_the_key_beyond_two_to_53 :
  (exists row,
     Table.rows t_serial_big
       = [ {[ "id" := int (2 ^ 53); "name" := JS.VString "ann" ]} ] /\
     QueryResult.data
       (insert "public" "t" {[ "name" := JS.VString "cy" ]}
          (world_with t_serial_big)).1 = Some [row] /\
     JS.get row "id" = int (2 ^ 53) /\
     JS.get row "id" <> int (2 ^ 53 + 1)) /\
  (exists row,
     Table.rows t_twice = [] /\
     Column.name <$> Table.columns t_twice = ["id"; "id"] /\
     QueryResult.data (insert "public" "t" ∅ (world_with t_twice)).1
       = Some [row] /\
     JS.get row "id" = JS.VNull /\
     JS.get row "id" <> int 1).
Proof.
  split.
  - eexists. split; [reflexivity|]. split; [vm_compute; reflexivity|].
    split; [vm_compute; reflexivity|]. vm_compute. discriminate.
  - eexists. split; [reflexivity|]. split; [reflexivity|].
    split; [vm_compute; reflexivity|].
    split; [vm_compute; reflexivity|]. vm_compute. discriminate.
Qed.

(** C1.  The failing input: a table whose one column has the default 0,
    and a [data] that gives it no value.  By the precedence the row should
    hold the default; [insert] tests the default for truth, passes it over
    and stores [null]. *)
Lemma insert_ignores_default_zero :
  Column.default zero_column = int 0 /\
  JS.get ∅ (Column.name zero_column) = JS.VUndefined /\
  exists row,
    QueryResult.data (insert "public" "t" ∅ (world_with t_zero)).1 = Some [row] /\
    row !! "n" = Some JS.VNull /\
    row !! "n" <> Some (Column.default zero_column).
Proof.
  split; [reflexivity|]. split; [reflexivity|].
  eexists. split; [vm_compute; reflexivity|].
  split; [vm_compute; reflexivity|].
  vm_compute. discriminate.
Qed.

(** C5.  The failing input: a column with the default 0 added to a table
    of three rows.  The rows should receive the default; [addColumn] writes
    [column.default || null], which is [null] for the default 0. *)
Lemma addColumn_ignores_default_zero :
  Column.default zero_column = int 0 /\
  exists table',
    getTable "public" "t" (addColumn "public" "t" zero_column w_x).2
      = Some table' /\
    Table.rows table' =
      [ {[ "x" := int 3; "n" := JS.VNull ]};
        {[ "x" := int 1; "n" := JS.VNull ]};
        {[ "x" := int 2; "n" := JS.VNull ]} ] /\
    forall row : JS.object, row ∈ Table.rows table' ->
      row !! "n" = Some JS.VNull /\ row !! "n" <> Some (Column.default zero_column).
Proof.
  split; [reflexivity|].
  eexists. split; [vm_compute; reflexivity|].
  split; [vm_compute; reflexivity|].
  intros row Hrow. cbn [Table.rows] in Hrow.
  repeat (apply elem_of_cons in Hrow as [->|Hrow];
          [split; [vm_compute; reflexivity|vm_compute; discriminate]|]).
  by apply elem_of_nil in Hrow.
Qed.

(** Witness of C9: with [limit = 0] every row of [t_x] comes back. *)
Lemma select_limit_zero_witness :
  QueryResult.data (select "public" "t" limit_zero w_x).1 = Some x_rows.
Proof.
  destruct (select_ignores_zero_limit_and_offset "public" "t" limit_zero w_x)
    as (_ & _ & Hrows).
  destruct (Hrows t_x) as [Hdata _].
  - vm_compute; reflexivity.
  - exact I.
  - exact Hdata.
Defined.

(** Counterexample to C3: with [limit = 0] the pipeline as specified keeps
    no row, and [select] returns the three rows of the table. *)
Lemma select_limit_zero_keeps_every_row :
  pipeline_as_specified (runtime w_x) limit_zero
    (Table.rows t_x) = [] /\
  QueryResult.data (select "public" "t" limit_zero w_x).1 = Some x_rows /\
  QueryResult.rowsAffected (select "public" "t" limit_zero w_x).1 = Some 3 /\
  QueryResult.data (select "public" "t" limit_zero w_x).1
    <> Some (pipeline_as_specified (runtime w_x) limit_zero
               (Table.rows t_x)).
Proof.
  split; [reflexivity|]. split; [vm_compute; reflexivity|].
  split; [vm_compute; reflexivity|].
  vm_compute. discriminate.
Qed.

(** Witness of C3: offset 1 and limit 1 on the three rows of [t_x]. *)
Lemma select_pipeline_witness :
  QueryResult.data (select "public" "t" (page 1 1) w_x).1
    = Some [ {[ "x" := int 1 ]} ] /\
  QueryResult.rowsAffected (select "public" "t" (page 1 1) w_x).1 = Some 1.
Proof.
  destruct (select_runs_the_pipeline "public" "t" (page 1 1) t_x w_x)
    as (_ & _ & _ & _ & _ & Hpage).
  - vm_compute; reflexivity.
  - simpl. lia.
  - simpl. lia.
  - apply (Hpage {[ "x" := int 3 ]} {[ "x" := int 1 ]} {[ "x" := int 2 ]});
      reflexivity.
Defined.

Lemma example_runtime_conforming : conforming example_runtime.
Proof. by apply insertion_sort_conforming. Qed.

(** Witness of C4: the rows of [t_x] ordered by [x]. *)
Lemma select_orders_witness :
  QueryResult.data
    (select "public" "t" (order_by [ {| column := "x"; dir := ASC |} ]) w_x).1
    = Some [ {[ "x" := int 1 ]}; {[ "x" := int 2 ]}; {[ "x" := int 3 ]} ] /\
  QueryResult.data
    (select "public" "t" (order_by [ {| column := "x"; dir := DESC |} ]) w_x).1
    = Some [ {[ "x" := int 3 ]}; {[ "x" := int 2 ]}; {[ "x" := int 1 ]} ] /\
  compare_rows (StringToNumber (runtime w_x))
    [ {| column := "x"; dir := ASC |} ] {[ "x" := int 3 ]} {[ "x" := int 1 ]} = 1.
Proof.
  destruct (select_orders_by_first_decided_key "public" "t"
              [ {| column := "x"; dir := ASC |} ] t_x w_x)
    as (_ & _ & Hcmp & _ & _ & _ & _ & _ & _ & _ & Hrows).
  - vm_compute; reflexivity.
  - exact example_runtime_conforming.
  - repeat constructor.
  - destruct (Hrows eq_refl) as [Hasc Hdesc].
    split; [exact Hasc|]. split; [exact Hdesc|].
    rewrite (Hcmp [] {| column := "x"; dir := ASC |} []
               {[ "x" := int 3 ]} {[ "x" := int 1 ]}).
    + vm_compute; reflexivity.
    + reflexivity.
    + intros o' Ho'. by apply elem_of_nil in Ho'.
    + vm_compute. intros [_ H]. discriminate H.
Defined.

(** Counterexample to C4.  The rows [{x: 1, y: 2}] and [{y: 1}] differ at
    the first key, [x], where the second row has no value.  The comparator
    does not decide there: it goes on to [y], so that the direction given
    for [y] alone settles the order of the two rows. *)
Lemma select_passes_over_a_missing_value :
  JS.get row_a "x" <> JS.get row_b "x" /\
  compare_rows (StringToNumber example_runtime) (by_x_then_y ASC) row_a row_b = 1 /\
  compare_rows (StringToNumber example_runtime) (by_x_then_y DESC) row_a row_b = -1 /\
  compare_rows (StringToNumber example_runtime)
    [ {| column := "x"; dir := ASC |} ] row_a row_b = 0 /\
  ~ decides_at_first_difference (compare_rows (StringToNumber example_runtime)) /\
  QueryResult.data
    (select "public" "t" (order_by (by_x_then_y ASC)) (world_with t_ab)).1
    = Some [row_b; row_a] /\
  QueryResult.data
    (select "public" "t" (order_by (by_x_then_y DESC)) (world_with t_ab)).1
    = Some [row_a; row_b].
Proof.
  split; [vm_compute; discriminate|].
  split; [vm_compute; reflexivity|]. split; [vm_compute; reflexivity|].
  split; [vm_compute; reflexivity|].
  split; [|split; vm_compute; reflexivity].
  intros Hclaim.
  destruct (Hclaim [] {| column := "x"; dir := ASC |}
              [ {| column := "y"; dir := ASC |} ] row_a row_b) as [_ Hsame].
  - intros o' Ho'. by apply elem_of_nil in Ho'.
  - vm_compute. discriminate.
  - vm_compute in Hsame. discriminate Hsame.
Qed.

(** Witness of C7: the freshly started engine has no table [foo]. *)
Lemma executeSQL_create_foo_witness :
  exists table,
    getTable "public" "foo" (executeSQL create_foo fresh_world).2 = Some table /\
    Table.columns table = [foo_id; foo_name].
Proof.
  destruct (executeSQL_create_foo fresh_world)
    as (result & table & _ & _ & _ & Htable & _ & _ & _ & Hcols & _).
  - vm_compute; reflexivity.
  - exists table. split; assumption.
Defined.

(** Counterexample to C8: CREATE TABLE without a column list is recognised
    by its keyword, not matched by the pattern, and [executeSQL] returns
    the "not implemented" failure for it. *)
Lemma executeSQL_malformed_returns_error :
  JS.startsWith (JS.toUpperCase (JS.trim "CREATE TABLE foo")) "CREATE TABLE" = true /\
  JS.string_match true create_table_pattern "CREATE TABLE foo" = None /\
  (executeSQL "CREATE TABLE foo" fresh_world).1 = Some not_implemented /\
  (executeSQL "CREATE TABLE foo" fresh_world).1 <> None.
Proof.
  split; [vm_compute; reflexivity|]. split; [vm_compute; reflexivity|].
  split; [vm_compute; reflexivity|]. vm_compute. discriminate.
Qed.

(** Witness of C8: a SELECT without FROM. *)
Lemma executeSQL_malformed_witness :
  (executeSQL "SELECT 1" fresh_world).1 = Some not_implemented.
Proof.
  destruct (executeSQL_malformed_statement "SELECT 1" fresh_world) as [_ Herror].
  rewrite Herror; [reflexivity|].
  right. split; vm_compute; reflexivity.
Defined.

(** * Further properties of the service *)

(** ** Tables: createTable, dropTable, getTables *)

Lemma getTable_setTable_other schema tableName t s' t' w :
  (s', t') <> (schema, tableName) ->
  getTable s' t' (setTable schema tableName t w).2 = getTable s' t' w.
Proof.
  intros Hne. unfold getTable, setTable; simpl.
  destruct (decide (s' = schema)) as [->|Hs].
  - rewrite lookup_insert_eq.
    rewrite lookup_insert_ne by congruence.
    by destruct (database w !! schema).
  - by rewrite lookup_insert_ne.
Qed.

Lemma lookup_found schema tableName t w :
  getTable schema tableName w = Some t -> lookup schema tableName w = Own t.
Proof.
  unfold getTable, lookup. destruct (database w !! schema); [|done].
  by intros ->.
Qed.

Lemma lookup_missing schema tableName w :
  getTable schema tableName w = None ->
  database w !! schema = None \/ JS.inherited tableName = false ->
  lookup schema tableName w = Missing.
Proof.
  unfold getTable, lookup. destruct (database w !! schema); [|done].
  intros -> [?| ->]; done.
Qed.

Lemma lookup_inherited schema tableName w :
  getTable schema tableName w = None ->
  is_Some (database w !! schema) -> JS.inherited tableName = true ->
  lookup schema tableName w = Inherited.
Proof.
  unfold getTable, lookup. intros Hget [tables E] Hname.
  rewrite E in *. by rewrite Hget, Hname.
Qed.

Lemma lookup_own schema tableName t w :
  lookup schema tableName w = Own t <-> getTable schema tableName w = Some t.
Proof.
  unfold getTable, lookup. destruct (database w !! schema) as [tables|].
  - destruct (tables !! tableName).
    + split; intros [=]; by subst.
    + by destruct (JS.inherited tableName).
  - done.
Qed.

Lemma lookup_with_tick schema tableName w n :
  lookup schema tableName (with_tick w n) = lookup schema tableName w.
Proof. done. Qed.

Lemma createTable_taken schema table old w :
  getTable schema (Table.name table) w = Some old ->
  createTable schema table w = (false, w).
Proof.
  intros Ht. unfold createTable, ensure_schema, bind, read, ret, lookup, getTable in *.
  destruct (database w !! schema) as [tables|] eqn:E; [|done].
  by rewrite E, Ht.
Qed.

(** A name that the schema object inherits is refused like a taken one;
    the schema has been created by then, and nothing is written. *)
Lemma createTable_inherited schema table w :
  getTable schema (Table.name table) w = None ->
  JS.inherited (Table.name table) = true ->
  createTable schema table w =
    (false,
     match database w !! schema with
     | Some _ => w
     | None => with_database w (<[schema := ∅]> (database w))
     end).
Proof.
  intros Hget Hname.
  unfold createTable, ensure_schema, bind, read, ret, lookup, getTable in *.
  destruct (database w !! schema) as [tables|] eqn:E; simpl.
  - by rewrite E, Hget, Hname.
  - by rewrite lookup_insert_eq, lookup_empty, Hname.
Qed.

(** X1.  [createTable] never overwrites.  On a name that is taken it
    returns false and leaves the world as it is.  On a name that every
    object inherits ([constructor], [toString], ...) it returns false as
    well and writes nothing, but a schema that did not exist has been
    created by then, so that the database is ahead of its snapshot.  On any
    other name it returns true, makes the table the one found at that name,
    leaves every other table as it was and writes the snapshot. *)
Theorem createTable_adds_or_refuses schema table w :
  regular schema w ->
  (is_Some (getTable schema (Table.name table) w) ->
   createTable schema table w = (false, w)) /\
  (getTable schema (Table.name table) w = None ->
   JS.inherited (Table.name table) = true ->
   (createTable schema table w).1 = false /\
   (forall s t, getTable s t (createTable schema table w).2 = getTable s t w) /\
   localStorage (createTable schema table w).2 = localStorage w /\
   setItems (createTable schema table w).2 = setItems w /\
   (is_Some (database w !! schema) -> (createTable schema table w).2 = w) /\
   (database w !! schema = None ->
    unsaved_schema schema w (createTable schema table w).2)) /\
  (getTable schema (Table.name table) w = None ->
   JS.inherited (Table.name table) = false ->
   (createTable schema table w).1 = true /\
   getTable schema (Table.name table) (createTable schema table w).2
     = Some table /\
   (forall s t, (s, t) <> (schema, Table.name table) ->
      getTable s t (createTable schema table w).2 = getTable s t w) /\
   synced (createTable schema table w).2 /\
   setItems (createTable schema table w).2 = S (setItems w)).
Proof.
  intros _. split; [|split].
  - intros [t Ht]. by apply (createTable_taken schema table t).
  - intros Hfree Hname. rewrite (createTable_inherited _ _ _ Hfree Hname).
    destruct (database w !! schema) as [tables|] eqn:E; simpl.
    + by repeat split.
    + split; [done|]. split; [|split; [done|split; [done|split]]].
      * intros s t. unfold getTable; simpl.
        destruct (decide (s = schema)) as [->|Hs].
        -- by rewrite lookup_insert_eq, E, lookup_empty.
        -- by rewrite lookup_insert_ne.
      * by intros [? [=]].
      * intros _. by repeat split.
  - intros Hfree Hname. rewrite (createTable_fresh _ _ _ Hfree Hname). simpl.
    split; [done|]. split; [|split; [|done]].
    + unfold getTable; simpl. rewrite lookup_insert_eq. apply lookup_insert_eq.
    + intros s t Hne.
      apply (getTable_setTable_other schema (Table.name table) table s t w Hne).
Qed.

Lemma dropTable_found schema tableName t w :
  getTable schema tableName w = Some t ->
  dropTable schema tableName w =
    (true,
     let db := <[schema := base.delete tableName
                             (default ∅ (database w !! schema))]> (database w) in
     {| runtime := runtime w; tick := tick w; database := db;
        localStorage := Some (JSON.roundtrip db);
        setItems := S (setItems w) |}).
Proof.
  intros Hget. unfold dropTable, bind, read.
  by rewrite (lookup_found _ _ _ _ Hget).
Qed.

Lemma dropTable_missing schema tableName w :
  getTable schema tableName w = None ->
  database w !! schema = None \/ JS.inherited tableName = false ->
  dropTable schema tableName w = (false, w).
Proof.
  intros Hget Hname. unfold dropTable, bind, read.
  by rewrite (lookup_missing _ _ _ Hget Hname).
Qed.

(** On a name the schema inherits there is nothing to delete, and the
    snapshot is written. *)
Lemma dropTable_inherited schema tableName tables w :
  database w !! schema = Some tables ->
  tables !! tableName = None ->
  JS.inherited tableName = true ->
  dropTable schema tableName w =
    (true,
     {| runtime := runtime w; tick := tick w; database := database w;
        localStorage := Some (JSON.roundtrip (database w));
        setItems := S (setItems w) |}).
Proof.
  intros E Hget Hname.
  unfold dropTable, bind, read.
  rewrite lookup_inherited; [|unfold getTable; by rewrite E|by eexists|done].
  unfold saveDatabase, ret; simpl. rewrite E. simpl.
  rewrite (delete_id tables tableName Hget).
  by rewrite (insert_id (database w) schema tables E).
Qed.

(** X2.  [dropTable] returns false on a table that does not exist and
    changes nothing; on an existing table it returns true, the table is no
    longer found, every other table is as before, the schema itself stays
    (even when it is left empty) and the snapshot is written.  On a name
    that an existing schema inherits ([constructor], [toString], ...) it
    returns true although there is no table to drop: the database is
    unchanged, and the snapshot is written. *)
Theorem dropTable_removes_one_table schema tableName w :
  regular schema w ->
  (getTable schema tableName w = None ->
   database w !! schema = None \/ JS.inherited tableName = false ->
   dropTable schema tableName w = (false, w)) /\
  (is_Some (getTable schema tableName w) ->
   (dropTable schema tableName w).1 = true /\
   getTable schema tableName (dropTable schema tableName w).2 = None /\
   (forall s t, (s, t) <> (schema, tableName) ->
      getTable s t (dropTable schema tableName w).2 = getTable s t w) /\
   is_Some (database (dropTable schema tableName w).2 !! schema) /\
   synced (dropTable schema tableName w).2) /\
  (getTable schema tableName w = None ->
   is_Some (database w !! schema) -> JS.inherited tableName = true ->
   (dropTable schema tableName w).1 = true /\
   database (dropTable schema tableName w).2 = database w /\
   synced (dropTable schema tableName w).2 /\
   setItems (dropTable schema tableName w).2 = S (setItems w)).
Proof.
  intros _. split; [|split].
  - apply dropTable_missing.
  - intros [t Ht]. rewrite (dropTable_found _ _ _ _ Ht). simpl.
    split; [done|]. split; [|split; [|split; [|done]]].
    + unfold getTable; simpl. rewrite lookup_insert_eq. apply lookup_delete_eq.
    + intros s t' Hne. unfold getTable in *; simpl.
      destruct (decide (s = schema)) as [->|Hs].
      * rewrite lookup_insert_eq.
        rewrite lookup_delete_ne by congruence.
        by destruct (database w !! schema).
      * by rewrite lookup_insert_ne.
    + rewrite lookup_insert_eq. by eexists.
  - intros Hget [tables E] Hname.
    unfold getTable in Hget. rewrite E in Hget.
    by rewrite (dropTable_inherited _ _ _ _ E Hget Hname).
Qed.

(** X3.  Creating a table under a free name and dropping it again restores
    the database when the schema was there before; when the schema was new,
    it stays behind as an empty schema. *)
Theorem createTable_dropTable_round_trip schema table w :
  regular schema w ->
  getTable schema (Table.name table) w = None ->
  JS.inherited (Table.name table) = false ->
  let w' := (dropTable schema (Table.name table)
               (createTable schema table w).2).2 in
  (createTable schema table w).1 = true /\
  (dropTable schema (Table.name table) (createTable schema table w).2).1 = true /\
  (is_Some (database w !! schema) -> database w' = database w) /\
  (database w !! schema = None -> database w' = <[schema := ∅]> (database w)).
Proof.
  intros _ Hfree Hname.
  assert (Hfound : getTable schema (Table.name table)
                     (createTable schema table w).2 = Some table).
  { rewrite (createTable_fresh _ _ _ Hfree Hname).
    unfold getTable; simpl. rewrite lookup_insert_eq. apply lookup_insert_eq. }
  assert (Hdb : database (dropTable schema (Table.name table)
                            (createTable schema table w).2).2
                = <[schema := default ∅ (database w !! schema)]> (database w)).
  { rewrite (dropTable_found _ _ _ _ Hfound).
    rewrite (createTable_fresh _ _ _ Hfree Hname).
    simpl. rewrite lookup_insert_eq. simpl.
    rewrite insert_insert_eq. f_equal.
    apply delete_insert_id.
    unfold getTable in Hfree.
    destruct (database w !! schema); [done|apply lookup_empty]. }
  cbv zeta. rewrite Hdb.
  split; [by rewrite (createTable_fresh _ _ _ Hfree Hname)|].
  split; [by rewrite (dropTable_found _ _ _ _ Hfound)|]. split.
  - intros [tables Htables]. rewrite Htables. simpl. by apply insert_id.
  - intros Hnone. by rewrite Hnone.
Qed.

(** X4.  [getTables] lists the tables the schema holds as its own members
    and is empty for a schema that does not exist; a member the schema
    inherits ([constructor], [toString], ...), which the lookup
    [database[schema]?.[tableName]] finds, is not listed.  The number of
    tables grows by one when [createTable] succeeds, stays as it is when
    [createTable] refuses, and shrinks by one when [dropTable] removes a
    table. *)
Theorem getTables_counts_tables schema w :
  regular schema w ->
  (database w !! schema = None -> getTables schema w = []) /\
  (forall table, table ∈ getTables schema w <->
     exists tableName, lookup schema tableName w = Own table) /\
  (forall table,
     List.length (getTables schema (createTable schema table w).2)
       = if (createTable schema table w).1
         then S (List.length (getTables schema w))
         else List.length (getTables schema w)) /\
  (forall table,
     (createTable schema table w).1 = true <->
     getTable schema (Table.name table) w = None /\
     JS.inherited (Table.name table) = false) /\
  (forall tableName, is_Some (getTable schema tableName w) ->
     S (List.length (getTables schema (dropTable schema tableName w).2))
       = List.length (getTables schema w)) /\
  (forall tableName, getTable schema tableName w = None ->
     getTables schema (dropTable schema tableName w).2 = getTables schema w).
Proof.
  intros _.
  assert (Hcases : forall table,
    (exists old, getTable schema (Table.name table) w = Some old) \/
    (getTable schema (Table.name table) w = None /\
     JS.inherited (Table.name table) = true) \/
    (getTable schema (Table.name table) w = None /\
     JS.inherited (Table.name table) = false)).
  { intros table. destruct (getTable schema (Table.name table) w) as [old|];
      [left; by eexists|right].
    destruct (JS.inherited (Table.name table)); [by left|by right]. }
  split; [|split; [|split; [|split; [|split]]]].
  - intros Hnone. unfold getTables. by rewrite Hnone.
  - intros table.
    assert (Hown : (exists tableName, lookup schema tableName w = Own table) <->
                   exists tableName, getTable schema tableName w = Some table).
    { split; intros [k Hk]; exists k; by apply lookup_own. }
    rewrite Hown. unfold getTables, getTable.
    destruct (database w !! schema) as [tables|].
    + rewrite list_elem_of_fmap. split.
      * intros [[k t] [-> Hin]]. exists k. by apply elem_of_map_to_list.
      * intros [k Hk]. exists (k, table). split; [done|].
        by apply elem_of_map_to_list.
    + split; [by intros ?%elem_of_nil|by intros [? ?]].
  - intros table.
    destruct (Hcases table) as [[old Hold]|[[Hfree Hname]|[Hfree Hname]]].
    + by rewrite (createTable_taken _ _ _ _ Hold).
    + rewrite (createTable_inherited _ _ _ Hfree Hname). simpl.
      unfold getTables. destruct (database w !! schema) eqn:E; simpl.
      * by rewrite E.
      * by rewrite lookup_insert_eq.
    + rewrite (createTable_fresh _ _ _ Hfree Hname).
      unfold getTables, getTable in *; simpl. rewrite lookup_insert_eq.
      destruct (database w !! schema) as [tables|]; simpl;
        rewrite ?length_fmap, ?length_map_to_list.
      * by apply map_size_insert_None.
      * by rewrite map_size_insert_None by apply lookup_empty.
  - intros table.
    destruct (Hcases table) as [[old Hold]|[[Hfree Hname]|[Hfree Hname]]].
    + rewrite (createTable_taken _ _ _ _ Hold), Hold. simpl.
      split; [done|by intros [? _]].
    + rewrite (createTable_inherited _ _ _ Hfree Hname), Hname. simpl.
      split; [done|by intros [_ ?]].
    + by rewrite (createTable_fresh _ _ _ Hfree Hname).
  - intros tableName [t Ht]. rewrite (dropTable_found _ _ _ _ Ht).
    unfold getTables, getTable in *; simpl. rewrite lookup_insert_eq.
    destruct (database w !! schema) as [tables|]; [|done]. simpl.
    rewrite !length_fmap, !length_map_to_list.
    rewrite map_size_delete, Ht. simpl.
    assert (size tables <> 0%nat); [|lia].
    intros Hz. apply map_size_empty_inv in Hz. subst tables. by rewrite lookup_empty in Ht.
  - intros tableName Hnone. unfold getTables.
    destruct (database w !! schema) as [tables|] eqn:E.
    + unfold getTable in Hnone. rewrite E in Hnone.
      destruct (JS.inherited tableName) eqn:Hname.
      * rewrite (dropTable_inherited _ _ _ _ E Hnone Hname). simpl. by rewrite E.
      * rewrite dropTable_missing; simpl; [by rewrite E| |by right].
        unfold getTable. by rewrite E.
    + rewrite dropTable_missing; simpl; [by rewrite E| |by left].
      unfold getTable. by rewrite E.
Qed.

(** ** What each operation does to its table *)

Ltac run_service :=
  unfold bind, read, ret, draw, performance_now_, Date_now_toISOString,
    crypto_randomUUID, saveDatabase, setTable; simpl;
  rewrite ?getTable_with_tick.

Lemma same_elsewhere_write schema tableName t w w' :
  database w' =
    <[schema := <[tableName := t]> (default ∅ (database w !! schema))]>
      (database w) ->
  getTable schema tableName w' = Some t /\ same_elsewhere schema tableName w w'.
Proof.
  intros Hdb. split.
  - unfold getTable. rewrite Hdb, lookup_insert_eq. apply lookup_insert_eq.
  - intros s t' Hne.
    pose proof (getTable_setTable_other schema tableName t s t' w Hne) as H.
    unfold getTable, setTable in *; simpl in *. by rewrite Hdb.
Qed.


Lemma setTable_twice schema tableName t1 t2 (d : Database) :
  <[schema := <[tableName := t2]>
     (default ∅ (<[schema := <[tableName := t1]> (default ∅ (d !! schema))]> d
                 !! schema))]>
    (<[schema := <[tableName := t1]> (default ∅ (d !! schema))]> d)
  = <[schema := <[tableName := t2]> (default ∅ (d !! schema))]> d.
Proof.
  rewrite lookup_insert_eq. simpl.
  by rewrite insert_insert_eq, insert_insert_eq.
Qed.

Lemma setTable_unchanged schema tableName t (d : Database) :
  (match d !! schema with Some tables => tables !! tableName | None => None end)
    = Some t ->
  <[schema := <[tableName := t]> (default ∅ (d !! schema))]> d = d.
Proof.
  intros H. destruct (d !! schema) as [tables|] eqn:E; [|done].
  simpl. rewrite (insert_id tables tableName t H). by apply insert_id.
Qed.

Lemma update_effect schema tableName where_ data table w :
  getTable schema tableName w = Some table ->
  let rows := (update_rows where_ data (Table.rows table)).1 in
  let n := (update_rows where_ data (Table.rows table)).2 in
  let w' := (update schema tableName where_ data w).2 in
  QueryResult.rowsAffected (update schema tableName where_ data w).1 = Some n /\
  (n = 0 -> database w' = database w /\ localStorage w' = localStorage w) /\
  (0 < n ->
   exists now,
     database w' =
       <[schema := <[tableName := set_updatedAt (set_rows table rows) now]>
                     (default ∅ (database w !! schema))]> (database w) /\
     synced w').
Proof.
  intros Hget. cbv zeta.
  unfold update. run_service. rewrite Hget.
  pose proof (update_rows_count_nonneg where_ data (Table.rows table)) as Hnn.
  destruct (update_rows where_ data (Table.rows table)) as [rows n] eqn:E.
  simpl in *. destruct (Z.ltb_spec 0 n) as [Hpos|Hzero]; simpl.
  - split; [done|]. split; [lia|]. intros _.
    exists (toISOString (runtime w) (S (tick w))).
    unfold synced; simpl. by rewrite !setTable_twice.
  - split; [done|]. split; [|lia]. intros ->. split; [|done].
    assert (rows = Table.rows table) as ->.
    { clear -E. revert rows E.
      induction (Table.rows table) as [|r rest IH]; intros rows E; simpl in E.
      - by injection E as <-.
      - pose proof (update_rows_count_nonneg where_ data rest) as Hnn.
        destruct (update_rows where_ data rest) as [rest' m]; simpl in *.
        destruct (matches where_ r); injection E as <- Hm; [lia|].
        subst m. by rewrite (IH rest' eq_refl). }
    rewrite set_rows_same. apply setTable_unchanged. exact Hget.
Qed.

Lemma filter_length_le {A} (p : A -> bool) l :
  (List.length (List.filter p l) <= List.length l)%nat.
Proof. induction l as [|x l IH]; simpl; [lia|]. destruct (p x); simpl; lia. Qed.

Lemma filter_same_length {A} (p : A -> bool) l :
  List.length (List.filter p l) = List.length l -> List.filter p l = l.
Proof.
  induction l as [|x l IH]; simpl; [done|].
  pose proof (filter_length_le p l).
  destruct (p x); simpl; intros Hlen; [|lia].
  f_equal. apply IH. lia.
Qed.

Lemma delete_effect schema tableName where_ table w :
  getTable schema tableName w = Some table ->
  let rows :=
    List.filter (fun row => negb (matches where_ row)) (Table.rows table) in
  let n := Z.of_nat (List.length (Table.rows table))
           - Z.of_nat (List.length rows) in
  let w' := (delete schema tableName where_ w).2 in
  QueryResult.success (delete schema tableName where_ w).1 = true /\
  QueryResult.rowsAffected (delete schema tableName where_ w).1 = Some n /\
  (n = 0 -> database w' = database w /\ localStorage w' = localStorage w
            /\ setItems w' = setItems w) /\
  (0 < n ->
   exists now,
     database w' =
       <[schema := <[tableName := set_updatedAt (set_rows table rows) now]>
                     (default ∅ (database w !! schema))]> (database w) /\
     synced w').
Proof.
  intros Hget. cbv zeta.
  unfold delete. run_service. rewrite Hget. simpl.
  pose proof (filter_length_le (fun row => negb (matches where_ row))
                (Table.rows table)) as Hle.
  destruct (Z.ltb_spec 0
              (Z.of_nat (List.length (Table.rows table))
               - Z.of_nat (List.length
                   (List.filter (fun row => negb (matches where_ row))
                      (Table.rows table))))) as [Hpos|Hzero]; simpl.
  - split; [done|]. split; [done|]. split; [lia|]. intros _.
    exists (toISOString (runtime w) (S (tick w))).
    unfold synced; simpl. by rewrite !setTable_twice.
  - split; [done|]. split; [done|]. split; [|lia]. intros Hn.
    split; [|done].
    rewrite filter_same_length by lia.
    rewrite set_rows_same. apply setTable_unchanged. exact Hget.
Qed.

Lemma addColumn_effect schema tableName column table w :
  getTable schema tableName w = Some table ->
  (forall c, c ∈ Table.columns table -> Column.name c <> Column.name column) ->
  let table' :=
    set_updatedAt
      (set_rows
         (set_columns table (Table.columns table ++ [column])%list)
         ((fun row : JS.object =>
             <[Column.name column :=
                 JS.or_else (Column.default column) JS.VNull]> row)
            <$> Table.rows table))
      (toISOString (runtime w) (tick w)) in
  let w' := (addColumn schema tableName column w).2 in
  (addColumn schema tableName column w).1 = true /\
  database w' =
    <[schema := <[tableName := table']> (default ∅ (database w !! schema))]>
      (database w) /\
  synced w'.
Proof.
  intros Hget Hfresh. cbv zeta.
  unfold addColumn. run_service.
  by rewrite Hget, (find_name_none _ _ Hfresh).
Qed.

Lemma addColumn_refused schema tableName column w :
  (getTable schema tableName w = None \/
   exists table c, getTable schema tableName w = Some table /\
                   c ∈ Table.columns table /\
                   Column.name c = Column.name column) ->
  addColumn schema tableName column w = (false, w).
Proof.
  intros [Hnone|(table & c & Hget & Hc & Hname)];
    unfold addColumn; run_service.
  - by rewrite Hnone.
  - rewrite Hget.
    destruct (List.find _ (Table.columns table)) eqn:Hfind; [done|].
    apply list_elem_of_In in Hc.
    pose proof (find_none _ _ Hfind c Hc) as Hc'. simpl in Hc'.
    rewrite Hname, String.eqb_refl in Hc'. done.
Qed.

(** [findIndex] returns the first position at which the predicate holds. *)
Lemma findIndex_Some {A} (p : A -> bool) l i :
  findIndex p l = Some i ->
  exists x, l !! i = Some x /\ p x = true /\
            forall j y, (j < i)%nat -> l !! j = Some y -> p y = false.
Proof.
  revert i. induction l as [|x l IH]; intros i; simpl; [done|].
  destruct (p x) eqn:Hx.
  - intros [= <-]. exists x. repeat split; [done|]. intros j y Hj. lia.
  - destruct (findIndex p l) as [k|]; [|done]. intros [= <-].
    destruct (IH k eq_refl) as (y & Hy & Hpy & Hbefore).
    exists y. repeat split; [done..|].
    intros [|j] z Hj Hz; simpl in *; [by injection Hz as <-|].
    apply (Hbefore j); [lia|done].
Qed.

Lemma findIndex_None {A} (p : A -> bool) l :
  findIndex p l = None <-> forall x, x ∈ l -> p x = false.
Proof.
  induction l as [|x l IH]; simpl.
  - split; [by intros _ x ?%elem_of_nil|done].
  - destruct (p x) eqn:Hx.
    + split; [done|]. intros H. rewrite (H x) in Hx; [done|by left].
    + destruct (findIndex p l) as [k|].
      * split; [done|]. intros H. exfalso.
        assert (Some k = None) as Hk; [|done].
        apply IH. intros y Hy. apply H. by right.
      * split; [|done]. intros _ y Hy.
        apply elem_of_cons in Hy as [->|Hy]; [done|].
        by apply (proj1 IH).
Qed.

(** ** Columns: addColumn and removeColumn *)

Lemma removeColumn_effect schema tableName columnName table i w :
  getTable schema tableName w = Some table ->
  findIndex (fun c => String.eqb (Column.name c) columnName)
    (Table.columns table) = Some i ->
  let table' :=
    set_updatedAt
      (set_rows (set_columns table (splice1 i (Table.columns table)))
         ((fun row : JS.object => base.delete columnName row)
            <$> Table.rows table))
      (toISOString (runtime w) (tick w)) in
  let w' := (removeColumn schema tableName columnName w).2 in
  (removeColumn schema tableName columnName w).1 = true /\
  database w' =
    <[schema := <[tableName := table']> (default ∅ (database w !! schema))]>
      (database w) /\
  synced w'.
Proof.
  intros Hget Hfind. cbv zeta.
  unfold removeColumn. run_service. by rewrite Hget, Hfind.
Qed.

Lemma removeColumn_refused schema tableName columnName w :
  (getTable schema tableName w = None \/
   exists table, getTable schema tableName w = Some table /\
                 forall c, c ∈ Table.columns table -> Column.name c <> columnName) ->
  removeColumn schema tableName columnName w = (false, w).
Proof.
  intros [Hnone|(table & Hget & Hnames)]; unfold removeColumn; run_service.
  - by rewrite Hnone.
  - rewrite Hget.
    replace (findIndex _ (Table.columns table)) with (@None nat); [done|].
    symmetry. apply findIndex_None. intros c Hc.
    apply String.eqb_neq. by apply Hnames.
Qed.

(** Removing the element at the position of [c] from a list whose images
    under [f] are distinct removes exactly the elements with the image of
    [c], and keeps the images distinct. *)
Lemma splice1_elem_of {A B} (f : A -> B) (l : list A) : forall i c,
  NoDup (f <$> l) -> l !! i = Some c ->
  forall x, x ∈ splice1 i l <-> x ∈ l /\ f x <> f c.
Proof.
  unfold splice1. induction l as [|y l IH]; intros i c Hnd Hi x; [done|].
  rewrite fmap_cons in Hnd. apply NoDup_cons in Hnd as [Hy Hnd].
  destruct i as [|i]; simpl in *.
  - injection Hi as ->. rewrite drop_0. split.
    + intros Hx. split; [by right|]. intros Heq. apply Hy. rewrite <- Heq.
      apply list_elem_of_fmap. by exists x.
    + intros [Hx Hne]. apply elem_of_cons in Hx as [->|Hx]; done.
  - assert (Hyc : f y <> f c).
    { intros Heq. apply Hy. rewrite Heq. apply list_elem_of_fmap. exists c.
      split; [done|]. by apply list_elem_of_lookup_2 in Hi. }
    rewrite !elem_of_cons, (IH i c Hnd Hi x). split.
    + intros [->|[Hx Hne]]; [split; [by left|done]|split; [by right|done]].
    + intros [[->|Hx] Hne]; [by left|by right].
Qed.

Lemma splice1_subset {A} (l : list A) : forall i x,
  x ∈ splice1 i l -> x ∈ l.
Proof.
  unfold splice1. induction l as [|y l IH]; intros [|i] x; simpl;
    rewrite ?drop_0; try done.
  - by right.
  - rewrite !elem_of_cons. intros [->|Hx]; [by left|right]. by apply (IH i).
Qed.

Lemma splice1_NoDup {A B} (f : A -> B) (l : list A) : forall i,
  NoDup (f <$> l) -> NoDup (f <$> splice1 i l).
Proof.
  induction l as [|y l IH]; intros [|i] Hnd; try done.
  - unfold splice1; simpl. rewrite drop_0.
    rewrite fmap_cons in Hnd. by apply NoDup_cons in Hnd as [_ ?].
  - rewrite fmap_cons in Hnd. apply NoDup_cons in Hnd as [Hy Hnd].
    change (splice1 (S i) (y :: l)) with (y :: splice1 i l).
    rewrite fmap_cons. apply NoDup_cons. split; [|by apply IH].
    intros Hin. apply Hy.
    apply list_elem_of_fmap in Hin as (x & -> & Hx).
    apply list_elem_of_fmap. exists x. split; [done|].
    by apply (splice1_subset l i).
Qed.

Lemma splice1_length {A} (l : list A) i x :
  l !! i = Some x -> S (List.length (splice1 i l)) = List.length l.
Proof.
  intros Hi. apply lookup_lt_Some in Hi. unfold splice1.
  rewrite length_app, length_take, length_drop. lia.
Qed.

(** X5.  [removeColumn] on a table that has a column of that name returns true,
    removes one column, deletes the key from every row and keeps the other
    keys and the number of rows; when the column names are distinct, the
    columns left are exactly those with another name.  On a table without
    such a column it returns false and changes nothing. *)
Theorem removeColumn_deletes_column_and_key schema tableName columnName table w :
  getTable schema tableName w = Some table ->
  ((forall c, c ∈ Table.columns table -> Column.name c <> columnName) ->
   removeColumn schema tableName columnName w = (false, w)) /\
  ((exists c, c ∈ Table.columns table /\ Column.name c = columnName) ->
   (removeColumn schema tableName columnName w).1 = true /\
   exists table',
     getTable schema tableName (removeColumn schema tableName columnName w).2
       = Some table' /\
     S (List.length (Table.columns table')) = List.length (Table.columns table) /\
     (distinct_columns table ->
      forall c, c ∈ Table.columns table' <->
                c ∈ Table.columns table /\ Column.name c <> columnName) /\
     List.length (Table.rows table') = List.length (Table.rows table) /\
     (forall i (row : JS.object), Table.rows table !! i = Some row ->
        exists row' : JS.object,
          Table.rows table' !! i = Some row' /\
          row' !! columnName = None /\
          forall k, k <> columnName -> row' !! k = row !! k)).
Proof.
  intros Hget. split.
  - intros Hnone. apply removeColumn_refused. right. by exists table.
  - intros (c & Hc & Hname).
    destruct (findIndex (fun c => String.eqb (Column.name c) columnName)
                (Table.columns table)) as [i|] eqn:Hfind.
    2:{ apply (proj1 (findIndex_None _ _)) with (x := c) in Hfind; [|done].
        simpl in Hfind. by rewrite Hname, String.eqb_refl in Hfind. }
    destruct (removeColumn_effect _ _ _ _ _ _ Hget Hfind) as (Htrue & Hdb & _).
    destruct (same_elsewhere_write _ _ _ _ _ Hdb) as [Htable _].
    destruct (findIndex_Some _ _ _ Hfind) as (x & Hx & Hpx & _).
    apply String.eqb_eq in Hpx.
    split; [done|]. eexists. split; [exact Htable|]. simpl.
    split; [by apply (splice1_length _ _ x)|]. split; [|split].
    + intros Hdistinct c'.
      rewrite (splice1_elem_of Column.name _ i x Hdistinct Hx). by rewrite Hpx.
    + by rewrite length_fmap.
    + intros j row Hrow. rewrite list_lookup_fmap, Hrow. simpl.
      eexists. split; [done|]. split; [apply lookup_delete_eq|].
      intros k Hk. by apply lookup_delete_ne.
Qed.

Lemma findIndex_app_fresh {A} (p : A -> bool) l x :
  (forall y, y ∈ l -> p y = false) -> p x = true ->
  findIndex p (l ++ [x]) = Some (List.length l).
Proof.
  induction l as [|y l IH]; intros Hl Hx; simpl.
  - by rewrite Hx.
  - rewrite (Hl y) by (by left).
    rewrite IH; [done| |done]. intros z Hz. apply Hl. by right.
Qed.

(** X6.  Adding a column under a new name and removing it again restores the
    columns of the table, and its rows when none of them carried a key of
    that name. *)
Theorem addColumn_removeColumn_round_trip schema tableName column table w :
  getTable schema tableName w = Some table ->
  (forall c, c ∈ Table.columns table -> Column.name c <> Column.name column) ->
  (forall row : JS.object, row ∈ Table.rows table ->
     row !! Column.name column = None) ->
  let w1 := (addColumn schema tableName column w).2 in
  let w2 := (removeColumn schema tableName (Column.name column) w1).2 in
  (removeColumn schema tableName (Column.name column) w1).1 = true /\
  exists table'',
    getTable schema tableName w2 = Some table'' /\
    Table.columns table'' = Table.columns table /\
    Table.rows table'' = Table.rows table.
Proof.
  intros Hget Hfresh Hrows. cbv zeta.
  destruct (addColumn_effect _ _ _ _ _ Hget Hfresh) as (_ & Hdb1 & _).
  destruct (same_elsewhere_write _ _ _ _ _ Hdb1) as [Hget1 _].
  assert (Hfind : findIndex
            (fun c => String.eqb (Column.name c) (Column.name column))
            (Table.columns table ++ [column]) = Some (List.length (Table.columns table))).
  { apply findIndex_app_fresh; [|apply String.eqb_refl].
    intros c Hc. apply String.eqb_neq. by apply Hfresh. }
  destruct (removeColumn_effect _ _ (Column.name column) _ _ _ Hget1 Hfind)
    as (Htrue & Hdb2 & _).
  destruct (same_elsewhere_write _ _ _ _ _ Hdb2) as [Hget2 _].
  split; [done|]. eexists. split; [exact Hget2|]. simpl. split.
  - unfold splice1. rewrite take_app_length.
    rewrite drop_ge by (rewrite length_app; simpl; lia). apply app_nil_r.
  - rewrite <- list_fmap_compose.
    rewrite <- (list_fmap_id (Table.rows table)) at 2.
    apply list_fmap_ext. intros i row Hrow. simpl.
    apply delete_insert_id, Hrows. by apply list_elem_of_lookup_2 in Hrow.
Qed.

(** ** Operations on a missing table *)

(** On a table that does not exist the four row operations return the
    same failure, [Table <schema>.<tableName> not found], without execution
    time, and leave the database and the stored snapshot untouched. *)
Lemma row_operations_on_missing_table schema tableName data where_ opts w :
  getTable schema tableName w = None ->
  let failure :=
    {| QueryResult.success := false; QueryResult.data := None;
       QueryResult.error :=
         Some ("Table " +:+ schema +:+ "." +:+ tableName +:+ " not found");
       QueryResult.rowsAffected := None; QueryResult.executionTime := None |} in
  let w' := with_tick w (S (tick w)) in
  insert schema tableName data w = (failure, w') /\
  select schema tableName opts w = (failure, w') /\
  update schema tableName where_ data w = (failure, w') /\
  delete schema tableName where_ w = (failure, w').
Proof.
  intros Hnone. cbv zeta.
  unfold insert, select, update, delete. run_service.
  by rewrite Hnone.
Qed.

(** ** Frame and invariants *)

Lemma insert_rewrites schema tableName data w :
  rewrites schema tableName same_columns w (insert schema tableName data w).2.
Proof.
  destruct (getTable schema tableName w) as [table|] eqn:Hget.
  - right.
    destruct (insert_found schema tableName data table w Hget)
      as (row & n & _ & _ & Hins).
    cbv zeta in Hins. rewrite Hins. simpl.
    eexists table, _. split; [done|]. split; [|split; [reflexivity|]]; done.
  - left. unfold insert. run_service. by rewrite Hget.
Qed.

Lemma update_rewrites schema tableName where_ data w :
  rewrites schema tableName same_columns w
    (update schema tableName where_ data w).2.
Proof.
  destruct (getTable schema tableName w) as [table|] eqn:Hget.
  - destruct (update_effect schema tableName where_ data table w Hget)
      as (_ & Hzero & Hpos).
    pose proof (update_rows_count_nonneg where_ data (Table.rows table)) as Hnn.
    destruct (Z.eq_dec (update_rows where_ data (Table.rows table)).2 0)
      as [Hz|Hnz].
    + left. by apply Hzero.
    + right. destruct Hpos as (now & Hdb & Hsync); [lia|].
      eexists table, _. split; [done|].
      split; [|split; [exact Hdb|exact Hsync]]. done.
  - left. unfold update. run_service. by rewrite Hget.
Qed.

Lemma delete_rewrites schema tableName where_ w :
  rewrites schema tableName same_columns w (delete schema tableName where_ w).2.
Proof.
  destruct (getTable schema tableName w) as [table|] eqn:Hget.
  - destruct (delete_effect schema tableName where_ table w Hget)
      as (_ & _ & Hzero & Hpos).
    pose proof (filter_length_le (fun row => negb (matches where_ row))
                  (Table.rows table)) as Hle.
    destruct (Z.eq_dec
                (Z.of_nat (List.length (Table.rows table))
                 - Z.of_nat (List.length
                     (List.filter (fun row => negb (matches where_ row))
                        (Table.rows table)))) 0) as [Hz|Hnz].
    + left. destruct (Hzero Hz) as (? & ? & _). done.
    + right. destruct Hpos as (now & Hdb & Hsync); [lia|].
      eexists table, _. split; [done|].
      split; [|split; [exact Hdb|exact Hsync]]. done.
  - left. unfold delete. run_service. by rewrite Hget.
Qed.

Lemma addColumn_rewrites schema tableName column w :
  rewrites schema tableName
    (fun table table' =>
       Table.columns table' = (Table.columns table ++ [column])%list /\
       forall c, c ∈ Table.columns table -> Column.name c <> Column.name column)
    w (addColumn schema tableName column w).2.
Proof.
  destruct (getTable schema tableName w) as [table|] eqn:Hget.
  - destruct (List.find
                (fun c => String.eqb (Column.name c) (Column.name column))
                (Table.columns table)) as [c|] eqn:Hfind.
    + left. apply find_some in Hfind as [Hc Hname].
      apply String.eqb_eq in Hname. apply list_elem_of_In in Hc.
      rewrite addColumn_refused; [done|]. right. by exists table, c.
    + right.
      assert (Hfresh : forall c, c ∈ Table.columns table ->
                Column.name c <> Column.name column).
      { intros c Hc. apply list_elem_of_In in Hc.
        apply String.eqb_neq. apply (find_none _ _ Hfind c Hc). }
      destruct (addColumn_effect _ _ _ _ _ Hget Hfresh) as (_ & Hdb & Hsync).
      eexists table, _. split; [done|].
      split; [|split; [exact Hdb|exact Hsync]]. done.
  - left. rewrite addColumn_refused; [done|by left].
Qed.

Lemma removeColumn_rewrites schema tableName columnName w :
  rewrites schema tableName
    (fun table table' =>
       exists i, Table.columns table' = splice1 i (Table.columns table))
    w (removeColumn schema tableName columnName w).2.
Proof.
  destruct (getTable schema tableName w) as [table|] eqn:Hget.
  - destruct (findIndex (fun c => String.eqb (Column.name c) columnName)
                (Table.columns table)) as [i|] eqn:Hfind.
    + right.
      destruct (removeColumn_effect _ _ _ _ _ _ Hget Hfind) as (_ & Hdb & Hsync).
      eexists table, _. split; [done|].
      split; [|split; [exact Hdb|exact Hsync]]. by exists i.
    + left. rewrite removeColumn_refused; [done|]. right. exists table.
      split; [done|]. intros c Hc. apply String.eqb_neq.
      by apply (proj1 (findIndex_None _ _) Hfind).
  - left. rewrite removeColumn_refused; [done|by left].
Qed.


Lemma rewrites_synced schema tableName P w w' :
  rewrites schema tableName P w w' -> synced w -> synced w'.
Proof.
  intros [[Hdb Hst]|(_ & _ & _ & _ & _ & Hsync)] Hw; [|done].
  unfold synced in *. by rewrite Hdb, Hst.
Qed.

Lemma rewrites_table schema tableName P w w' :
  rewrites schema tableName P w w' ->
  forall s t table', getTable s t w' = Some table' ->
    getTable s t w = Some table' \/
    (s, t) = (schema, tableName) /\
    exists table, getTable schema tableName w = Some table /\ P table table'.
Proof.
  intros [[Hdb _]|(table & table'' & Hget & HP & Hdb & _)] s t table' Ht.
  - left. unfold getTable in *. by rewrite <- Hdb.
  - destruct (same_elsewhere_write _ _ _ _ _ Hdb) as [Hnew Hframe].
    destruct (decide ((s, t) = (schema, tableName))) as [[= -> ->]|Hne].
    + right. split; [done|]. exists table. split; [done|]. congruence.
    + left. by rewrite <- (Hframe s t Hne).
Qed.


Lemma same_columns_everywhere schema tableName w w' :
  rewrites schema tableName same_columns w w' ->
  forall s t, Table.columns <$> getTable s t w' = Table.columns <$> getTable s t w.
Proof.
  intros [[Hdb _]|(table & table' & Hget & HP & Hdb & _)] s t.
  - unfold getTable. by rewrite Hdb.
  - destruct (same_elsewhere_write _ _ _ _ _ Hdb) as [Hnew Hframe].
    destruct (decide ((s, t) = (schema, tableName))) as [[= -> ->]|Hne].
    + rewrite Hnew, Hget. simpl. by rewrite HP.
    + by rewrite (Hframe s t Hne).
Qed.

(** X8.  [insert], [update] and [delete] change rows only: after any of them
    the same tables exist, each with the columns it had. *)
Theorem row_operations_keep_columns schema tableName data where_ w :
  forall s t,
    Table.columns <$> getTable s t (insert schema tableName data w).2
      = Table.columns <$> getTable s t w /\
    Table.columns <$> getTable s t (update schema tableName where_ data w).2
      = Table.columns <$> getTable s t w /\
    Table.columns <$> getTable s t (delete schema tableName where_ w).2
      = Table.columns <$> getTable s t w.
Proof.
  intros s t. repeat split.
  - apply (same_columns_everywhere _ _ _ _ (insert_rewrites _ _ _ _)).
  - apply (same_columns_everywhere _ _ _ _ (update_rewrites _ _ _ _ _)).
  - apply (same_columns_everywhere _ _ _ _ (delete_rewrites _ _ _ _)).
Qed.

Lemma rewrites_distinct schema tableName P w w' :
  (forall table table', P table table' ->
     distinct_columns table -> distinct_columns table') ->
  rewrites schema tableName P w w' -> all_distinct w -> all_distinct w'.
Proof.
  intros HP Hrw Hw s t table' Ht.
  destruct (rewrites_table _ _ _ _ _ Hrw s t table' Ht)
    as [Hold|[_ (table & Hget & Hrel)]].
  - by apply (Hw s t).
  - apply (HP table table' Hrel). by apply (Hw schema tableName).
Qed.

Lemma dropTable_keeps_or_removes schema tableName w s t table' :
  getTable s t (dropTable schema tableName w).2 = Some table' ->
  getTable s t w = Some table'.
Proof.
  destruct (getTable schema tableName w) as [old|] eqn:Hget.
  - rewrite (dropTable_found _ _ _ _ Hget). unfold getTable in *; simpl.
    destruct (decide (s = schema)) as [->|Hs].
    + rewrite lookup_insert_eq.
      destruct (database w !! schema) as [tables|]; [|done]. simpl.
      by intros [_ ?]%lookup_delete_Some.
    + by rewrite lookup_insert_ne.
  - destruct (database w !! schema) as [tables|] eqn:E.
    + destruct (JS.inherited tableName) eqn:Hname.
      * pose proof Hget as Hget'. unfold getTable in Hget'. rewrite E in Hget'.
        rewrite (dropTable_inherited _ _ _ _ E Hget' Hname).
        by unfold getTable.
      * by rewrite (dropTable_missing _ _ _ Hget (or_intror Hname)).
    + by rewrite (dropTable_missing _ _ _ Hget (or_introl E)).
Qed.

Lemma getTable_empty_schema schema w s t :
  database w !! schema = None ->
  getTable s t (with_database w (<[schema := ∅]> (database w))) = getTable s t w.
Proof.
  intros E. unfold getTable; simpl.
  destruct (decide (s = schema)) as [->|Hs].
  - by rewrite lookup_insert_eq, E, lookup_empty.
  - by rewrite lookup_insert_ne.
Qed.

Lemma createTable_keeps_or_adds schema table w s t table' :
  getTable s t (createTable schema table w).2 = Some table' ->
  getTable s t w = Some table' \/ table' = table.
Proof.
  destruct (getTable schema (Table.name table) w) as [old|] eqn:Hget.
  - rewrite (createTable_taken _ _ _ _ Hget). by left.
  - destruct (JS.inherited (Table.name table)) eqn:Hname.
    { rewrite (createTable_inherited _ _ _ Hget Hname). simpl.
      destruct (database w !! schema) eqn:E; [by left|].
      rewrite (getTable_empty_schema _ _ _ _ E). by left. }
    rewrite (createTable_fresh _ _ _ Hget Hname). intros Ht.
    destruct (decide ((s, t) = (schema, Table.name table))) as [[= -> ->]|Hne].
    + right. unfold getTable in Ht; simpl in Ht.
      rewrite lookup_insert_eq, lookup_insert_eq in Ht. by injection Ht.
    + left. rewrite <- Ht. symmetry.
      apply (getTable_setTable_other schema (Table.name table) table s t w Hne).
Qed.

(** X9.  Distinct column names are an invariant of the service: when every table
    has pairwise different column names, this is still so after
    [addColumn], [removeColumn], [insert], [update], [delete] and
    [dropTable], and after [createTable] of a table with pairwise different
    column names. *)
Theorem distinct_columns_are_kept
    schema tableName data where_ column columnName table w :
  all_distinct w ->
  all_distinct (addColumn schema tableName column w).2 /\
  all_distinct (removeColumn schema tableName columnName w).2 /\
  all_distinct (insert schema tableName data w).2 /\
  all_distinct (update schema tableName where_ data w).2 /\
  all_distinct (delete schema tableName where_ w).2 /\
  all_distinct (dropTable schema tableName w).2 /\
  (distinct_columns table -> all_distinct (createTable schema table w).2).
Proof.
  intros Hw.
  assert (Hsame : forall a b, same_columns a b ->
            distinct_columns a -> distinct_columns b).
  { intros a b Hab. unfold distinct_columns. by rewrite Hab. }
  split; [|split; [|split; [|split; [|split; [|split]]]]].
  - eapply rewrites_distinct; [|apply addColumn_rewrites|exact Hw].
    intros a b [Hcols Hfresh] Ha. unfold distinct_columns in *.
    rewrite Hcols, fmap_app. apply NoDup_app. split; [done|]. split.
    + intros name Hin Hin'. apply list_elem_of_singleton in Hin'.
      apply list_elem_of_fmap in Hin as (c & -> & Hc). by apply (Hfresh c).
    + apply NoDup_singleton.
  - eapply rewrites_distinct; [|apply removeColumn_rewrites|exact Hw].
    intros a b [i Hcols] Ha. unfold distinct_columns in *.
    rewrite Hcols. by apply splice1_NoDup.
  - apply (rewrites_distinct _ _ _ _ _ Hsame (insert_rewrites _ _ _ _) Hw).
  - apply (rewrites_distinct _ _ _ _ _ Hsame (update_rewrites _ _ _ _ _) Hw).
  - apply (rewrites_distinct _ _ _ _ _ Hsame (delete_rewrites _ _ _ _) Hw).
  - intros s t table' Ht. apply (Hw s t).
    by apply (dropTable_keeps_or_removes schema tableName w).
  - intros Htable s t table' Ht.
    destruct (createTable_keeps_or_adds schema table w s t table' Ht)
      as [Hold| ->]; [by apply (Hw s t)|done].
Qed.

(** ** delete *)

Lemma filter_not_matches where_ (rows : list JS.object) :
  List.filter (fun row => negb (matches where_ row)) rows
  = filter (fun row => ~ satisfies where_ row) rows.
Proof.
  induction rows as [|row rows IH]; simpl; [done|].
  rewrite filter_cons. destruct (matches where_ row) eqn:Hm; simpl.
  - apply matches_satisfies in Hm.
    destruct (decide (~ satisfies where_ row)); [done|]. exact IH.
  - destruct (decide (~ satisfies where_ row)) as [_|Hn]; [by rewrite IH|].
    exfalso. apply Hn. intros Hs. apply matches_satisfies in Hs. congruence.
Qed.

Lemma filter_split_length where_ (rows : list JS.object) :
  (List.length (List.filter (matches where_) rows)
   + List.length (List.filter (fun row => negb (matches where_ row)) rows)
   = List.length rows)%nat.
Proof.
  induction rows as [|row rows IH]; simpl; [done|].
  destruct (matches where_ row); simpl; lia.
Qed.

(** X10.  [delete] on an existing table removes exactly the rows that satisfy the
    filter and keeps the others in their order; [rowsAffected] is the number
    of rows removed.  When no row is removed the database and the stored
    snapshot are untouched; otherwise the new table is written. *)
Theorem delete_removes_matching_rows schema tableName where_ table w :
  getTable schema tableName w = Some table ->
  let result := (delete schema tableName where_ w).1 in
  let w' := (delete schema tableName where_ w).2 in
  let kept := filter (fun row => ~ satisfies where_ row) (Table.rows table) in
  let removed := filter (satisfies where_) (Table.rows table) in
  QueryResult.success result = true /\
  QueryResult.rowsAffected result = Some (Z.of_nat (List.length removed)) /\
  (exists table',
     getTable schema tableName w' = Some table' /\
     Table.rows table' = kept /\
     Table.columns table' = Table.columns table) /\
  (removed = [] ->
   database w' = database w /\ localStorage w' = localStorage w /\
   setItems w' = setItems w) /\
  (removed <> [] -> synced w' /\ setItems w' = S (setItems w)).
Proof.
  intros Hget. cbv zeta.
  destruct (delete_effect schema tableName where_ table w Hget)
    as (Hsucc & Hcount & Hzero & Hpos).
  pose proof (filter_split_length where_ (Table.rows table)) as Hsplit.
  rewrite <- filter_not_matches.
  assert (Hremoved : filter (satisfies where_) (Table.rows table)
                     = List.filter (matches where_) (Table.rows table)).
  { pose proof (apply_where_filtered
                  {| where_ := Some where_; orderBy := None; limit := None;
                     offset := None |} (Table.rows table)) as H.
    by unfold apply_where, filtered in H. }
  rewrite Hremoved.
  split; [done|]. split; [rewrite Hcount; f_equal; lia|]. split; [|split].
  - destruct (List.filter (matches where_) (Table.rows table)) as [|r rs] eqn:E.
    + destruct Hzero as (Hdb & _); [simpl in Hsplit; lia|].
      exists table. split; [unfold getTable in *; by rewrite Hdb|].
      split; [|done]. symmetry. apply filter_same_length. simpl in Hsplit. lia.
    + destruct Hpos as (now & Hdb & _); [simpl in Hsplit; lia|].
      destruct (same_elsewhere_write _ _ _ _ _ Hdb) as [Hnew _].
      by eexists.
  - intros Hnil. rewrite Hnil in Hsplit. simpl in Hsplit.
    apply Hzero. lia.
  - intros Hne.
    destruct (List.filter (matches where_) (Table.rows table)) as [|r rs] eqn:E;
      [done|].
    destruct Hpos as (now & Hdb & Hsync); [simpl in Hsplit; lia|].
    split; [done|].
    unfold delete. run_service. rewrite Hget. simpl.
    destruct (Z.ltb_spec 0
                (Z.of_nat (List.length (Table.rows table))
                 - Z.of_nat (List.length
                     (List.filter (fun row => negb (matches where_ row))
                        (Table.rows table))))) as [_|Hle]; [done|].
    simpl in Hsplit. lia.
Qed.

(** ** How the row operations compose *)

Lemma select_only_where schema tableName f table w :
  getTable schema tableName w = Some table ->
  QueryResult.data (select schema tableName (only_where f) w).1
    = Some (filter (satisfies f) (Table.rows table)) /\
  QueryResult.rowsAffected (select schema tableName (only_where f) w).1
    = Some (Z.of_nat (List.length (filter (satisfies f) (Table.rows table)))).
Proof.
  intros Hget.
  destruct (select_rows_pipeline schema tableName (only_where f) table w Hget)
    as (Hdata & Hcount & _); [exact I..|].
  split; [exact Hdata|exact Hcount].
Qed.

Lemma delete_rows schema tableName f table w :
  getTable schema tableName w = Some table ->
  exists table',
    getTable schema tableName (delete schema tableName f w).2 = Some table' /\
    Table.rows table' = filter (fun row => ~ satisfies f row) (Table.rows table).
Proof.
  intros Hget.
  destruct (delete_effect schema tableName f table w Hget)
    as (_ & _ & Hzero & Hpos).
  pose proof (filter_length_le (fun row => negb (matches f row))
                (Table.rows table)) as Hle.
  rewrite <- filter_not_matches.
  destruct (Z.eq_dec
              (Z.of_nat (List.length (Table.rows table))
               - Z.of_nat (List.length
                   (List.filter (fun row => negb (matches f row))
                      (Table.rows table)))) 0) as [Hz|Hnz].
  - destruct (Hzero Hz) as (Hdb & _). exists table.
    split; [unfold getTable in *; by rewrite Hdb|].
    symmetry. apply filter_same_length. lia.
  - destruct Hpos as (now & Hdb & _); [lia|].
    destruct (same_elsewhere_write _ _ _ _ _ Hdb) as [Hnew _]. by eexists.
Qed.

Lemma update_rows_count where_ data rows :
  (update_rows where_ data rows).2
  = Z.of_nat (List.length (List.filter (matches where_) rows)).
Proof.
  induction rows as [|row rows IH]; simpl; [done|].
  destruct (update_rows where_ data rows) as [rest n]; simpl in *.
  destruct (matches where_ row); simpl; lia.
Qed.

Lemma filter_complement f (rows : list JS.object) :
  filter (satisfies f) (filter (fun row => ~ satisfies f row) rows) = [].
Proof.
  induction rows as [|row rows IH]; [done|].
  rewrite filter_cons. destruct (decide (~ satisfies f row)) as [Hn|_].
  - rewrite filter_cons. by destruct (decide (satisfies f row)).
  - exact IH.
Qed.

(** X11.  After [delete] with a filter, [select] with the same filter finds
    nothing. *)
Theorem select_after_delete_is_empty schema tableName f table w :
  getTable schema tableName w = Some table ->
  let w' := (delete schema tableName f w).2 in
  QueryResult.data (select schema tableName (only_where f) w').1 = Some [] /\
  QueryResult.rowsAffected (select schema tableName (only_where f) w').1 = Some 0.
Proof.
  intros Hget. cbv zeta.
  destruct (delete_rows schema tableName f table w Hget) as (table' & Hget' & Hrows).
  destruct (select_only_where schema tableName f table' _ Hget') as [Hdata Hcount].
  assert (Hnone : filter (satisfies f) (Table.rows table') = []).
  { rewrite Hrows. apply filter_complement. }
  by rewrite Hdata, Hcount, Hnone.
Qed.

(** X12.  [select], [update] and [delete] agree on the rows a filter selects: on
    the same table and filter, the three report the same [rowsAffected],
    the number of rows satisfying the filter. *)
Theorem operations_agree_on_matches schema tableName f data table w :
  getTable schema tableName w = Some table ->
  let n := Z.of_nat (List.length (filter (satisfies f) (Table.rows table))) in
  QueryResult.rowsAffected (select schema tableName (only_where f) w).1 = Some n /\
  QueryResult.rowsAffected (update schema tableName f data w).1 = Some n /\
  QueryResult.rowsAffected (delete schema tableName f w).1 = Some n.
Proof.
  intros Hget. cbv zeta.
  assert (Hfilter : filter (satisfies f) (Table.rows table)
                    = List.filter (matches f) (Table.rows table)).
  { pose proof (apply_where_filtered (only_where f) (Table.rows table)) as H.
    by unfold apply_where, filtered in H. }
  split; [|split].
  - apply (select_only_where schema tableName f table w Hget).
  - destruct (update_effect schema tableName f data table w Hget) as (-> & _).
    by rewrite update_rows_count, Hfilter.
  - destruct (delete_effect schema tableName f table w Hget) as (_ & -> & _).
    pose proof (filter_split_length f (Table.rows table)).
    rewrite Hfilter. f_equal. lia.
Qed.

(** X13.  After [insert], [select] without options returns the rows that were
    there, in their order, followed by the row [insert] returned. *)
Theorem select_after_insert schema tableName data table w :
  getTable schema tableName w = Some table ->
  exists row,
    QueryResult.data (insert schema tableName data w).1 = Some [row] /\
    QueryResult.data
      (select schema tableName no_options (insert schema tableName data w).2).1
      = Some (Table.rows table ++ [row])%list.
Proof.
  intros Hget.
  destruct (insert_row schema tableName data table w Hget)
    as (row & now & Hdata & Hget' & _).
  exists row. split; [done|].
  destruct (select_rows_pipeline schema tableName no_options _ _ Hget')
    as (Hrows & _); [exact I..|].
  exact Hrows.
Qed.


(** ** executeSQL *)

Lemma executeSQL_select sql m w :
  JS.startsWith (JS.toUpperCase (JS.trim sql)) "SELECT" = true ->
  JS.string_match true select_pattern sql = Some m ->
  lookup (schema_of m) (tableName_of m) w <> Inherited ->
  executeSQL sql w =
    (Some (select (schema_of m) (tableName_of m) no_options
             (with_tick w (S (tick w)))).1,
     (select (schema_of m) (tableName_of m) no_options
        (with_tick w (S (tick w)))).2).
Proof.
  intros Hstart Hmatch Hfound.
  unfold executeSQL, create_table_block, select_block, bind, performance_now_,
    draw, ret, read.
  rewrite (starts_with_select_not_create _ Hstart), Hstart, Hmatch.
  rewrite lookup_with_tick.
  destruct (lookup (schema_of m) (tableName_of m) w); [|done|];
    by destruct (select _ _ _ _).
Qed.

Lemma executeSQL_select_inherited sql m w :
  JS.startsWith (JS.toUpperCase (JS.trim sql)) "SELECT" = true ->
  JS.string_match true select_pattern sql = Some m ->
  lookup (schema_of m) (tableName_of m) w = Inherited ->
  executeSQL sql w =
    (Some (caught (runtime w)
             (performance_now (runtime w) (tick w))
             (performance_now (runtime w) (S (S (tick w))))),
     with_tick w (S (S (S (tick w))))).
Proof.
  intros Hstart Hmatch Hfound.
  unfold executeSQL, create_table_block, select_block, bind, performance_now_,
    draw, ret, read.
  rewrite (starts_with_select_not_create _ Hstart), Hstart, Hmatch.
  by rewrite lookup_with_tick, Hfound.
Qed.

Lemma executeSQL_unrecognised sql w :
  ~ recognised sql ->
  executeSQL sql w = (Some not_implemented, with_tick w (S (tick w))).
Proof.
  intros Hn. unfold recognised in Hn.
  unfold executeSQL, create_table_block, select_block, bind, performance_now_,
    draw, ret.
  destruct (JS.startsWith _ "CREATE TABLE"); [exfalso; apply Hn; by left|].
  destruct (JS.startsWith _ "SELECT"); [exfalso; apply Hn; by right|done].
Qed.

(** The three ways [executeSQL] can go *)
Lemma executeSQL_cases sql w :
  (exists m,
     JS.startsWith (JS.toUpperCase (JS.trim sql)) "CREATE TABLE" = true /\
     JS.string_match true create_table_pattern sql = Some m) \/
  (exists m,
     JS.startsWith (JS.toUpperCase (JS.trim sql)) "SELECT" = true /\
     JS.string_match true select_pattern sql = Some m) \/
  executeSQL sql w = (Some not_implemented, with_tick w (S (tick w))).
Proof.
  destruct (JS.startsWith (JS.toUpperCase (JS.trim sql)) "CREATE TABLE") eqn:Hc.
  - destruct (JS.string_match true create_table_pattern sql) as [m|] eqn:Hm.
    + left. by exists m.
    + right. right.
      unfold executeSQL, create_table_block, select_block, bind,
        performance_now_, draw, ret.
      by rewrite Hc, Hm, (starts_with_create_not_select _ Hc).
  - destruct (JS.startsWith (JS.toUpperCase (JS.trim sql)) "SELECT") eqn:Hs.
    + destruct (JS.string_match true select_pattern sql) as [m|] eqn:Hm.
      * right. left. by exists m.
      * right. right.
        unfold executeSQL, create_table_block, select_block, bind,
          performance_now_, draw, ret.
        by rewrite Hc, Hs, Hm.
    + right. right. apply executeSQL_unrecognised.
      unfold recognised. rewrite Hc, Hs. by intros [|].
Qed.

Lemma select_world schema tableName opts w :
  (select schema tableName opts w).2 = with_tick w (S (S (tick w))) \/
  (select schema tableName opts w).2 = with_tick w (S (tick w)).
Proof.
  destruct (getTable schema tableName w) as [table|] eqn:Hget.
  - left. by rewrite (select_found _ _ _ _ _ Hget).
  - right. unfold select. run_service. by rewrite Hget.
Qed.

(** X15.  [executeSQL] succeeds on recognised statements only: a statement that
    starts, once trimmed and put in upper case, with neither [CREATE TABLE]
    nor [SELECT] gets the failure "SQL parsing not fully implemented for this
    query" and leaves the database and the stored snapshot as they are. *)
Theorem executeSQL_rejects_other_statements sql w :
  (~ recognised sql ->
   (executeSQL sql w).1 = Some not_implemented /\
   database (executeSQL sql w).2 = database w /\
   localStorage (executeSQL sql w).2 = localStorage w) /\
  (forall result,
     (executeSQL sql w).1 = Some result ->
     QueryResult.success result = true -> recognised sql).
Proof.
  split.
  - intros Hn. by rewrite (executeSQL_unrecognised sql w Hn).
  - intros result Hres Hsucc.
    destruct (JS.startsWith (JS.toUpperCase (JS.trim sql)) "CREATE TABLE") eqn:Hc;
      [by left|].
    destruct (JS.startsWith (JS.toUpperCase (JS.trim sql)) "SELECT") eqn:Hs;
      [by right|].
    rewrite executeSQL_unrecognised in Hres.
    + injection Hres as <-. done.
    + unfold recognised. rewrite Hc, Hs. by intros [|].
Qed.

(** X16.  A SELECT statement returns the whole table: whatever the select list
    and whatever follows the table name, the result holds every row of the
    table the pattern names, in stored order, and nothing is changed. *)
Theorem executeSQL_select_returns_every_row sql m table w :
  JS.startsWith (JS.toUpperCase (JS.trim sql)) "SELECT" = true ->
  JS.string_match true select_pattern sql = Some m ->
  getTable (schema_of m) (tableName_of m) w = Some table ->
  exists result,
    (executeSQL sql w).1 = Some result /\
    QueryResult.success result = true /\
    QueryResult.data result = Some (Table.rows table) /\
    QueryResult.rowsAffected result
      = Some (Z.of_nat (List.length (Table.rows table))) /\
    database (executeSQL sql w).2 = database w /\
    localStorage (executeSQL sql w).2 = localStorage w.
Proof.
  intros Hstart Hmatch Hget.
  rewrite (executeSQL_select sql m w Hstart Hmatch)
    by (by rewrite (lookup_found _ _ _ _ Hget)).
  rewrite (select_found _ _ no_options table (with_tick w (S (tick w))))
    by (by rewrite getTable_with_tick).
  eexists. split; [reflexivity|]. by repeat split.
Qed.

(** X17.  CREATE TABLE for a table that exists reports success with no rows
    affected, although nothing is created: the existing table, the database
    and the stored snapshot stay as they are. *)
Theorem executeSQL_create_existing_table sql m table w :
  JS.startsWith (JS.toUpperCase (JS.trim sql)) "CREATE TABLE" = true ->
  JS.string_match true create_table_pattern sql = Some m ->
  getTable (schema_of m) (tableName_of m) w = Some table ->
  exists result,
    (executeSQL sql w).1 = Some result /\
    QueryResult.success result = true /\
    QueryResult.rowsAffected result = Some 0 /\
    database (executeSQL sql w).2 = database w /\
    localStorage (executeSQL sql w).2 = localStorage w /\
    setItems (executeSQL sql w).2 = setItems w.
Proof.
  intros Hstart Hmatch Hget.
  rewrite (executeSQL_create_table sql m w Hstart Hmatch). cbv zeta.
  rewrite (createTable_taken (schema_of m) _ table)
    by (simpl; by rewrite getTable_with_tick).
  simpl. eexists. split; [reflexivity|]. by repeat split.
Qed.

(** [createTable] leaves the tables that exist as they are. *)
Lemma createTable_keeps schema table w s t old :
  getTable s t w = Some old ->
  getTable s t (createTable schema table w).2 = Some old.
Proof.
  intros Hget.
  destruct (getTable schema (Table.name table) w) as [taken|] eqn:Htaken.
  - by rewrite (createTable_taken _ _ _ _ Htaken).
  - destruct (JS.inherited (Table.name table)) eqn:Hname.
    + rewrite (createTable_inherited _ _ _ Htaken Hname). simpl.
      destruct (database w !! schema) eqn:E; [done|].
      by rewrite (getTable_empty_schema _ _ _ _ E).
    + rewrite (createTable_fresh _ _ _ Htaken Hname), <- Hget.
      apply (getTable_setTable_other schema (Table.name table) table s t w).
      intros [= -> ->]. congruence.
Qed.

(** The world [executeSQL] leaves when its SELECT branch is taken *)
Lemma executeSQL_select_world sql m w :
  JS.startsWith (JS.toUpperCase (JS.trim sql)) "SELECT" = true ->
  JS.string_match true select_pattern sql = Some m ->
  exists n, (executeSQL sql w).2 = with_tick w n.
Proof.
  intros Hs Hm.
  destruct (lookup (schema_of m) (tableName_of m) w) eqn:Hfound.
  - rewrite (executeSQL_select sql m w Hs Hm) by (by rewrite Hfound). simpl.
    destruct (select_world (schema_of m) (tableName_of m) no_options
                (with_tick w (S (tick w)))) as [-> | ->]; by eexists.
  - rewrite (executeSQL_select_inherited sql m w Hs Hm Hfound). by eexists.
  - rewrite (executeSQL_select sql m w Hs Hm) by (by rewrite Hfound). simpl.
    destruct (select_world (schema_of m) (tableName_of m) no_options
                (with_tick w (S (tick w)))) as [-> | ->]; by eexists.
Qed.

(** X18.  [executeSQL] never changes or removes a table that exists: whatever
    the statement, every table found before is found after, unchanged. *)
Theorem executeSQL_keeps_existing_tables sql w s t table :
  getTable s t w = Some table ->
  getTable s t (executeSQL sql w).2 = Some table.
Proof.
  intros Hget.
  destruct (executeSQL_cases sql w) as [(m & Hc & Hm)|[(m & Hs & Hm)| ->]].
  - rewrite (executeSQL_create_table sql m w Hc Hm). cbv zeta. simpl.
    rewrite getTable_with_tick. apply createTable_keeps.
    by rewrite getTable_with_tick.
  - destruct (executeSQL_select_world sql m w Hs Hm) as [n ->].
    by rewrite getTable_with_tick.
  - done.
Qed.

(** ** Persistence *)

Lemma synced_with_tick w n : synced (with_tick w n) <-> synced w.
Proof. done. Qed.

(** [createTable] keeps the snapshot in step unless it creates a schema
    for a name it then refuses. *)
Lemma createTable_synced schema table w :
  synced w ->
  is_Some (database w !! schema) \/ JS.inherited (Table.name table) = false ->
  synced (createTable schema table w).2.
Proof.
  intros Hw Hcase.
  destruct (getTable schema (Table.name table) w) as [taken|] eqn:Htaken.
  - by rewrite (createTable_taken _ _ _ _ Htaken).
  - destruct (JS.inherited (Table.name table)) eqn:Hname.
    + rewrite (createTable_inherited _ _ _ Htaken Hname). simpl.
      destruct Hcase as [[tables E]|]; [by rewrite E|done].
    + by rewrite (createTable_fresh _ _ _ Htaken Hname).
Qed.

Lemma createTable_unsaved schema table w :
  synced w ->
  database w !! schema = None -> JS.inherited (Table.name table) = true ->
  unsaved_schema schema w (createTable schema table w).2 /\
  ~ synced (createTable schema table w).2.
Proof.
  intros Hw E Hname.
  rewrite createTable_inherited; [|unfold getTable; by rewrite E|done].
  rewrite E. simpl. split; [done|].
  unfold synced in *; simpl. rewrite Hw. intros [= Heq].
  assert (Hlook : JSON.roundtrip (database w) !! schema
                  = JSON.roundtrip (<[schema := ∅]> (database w)) !! schema)
    by (by rewrite Heq).
  unfold JSON.roundtrip in Hlook.
  by rewrite !lookup_fmap, E, lookup_insert_eq in Hlook.
Qed.

(** X19.  Write-through: when the stored snapshot is the database as [JSON]
    writes it, it is so again after every operation of the service, with
    one exception.  [createTable], called directly or by [executeSQL],
    creates the schema when it does not exist before it looks at the name
    of the table, and refuses a name that every object inherits
    ([constructor], [toString], ...) without writing: the database then
    holds an empty schema that the snapshot does not hold. *)
Theorem snapshot_follows_database
    schema tableName table column columnName data where_ opts sql w :
  synced w ->
  synced (dropTable schema tableName w).2 /\
  synced (addColumn schema tableName column w).2 /\
  synced (removeColumn schema tableName columnName w).2 /\
  synced (insert schema tableName data w).2 /\
  synced (select schema tableName opts w).2 /\
  synced (update schema tableName where_ data w).2 /\
  synced (delete schema tableName where_ w).2 /\
  (is_Some (database w !! schema) \/ JS.inherited (Table.name table) = false ->
   synced (createTable schema table w).2) /\
  (JS.inherited schema = false -> database w !! schema = None ->
   JS.inherited (Table.name table) = true ->
   unsaved_schema schema w (createTable schema table w).2 /\
   ~ synced (createTable schema table w).2) /\
  ((forall m, JS.string_match true create_table_pattern sql = Some m ->
      is_Some (database w !! schema_of m) \/
      JS.inherited (tableName_of m) = false) ->
   synced (executeSQL sql w).2) /\
  (synced (executeSQL sql w).2 \/
   exists m,
     JS.string_match true create_table_pattern sql = Some m /\
     JS.inherited (tableName_of m) = true /\
     unsaved_schema (schema_of m) w (executeSQL sql w).2).
Proof.
  intros Hw.
  assert (Hselect : forall sc tn o w0, synced w0 -> synced (select sc tn o w0).2).
  { intros sc tn o w0 Hw0. by destruct (select_world sc tn o w0) as [-> | ->]. }
  assert (Hsql : forall m,
            JS.startsWith (JS.toUpperCase (JS.trim sql)) "CREATE TABLE" = true ->
            JS.string_match true create_table_pattern sql = Some m ->
            (is_Some (database w !! schema_of m) \/
             JS.inherited (tableName_of m) = false ->
             synced (executeSQL sql w).2) /\
            (database w !! schema_of m = None ->
             JS.inherited (tableName_of m) = true ->
             unsaved_schema (schema_of m) w (executeSQL sql w).2)).
  { intros m Hc Hm.
    rewrite (executeSQL_create_table sql m w Hc Hm). cbv zeta. cbn [snd].
    split.
    - intros Hcase. apply synced_with_tick. by apply createTable_synced.
    - intros E Hname.
      match goal with
      | |- unsaved_schema _ _ (with_tick (createTable ?sc ?tb ?w0).2 _) =>
          destruct (createTable_unsaved sc tb w0) as [Hunsaved _]; [done..|]
      end.
      exact Hunsaved. }
  split; [|split; [|split; [|split; [|split; [|split; [|split;
    [|split; [|split; [|split]]]]]]]]].
  - destruct (getTable schema tableName w) as [old|] eqn:Hold.
    + by rewrite (dropTable_found _ _ _ _ Hold).
    + destruct (database w !! schema) as [tables|] eqn:E.
      * destruct (JS.inherited tableName) eqn:Hname.
        -- pose proof Hold as Hold'. unfold getTable in Hold'.
           rewrite E in Hold'.
           by rewrite (dropTable_inherited _ _ _ _ E Hold' Hname).
        -- by rewrite (dropTable_missing _ _ _ Hold (or_intror Hname)).
      * by rewrite (dropTable_missing _ _ _ Hold (or_introl E)).
  - apply (rewrites_synced _ _ _ _ _ (addColumn_rewrites _ _ _ _) Hw).
  - apply (rewrites_synced _ _ _ _ _ (removeColumn_rewrites _ _ _ _) Hw).
  - apply (rewrites_synced _ _ _ _ _ (insert_rewrites _ _ _ _) Hw).
  - by apply Hselect.
  - apply (rewrites_synced _ _ _ _ _ (update_rewrites _ _ _ _ _) Hw).
  - apply (rewrites_synced _ _ _ _ _ (delete_rewrites _ _ _ _) Hw).
  - by apply createTable_synced.
  - intros _. by apply createTable_unsaved.
  - intros Hnames.
    destruct (executeSQL_cases sql w) as [(m & Hc & Hm)|[(m & Hs & Hm)| ->]].
    + apply (Hsql m Hc Hm). by apply Hnames.
    + destruct (executeSQL_select_world sql m w Hs Hm) as [n ->].
      by apply synced_with_tick.
    + done.
  - destruct (executeSQL_cases sql w) as [(m & Hc & Hm)|[(m & Hs & Hm)| Hnone]].
    + destruct (database w !! schema_of m) as [tables|] eqn:E.
      { left. apply (Hsql m Hc Hm). left. by eexists. }
      destruct (JS.inherited (tableName_of m)) eqn:Hname.
      * right. exists m. split; [done|]. split; [done|].
        by apply (Hsql m Hc Hm).
      * left. apply (Hsql m Hc Hm). by right.
    + left. destruct (executeSQL_select_world sql m w Hs Hm) as [n ->].
      by apply synced_with_tick.
    + left. by rewrite Hnone.
Qed.

Lemma JSON_value_idempotent v : JSON.value (JSON.value v) = JSON.value v.
Proof. by destruct v as [| | |[]|]. Qed.

Lemma JSON_value_defined v : v <> JS.VUndefined -> JSON.value v <> JS.VUndefined.
Proof. by destruct v as [| | |[]|]. Qed.

Lemma lookup_JSON_object (o : JS.object) k :
  JSON.object o !! k =
    match o !! k with
    | Some v => if decide (v = JS.VUndefined) then None else Some (JSON.value v)
    | None => None
    end.
Proof.
  unfold JSON.object. rewrite lookup_fmap, map_lookup_filter.
  destruct (o !! k) as [v|]; simpl; [|done].
  destruct (decide (v = JS.VUndefined)) as [->|Hv].
  - by rewrite option_guard_False by (simpl; by intros H).
  - by rewrite option_guard_True.
Qed.

Lemma JSON_object_idempotent o : JSON.object (JSON.object o) = JSON.object o.
Proof.
  apply map_eq. intros k. rewrite lookup_JSON_object, lookup_JSON_object.
  destruct (o !! k) as [v|]; [|done].
  destruct (decide (v = JS.VUndefined)) as [|Hv]; [done|].
  destruct (decide (JSON.value v = JS.VUndefined)) as [Hu|_].
  - by apply JSON_value_defined in Hu.
  - by rewrite JSON_value_idempotent.
Qed.

Lemma JSON_object_storable (o : JS.object) :
  map_Forall (fun _ v => storable v) o -> JSON.object o = o.
Proof.
  intros Ho. apply map_eq. intros k. rewrite lookup_JSON_object.
  destruct (o !! k) as [v|] eqn:Hk; [|done].
  destruct (Ho k v Hk) as [Hv Hsame].
  destruct (decide (v = JS.VUndefined)); [done|]. by rewrite Hsame.
Qed.

Lemma JSON_table_idempotent t : JSON.table (JSON.table t) = JSON.table t.
Proof.
  unfold JSON.table; simpl. f_equal.
  - rewrite <- list_fmap_compose. apply list_fmap_ext. intros i c _.
    unfold JSON.column; simpl. by rewrite JSON_value_idempotent.
  - rewrite <- list_fmap_compose. apply list_fmap_ext. intros i o _.
    apply JSON_object_idempotent.
Qed.

Lemma JSON_table_storable t : storable_table t -> JSON.table t = t.
Proof.
  intros [Hrows Hcols]. destruct t as [id name schema columns rows ix po ca ua].
  unfold JSON.table; simpl in *. f_equal.
  - rewrite <- (list_fmap_id columns) at 2. apply list_fmap_ext.
    intros i c Hc. apply list_elem_of_lookup_2 in Hc.
    rewrite Forall_forall in Hcols. specialize (Hcols c Hc).
    destruct c; unfold JSON.column; simpl in *. by rewrite Hcols.
  - rewrite <- (list_fmap_id rows) at 2. apply list_fmap_ext.
    intros i o Ho. apply list_elem_of_lookup_2 in Ho.
    rewrite Forall_forall in Hrows. by apply JSON_object_storable, Hrows.
Qed.

Lemma lookup_roundtrip (d : Database) s t :
  (match JSON.roundtrip d !! s with
   | Some tables => tables !! t
   | None => None
   end)
  = JSON.table <$> (match d !! s with
                    | Some tables => tables !! t
                    | None => None
                    end).
Proof.
  unfold JSON.roundtrip. rewrite lookup_fmap.
  destruct (d !! s) as [tables|]; simpl; [|done]. apply lookup_fmap.
Qed.

Lemma roundtrip_idempotent d :
  JSON.roundtrip (JSON.roundtrip d) = JSON.roundtrip d.
Proof.
  unfold JSON.roundtrip. rewrite <- map_fmap_compose.
  apply map_fmap_ext. intros s tables _. simpl.
  rewrite <- map_fmap_compose. apply map_fmap_ext. intros t tb _.
  apply JSON_table_idempotent.
Qed.

Lemma roundtrip_storable d : storable_database d -> JSON.roundtrip d = d.
Proof.
  intros Hd. unfold JSON.roundtrip.
  rewrite <- (map_fmap_id d) at 2. apply map_fmap_ext. intros s tables Hs.
  rewrite <- (map_fmap_id tables) at 2. apply map_fmap_ext. intros t tb Ht.
  apply JSON_table_storable. by apply (Hd s tables t).
Qed.

(** X20.  Restart.  Started on the snapshot left by a world whose snapshot
    follows its database and which has the table [public.users], the
    service holds the database as [JSON] wrote it, seeds nothing and writes
    nothing; its snapshot follows its database again; and when every stored
    value is storable, the database is exactly the one that was left. *)
Theorem restart_restores_database rt w :
  synced w ->
  is_Some (getTable "public" "users" w) ->
  exists w',
    construct rt (localStorage w) = Some w' /\
    database w' = JSON.roundtrip (database w) /\
    localStorage w' = localStorage w /\
    setItems w' = 0%nat /\
    synced w' /\
    (storable_database (database w) -> database w' = database w).
Proof.
  intros Hw [users Husers]. unfold synced in Hw. rewrite Hw.
  pose proof (lookup_roundtrip (database w) "public" "users") as Hlookup.
  unfold getTable in Husers. rewrite Husers in Hlookup. simpl in Hlookup.
  unfold construct. simpl.
  destruct (JSON.roundtrip (database w) !! "public") as [tables|]; [|done].
  rewrite Hlookup. eexists. split; [reflexivity|]. simpl.
  repeat split.
  - unfold synced; simpl. by rewrite roundtrip_idempotent.
  - apply roundtrip_storable.
Qed.

(** X21.  Start-up.  Without a snapshot the service starts with the schema
    [public] holding the seeded table [users] alone, and writes it; on a
    snapshot that lacks the schema [public] the constructor fails; on a
    snapshot with the schema but without [users] the table is seeded and
    every stored table is kept. *)
Theorem start_up_seeds_users rt :
  (exists w,
     construct rt None = Some w /\
     getTable "public" "users" w
       = Some (users_table (randomUUID rt 0) (toISOString rt 1) (toISOString rt 2)) /\
     List.length (getTables "public" w) = 1%nat /\
     synced w /\ setItems w = 1%nat) /\
  (forall d, d !! "public" = None -> construct rt (Some d) = None) /\
  (forall d tables,
     d !! "public" = Some tables -> tables !! "users" = None ->
     exists w,
       construct rt (Some d) = Some w /\
       is_Some (getTable "public" "users" w) /\
       (forall s t, (s, t) <> ("public", "users") ->
          getTable s t w = (match d !! s with
                            | Some ts => ts !! t
                            | None => None
                            end)) /\
       synced w).
Proof.
  split; [|split].
  - set (w0 := {| runtime := rt; tick := 3; database := {[ "public" := ∅ ]};
                   localStorage := None; setItems := 0 |}).
    set (users := users_table (randomUUID rt 0) (toISOString rt 1)
                    (toISOString rt 2)).
    assert (Hfree : getTable "public" (Table.name users) w0 = None).
    { unfold getTable; simpl. rewrite lookup_singleton_eq. apply lookup_empty. }
    exists (createTable "public" users w0).2. split.
    + unfold construct; simpl. rewrite lookup_singleton_eq, lookup_empty.
      reflexivity.
    + rewrite (createTable_fresh _ _ _ Hfree eq_refl). cbv zeta.
      unfold getTable, getTables, synced.
      cbn [snd database localStorage setItems w0].
      rewrite !lookup_insert_eq, lookup_singleton_eq. cbn [default].
      unfold id. rewrite insert_empty, map_to_list_singleton. done.
  - intros d Hd. unfold construct; simpl. by rewrite Hd.
  - intros d tables Hd Husers. unfold construct; simpl. rewrite Hd, Husers.
    unfold bind, crypto_randomUUID, Date_now_toISOString, draw; simpl.
    rewrite createTable_fresh
      by first [reflexivity | unfold getTable; simpl; by rewrite Hd].
    simpl. rewrite Hd. simpl. eexists. split; [reflexivity|].
    split; [|split; [|done]].
    + unfold getTable; simpl. rewrite lookup_insert_eq, lookup_insert_eq.
      by eexists.
    + intros s t Hne. unfold getTable; simpl.
      destruct (decide (s = "public")) as [->|Hs].
      * rewrite lookup_insert_eq, Hd.
        by rewrite lookup_insert_ne by congruence.
      * by rewrite lookup_insert_ne.
Qed.

(** ** The query history *)

Lemma removelast_cons_take {A} (x : A) l :
  removelast (x :: l) = take (List.length l) (x :: l).
Proof.
  revert x. induction l as [|y l IH]; intros x; [done|].
  change (removelast (x :: y :: l)) with (x :: removelast (y :: l)).
  rewrite IH. done.
Qed.

Lemma save_cases sql item :
  let old := getQueryHistory item in
  getQueryHistory (saveQueryToHistory sql item) =
    if (50 <? S (List.length old))%nat then removelast (sql :: old)
    else sql :: old.
Proof.
  unfold saveQueryToHistory. cbn [getQueryHistory List.length].
  by destruct (50 <? S _)%nat.
Qed.

Lemma save_take sql item :
  (List.length (getQueryHistory item) <= 50)%nat ->
  getQueryHistory (saveQueryToHistory sql item)
  = take 50 (sql :: getQueryHistory item).
Proof.
  intros Hle. rewrite save_cases. cbv zeta.
  destruct (Nat.ltb_spec 50 (S (List.length (getQueryHistory item))))
    as [Hlong|Hshort].
  - rewrite removelast_cons_take.
    by assert (List.length (getQueryHistory item) = 50%nat) as -> by lia.
  - symmetry. apply take_ge. simpl. lia.
Qed.

(** X22.  [saveQueryToHistory] puts the statement first and keeps the earlier
    entries in their order.  On a history of at most 50 entries the result
    is the first 50 of the new list, so the bound of 50 is kept and the
    entry dropped is the oldest; a history that is already longer loses one
    entry only and stays as long as it was. *)
Theorem saveQueryToHistory_keeps_the_latest sql item :
  let old := getQueryHistory item in
  let new := getQueryHistory (saveQueryToHistory sql item) in
  head new = Some sql /\
  ((List.length old <= 50)%nat ->
   new = take 50 (sql :: old) /\ (List.length new <= 50)%nat) /\
  ((50 < List.length old)%nat ->
   new = sql :: removelast old /\ List.length new = List.length old).
Proof.
  cbv zeta. split; [|split].
  - rewrite save_cases. cbv zeta.
    destruct (Nat.ltb_spec 50 (S (List.length (getQueryHistory item))))
      as [Hlong|_]; [|done].
    rewrite removelast_cons_take.
    destruct (getQueryHistory item) as [|q old]; [simpl in Hlong; lia|done].
  - intros Hle. rewrite (save_take sql item Hle). split; [done|].
    rewrite length_take. lia.
  - intros Hlong. rewrite save_cases. cbv zeta.
    destruct (Nat.ltb_spec 50 (S (List.length (getQueryHistory item))))
      as [_|Hshort]; [|lia].
    destruct (getQueryHistory item) as [|q old]; [simpl in Hlong; lia|].
    change (removelast (sql :: q :: old)) with (sql :: removelast (q :: old)).
    split; [done|].
    rewrite removelast_cons_take. cbn [List.length].
    rewrite length_take. cbn [List.length]. lia.
Qed.

(** X23.  Saving statements one after the other into an empty history leaves the
    last 50 of them, the latest first. *)
Theorem history_holds_the_last_fifty statements :
  getQueryHistory (save_all statements None) = take 50 (rev statements).
Proof.
  induction statements as [|sql statements IH] using rev_ind; [done|].
  unfold save_all in *. rewrite fold_left_app. cbn [fold_left].
  rewrite save_take by (rewrite IH, length_take; lia).
  rewrite IH, rev_app_distr. cbn [rev app].
  change (take 50 (sql :: take 50 (rev statements)))
    with (sql :: take 49 (take 50 (rev statements))).
  change (take 50 (sql :: rev statements)) with (sql :: take 49 (rev statements)).
  f_equal. rewrite take_take. f_equal.
Qed.

(** ** The SQL editor *)

Lemma removelast_Forall {A} (P : A -> Prop) l :
  Forall P l -> Forall P (removelast l).
Proof.
  induction 1 as [|x l Hx Hl IH]; [done|].
  destruct l as [|y l]; [constructor|].
  change (removelast (x :: y :: l)) with (x :: removelast (y :: l)).
  by constructor.
Qed.

Lemma executeSQL_returns sql w :
  exists result, (executeSQL sql w).1 = Some result.
Proof.
  unfold executeSQL, bind, performance_now_, draw.
  destruct (create_table_block _ _ _ _) as [[r|] w1]; [by eexists|].
  destruct (select_block _ _ _ _) as [[r|] w2]; by eexists.
Qed.

Lemma executeSQL_malformed sql w :
  malformed sql ->
  executeSQL sql w = (Some not_implemented, with_tick w (S (tick w))).
Proof.
  intros [[Hstart Hmatch]|[Hstart Hmatch]];
    unfold executeSQL, create_table_block, select_block, bind,
      performance_now_, draw.
  - by rewrite Hstart, Hmatch, (starts_with_create_not_select _ Hstart).
  - by rewrite Hstart, Hmatch, (starts_with_select_not_create _ Hstart).
Qed.

Lemma recognised_not_blank sql : recognised sql -> JS.trim sql <> "".
Proof. intros [H|H] Hblank; by rewrite Hblank in H. Qed.

(** What [handleExecute] does with a statement that is not blank *)
Lemma handleExecute_run sql w item :
  JS.trim sql <> "" ->
  exists result,
    (executeSQL sql w).1 = Some result /\
    SQLEditor.handleExecute sql w item =
      ((executeSQL sql w).2,
       if QueryResult.success result
       then saveQueryToHistory sql item else item).
Proof.
  intros Hsql. unfold SQLEditor.handleExecute. simpl.
  destruct (String.eqb_spec (JS.trim sql) "") as [|_]; [done|]. simpl.
  destruct (executeSQL_returns sql w) as [result Hresult].
  exists result. split; [done|].
  destruct (executeSQL sql w) as [[r|] w1]; simpl in *; [|done].
  injection Hresult as ->. by destruct (QueryResult.success result).
Qed.

(** X24.  The editor records the statements that succeed, and no others.
    A blank statement is not run at all.  Any other statement is run, and
    the history gains it exactly when the result is a success: a CREATE
    TABLE statement that the pattern accepts (also when the table exists
    already and nothing is created) and a SELECT from a table that exists
    are recorded; a SELECT from a table that does not exist, a statement
    that the pattern does not accept and a statement with another keyword
    are not.  So a history of recognised statements stays one. *)
Theorem handleExecute_records_successful_statements sql w item :
  let w' := (SQLEditor.handleExecute sql w item).1 in
  let item' := (SQLEditor.handleExecute sql w item).2 in
  (JS.trim sql = "" -> w' = w /\ item' = item) /\
  (JS.trim sql <> "" ->
   w' = (executeSQL sql w).2 /\
   exists result,
     (executeSQL sql w).1 = Some result /\
     item' = if QueryResult.success result
             then saveQueryToHistory sql item else item) /\
  (forall m,
     JS.startsWith (JS.toUpperCase (JS.trim sql)) "CREATE TABLE" = true ->
     JS.string_match true create_table_pattern sql = Some m ->
     item' = saveQueryToHistory sql item) /\
  (forall m,
     JS.startsWith (JS.toUpperCase (JS.trim sql)) "SELECT" = true ->
     JS.string_match true select_pattern sql = Some m ->
     item' = match getTable (schema_of m) (tableName_of m) w with
             | Some _ => saveQueryToHistory sql item
             | None => item
             end) /\
  (malformed sql -> item' = item) /\
  (~ recognised sql -> item' = item) /\
  (item' = item \/
   head (getQueryHistory item') = Some sql /\ recognised sql) /\
  (Forall recognised (getQueryHistory item) ->
   Forall recognised (getQueryHistory item')).
Proof.
  cbv zeta.
  assert (Hcreate : forall m,
    JS.startsWith (JS.toUpperCase (JS.trim sql)) "CREATE TABLE" = true ->
    JS.string_match true create_table_pattern sql = Some m ->
    (SQLEditor.handleExecute sql w item).2 = saveQueryToHistory sql item).
  { intros m Hc Hm.
    destruct (handleExecute_run sql w item) as (result & Hresult & ->).
    { apply recognised_not_blank. by left. }
    rewrite (executeSQL_create_table sql m w Hc Hm) in Hresult.
    cbv zeta in Hresult. simpl in Hresult. by injection Hresult as <-. }
  assert (Hselect : forall m,
    JS.startsWith (JS.toUpperCase (JS.trim sql)) "SELECT" = true ->
    JS.string_match true select_pattern sql = Some m ->
    (SQLEditor.handleExecute sql w item).2 =
      match getTable (schema_of m) (tableName_of m) w with
      | Some _ => saveQueryToHistory sql item
      | None => item
      end).
  { intros m Hs Hm.
    destruct (handleExecute_run sql w item) as (result & Hresult & ->).
    { apply recognised_not_blank. by right. }
    simpl.
    destruct (getTable (schema_of m) (tableName_of m) w) as [table|] eqn:Hget.
    - rewrite (executeSQL_select sql m w Hs Hm) in Hresult
        by (by rewrite (lookup_found _ _ _ _ Hget)).
      rewrite (select_found _ _ no_options table (with_tick w (S (tick w))))
        in Hresult by (by rewrite getTable_with_tick).
      simpl in Hresult. by injection Hresult as <-.
    - destruct (lookup (schema_of m) (tableName_of m) w) eqn:Hfound.
      + unfold lookup, getTable in *.
        destruct (database w !! schema_of m); [|done].
        by rewrite Hget in Hfound; destruct (JS.inherited _).
      + rewrite (executeSQL_select_inherited sql m w Hs Hm Hfound) in Hresult.
        simpl in Hresult. by injection Hresult as <-.
      + rewrite (executeSQL_select sql m w Hs Hm) in Hresult
          by (by rewrite Hfound).
        unfold select in Hresult. revert Hresult. run_service.
        rewrite Hget. simpl. by intros [= <-]. }
  assert (Hmalformed : malformed sql ->
    (SQLEditor.handleExecute sql w item).2 = item).
  { intros Hbad.
    destruct (handleExecute_run sql w item) as (result & Hresult & ->).
    { apply recognised_not_blank. by destruct Hbad as [[? _]|[? _]]; [left|right]. }
    rewrite (executeSQL_malformed sql w Hbad) in Hresult.
    by injection Hresult as <-. }
  assert (Hother : ~ recognised sql ->
    (SQLEditor.handleExecute sql w item).2 = item).
  { intros Hn. unfold SQLEditor.handleExecute.
    destruct (negb (JS.truthy (JS.VString (JS.trim sql)))); [done|].
    by rewrite (executeSQL_unrecognised sql w Hn). }
  assert (Hcases :
    (SQLEditor.handleExecute sql w item).2 = item \/
    (SQLEditor.handleExecute sql w item).2 = saveQueryToHistory sql item /\
    recognised sql).
  { destruct (JS.startsWith (JS.toUpperCase (JS.trim sql)) "CREATE TABLE") eqn:Hc.
    - destruct (JS.string_match true create_table_pattern sql) as [m|] eqn:Hm.
      + right. split; [by apply (Hcreate m)|by left].
      + left. apply Hmalformed. left. by split.
    - destruct (JS.startsWith (JS.toUpperCase (JS.trim sql)) "SELECT") eqn:Hs.
      + destruct (JS.string_match true select_pattern sql) as [m|] eqn:Hm.
        * rewrite (Hselect m eq_refl eq_refl).
          destruct (getTable _ _ w); [right; split; [done|by right]|by left].
        * left. apply Hmalformed. right. by split.
      + left. apply Hother. unfold recognised. rewrite Hc, Hs. by intros [|]. }
  split; [|split; [|split; [|split; [|split; [|split; [|split]]]]]];
    [|
     |exact Hcreate|exact Hselect|exact Hmalformed|exact Hother| |].
  - intros Hblank. unfold SQLEditor.handleExecute. by rewrite Hblank.
  - intros Hsql.
    destruct (handleExecute_run sql w item Hsql) as (result & Hresult & ->).
    split; [done|]. by exists result.
  - destruct Hcases as [->|[-> Hrec]]; [by left|right]. split; [|done].
    rewrite save_cases. cbv zeta.
    destruct (50 <? S _)%nat eqn:Hlong; [|done].
    destruct (getQueryHistory item) as [|x l]; [by vm_compute in Hlong|done].
  - intros Hall. destruct Hcases as [->|[-> Hrec]]; [done|].
    rewrite save_cases. cbv zeta.
    destruct (50 <? S _)%nat.
    + apply removelast_Forall. by constructor.
    + by constructor.
Qed.

(** ** The table page *)





Lemma satisfies_singleton k v (row : JS.object) :
  satisfies {[ k := v ]} row <-> JS.strict_equal (JS.get row k) v = true.
Proof. unfold satisfies. by rewrite map_Forall_singleton. Qed.

(** X26.  Deleting a row on the table page deletes by key value.  Without a
    primary column, or when the dialog is not confirmed, the service is not
    called.  Otherwise the rows left are the rows whose value in the first
    primary column is not strictly equal to that of the clicked row: every
    row sharing the value goes with it, and the clicked row itself is gone
    unless its key value is [NaN]. *)
Theorem handleDeleteRow_deletes_by_key table row confirmed w :
  getTable "public" (Table.name table) w = Some table ->
  let found :=
    List.find (fun c => flag (Column.primary c)) (Table.columns table) in
  ((found = None \/ confirmed = false) ->
   TableEditor.handleDeleteRow table row confirmed w = (None, w)) /\
  (forall primaryKey,
     found = Some primaryKey -> confirmed = true ->
     let key := JS.get row (Column.name primaryKey) in
     exists table',
       getTable "public" (Table.name table)
         (TableEditor.handleDeleteRow table row confirmed w).2 = Some table' /\
       (forall r, r ∈ Table.rows table' <->
          r ∈ Table.rows table /\
          JS.strict_equal (JS.get r (Column.name primaryKey)) key = false) /\
       (self_equal key -> row ∉ Table.rows table')).
Proof.
  intros Hget. cbv zeta. split.
  - intros [Hnone| ->]; unfold TableEditor.handleDeleteRow.
    + by rewrite Hnone.
    + by destruct (List.find _ _).
  - intros pk Hpk ->. unfold TableEditor.handleDeleteRow. rewrite Hpk.
    unfold bind, ret.
    destruct (delete_rows "public" (Table.name table)
                {[ Column.name pk := JS.get row (Column.name pk) ]} table w Hget)
      as (table' & Hget' & Hrows).
    destruct (delete _ _ _ w) as [result w'] eqn:E. simpl in *.
    exists table'. split; [done|].
    assert (Hiff : forall r, r ∈ Table.rows table' <->
              r ∈ Table.rows table /\
              JS.strict_equal (JS.get r (Column.name pk))
                (JS.get row (Column.name pk)) = false).
    { intros r. rewrite Hrows, list_elem_of_filter, satisfies_singleton.
      destruct (JS.strict_equal _ _); split; intros [? ?]; split;
        try done; by exfalso. }
    split; [exact Hiff|].
    intros Hself Hin. apply Hiff in Hin as [_ Hne].
    unfold self_equal in Hself.
    destruct (JS.get row (Column.name pk)) as [| | |[]|]; simpl in Hne;
      try done; by rewrite bool_decide_eq_false in Hne.
Qed.

(** ** Generated identifiers *)




(** ** Auto-increment over several inserts *)




(** ** update and paging *)

(** X29.  [update] changes matching rows only: the table keeps its columns and
    its number of rows, and every row that does not satisfy the filter is
    at its place, unchanged. *)
Theorem update_keeps_other_rows schema tableName f data table w :
  getTable schema tableName w = Some table ->
  exists table',
    getTable schema tableName (update schema tableName f data w).2 = Some table' /\
    Table.columns table' = Table.columns table /\
    List.length (Table.rows table') = List.length (Table.rows table) /\
    forall i row, Table.rows table !! i = Some row -> ~ satisfies f row ->
      Table.rows table' !! i = Some row.
Proof.
  intros Hget.
  destruct (update_effect schema tableName f data table w Hget)
    as (_ & Hzero & Hpos).
  pose proof (update_rows_count_nonneg f data (Table.rows table)) as Hnn.
  destruct (Z.eq_dec (update_rows f data (Table.rows table)).2 0) as [Hz|Hnz].
  - destruct (Hzero Hz) as [Hdb _]. exists table.
    split; [unfold getTable in *; by rewrite Hdb|]. by repeat split.
  - destruct Hpos as (now & Hdb & _); [lia|].
    destruct (same_elsewhere_write _ _ _ _ _ Hdb) as [Hget' _].
    eexists. split; [exact Hget'|]. simpl. split; [done|]. split.
    + clear. induction (Table.rows table) as [|r rows IH]; [done|].
      simpl. destruct (update_rows f data rows) as [rest n]. simpl in *.
      destruct (matches f r); simpl; by rewrite IH.
    + intros i row Hrow Hn. rewrite (update_rows_lookup f data _ i row Hrow).
      destruct (matches f row) eqn:Hm; [|done].
      by apply matches_satisfies in Hm.
Qed.

(** X30.  Pages fit together: for an offset [k >= 0] and a limit [n > 0], the
    page of [n] rows at offset [k] followed by everything from offset
    [k + n] on is everything from offset [k] on; no row is lost or returned
    twice, and the page has at most [n] rows. *)
Theorem select_pages_fit_together schema tableName opts k n table w :
  getTable schema tableName w = Some table ->
  0 <= k -> 0 < n ->
  exists page rest all,
    QueryResult.data (select schema tableName (paged opts k (Some n)) w).1
      = Some page /\
    QueryResult.data (select schema tableName (paged opts (k + n) None) w).1
      = Some rest /\
    QueryResult.data (select schema tableName (paged opts k None) w).1
      = Some all /\
    (page ++ rest)%list = all /\
    Z.of_nat (List.length page) <= n.
Proof.
  intros Hget Hk Hn.
  destruct (select_rows_pipeline schema tableName (paged opts k (Some n))
              table w Hget) as (Hpage & _); [simpl; lia..|].
  destruct (select_rows_pipeline schema tableName (paged opts (k + n) None)
              table w Hget) as (Hrest & _); [simpl; lia|exact I|].
  destruct (select_rows_pipeline schema tableName (paged opts k None)
              table w Hget) as (Hall & _); [simpl; lia|exact I|].
  eexists _, _, _. split; [exact Hpage|]. split; [exact Hrest|].
  split; [exact Hall|].
  unfold pipeline, after_offset, ordered, filtered, paged. simpl.
  destruct (Z.eqb_spec n 0) as [|_]; [lia|].
  set (rows := match orderBy opts with
               | Some keys => _
               | None => _
               end).
  split.
  - rewrite Z2Nat.inj_add by lia. rewrite <- drop_drop. apply take_drop.
  - rewrite length_take. lia.
Qed.

(** * Instances of the further properties *)

Lemma public_is_regular w :
  is_Some (database w !! "public") -> regular "public" w.
Proof. by left. Qed.

(** A table named [t] is added; a table named [constructor] is refused and
    nothing is written; refused in the new schema [app], a table named
    [toString] leaves the empty schema behind. *)
Lemma createTable_witness :
  ((createTable "public" t_x fresh_world).1 = true /\
   getTable "public" "t" (createTable "public" t_x fresh_world).2 = Some t_x) /\
  ((createTable "public" (table_named "constructor") fresh_world).1 = false /\
   setItems (createTable "public" (table_named "constructor") fresh_world).2
     = setItems fresh_world) /\
  unsaved_schema "app" fresh_world
    (createTable "app" (table_named "toString") fresh_world).2.
Proof.
  split; [|split].
  - destruct (createTable_adds_or_refuses "public" t_x fresh_world)
      as (_ & _ & Hadd).
    + apply public_is_regular. eexists. vm_compute; reflexivity.
    + destruct Hadd as (Htrue & Hget & _).
      * vm_compute; reflexivity.
      * reflexivity.
      * split; [exact Htrue|exact Hget].
  - destruct (createTable_adds_or_refuses "public" (table_named "constructor")
                fresh_world) as (_ & Hrefuse & _).
    + apply public_is_regular. eexists. vm_compute; reflexivity.
    + destruct Hrefuse as (Hfalse & _ & _ & Hwrites & _).
      * vm_compute; reflexivity.
      * reflexivity.
      * split; [exact Hfalse|exact Hwrites].
  - destruct (createTable_adds_or_refuses "app" (table_named "toString")
                fresh_world) as (_ & Hrefuse & _).
    + right. reflexivity.
    + destruct Hrefuse as (_ & _ & _ & _ & _ & Hunsaved).
      * vm_compute; reflexivity.
      * reflexivity.
      * apply Hunsaved. vm_compute; reflexivity.
Defined.

(** The table [t] is dropped; for the name [constructor], which the schema
    inherits, [dropTable] answers true and writes the snapshot. *)
Lemma dropTable_witness :
  ((dropTable "public" "t" w_x).1 = true /\
   getTable "public" "t" (dropTable "public" "t" w_x).2 = None) /\
  ((dropTable "public" "constructor" fresh_world).1 = true /\
   setItems (dropTable "public" "constructor" fresh_world).2
     = S (setItems fresh_world)) /\
  dropTable "public" "t" fresh_world = (false, fresh_world).
Proof.
  split; [|split].
  - destruct (dropTable_removes_one_table "public" "t" w_x) as (_ & Hdrop & _).
    + apply public_is_regular. eexists. vm_compute; reflexivity.
    + destruct Hdrop as (Htrue & Hgone & _).
      * exists t_x. vm_compute; reflexivity.
      * split; [exact Htrue|exact Hgone].
  - destruct (dropTable_removes_one_table "public" "constructor" fresh_world)
      as (_ & _ & Hinherited).
    + apply public_is_regular. eexists. vm_compute; reflexivity.
    + destruct Hinherited as (Htrue & _ & _ & Hwrites).
      * vm_compute; reflexivity.
      * eexists. vm_compute; reflexivity.
      * reflexivity.
      * split; [exact Htrue|exact Hwrites].
  - destruct (dropTable_removes_one_table "public" "t" fresh_world)
      as (Hmissing & _).
    + apply public_is_regular. eexists. vm_compute; reflexivity.
    + apply Hmissing; [vm_compute; reflexivity|by right].
Defined.

Lemma createTable_dropTable_witness :
  database (dropTable "public" "t" (createTable "public" t_x fresh_world).2).2
  = database fresh_world.
Proof.
  destruct (createTable_dropTable_round_trip "public" t_x fresh_world)
    as (_ & _ & Hsame & _).
  - apply public_is_regular. eexists. vm_compute; reflexivity.
  - vm_compute; reflexivity.
  - reflexivity.
  - apply Hsame. eexists. vm_compute; reflexivity.
Defined.

(** One table more after [createTable] of [t], as many as before after the
    refusal of [constructor]. *)
Lemma getTables_witness :
  List.length (getTables "public" (createTable "public" t_x fresh_world).2)
    = S (List.length (getTables "public" fresh_world)) /\
  List.length
    (getTables "public"
       (createTable "public" (table_named "constructor") fresh_world).2)
    = List.length (getTables "public" fresh_world).
Proof.
  destruct (getTables_counts_tables "public" fresh_world) as (_ & _ & Hcount & _).
  - apply public_is_regular. eexists. vm_compute; reflexivity.
  - split.
    + exact (Hcount t_x).
    + exact (Hcount (table_named "constructor")).
Defined.

Lemma removeColumn_witness :
  (removeColumn "public" "t" "x" w_x).1 = true.
Proof.
  destruct (removeColumn_deletes_column_and_key "public" "t" "x" t_x w_x)
    as [_ Hremove].
  - vm_compute; reflexivity.
  - destruct Hremove as [Htrue _]; [|exact Htrue].
    exists (plain_column "x" "INTEGER"). split; [apply list_elem_of_here|reflexivity].
Defined.

Lemma addColumn_removeColumn_witness :
  exists table'',
    getTable "public" "t"
      (removeColumn "public" "t" "note"
         (addColumn "public" "t" note_column w_x).2).2 = Some table'' /\
    Table.columns table'' = Table.columns t_x /\
    Table.rows table'' = Table.rows t_x.
Proof.
  destruct (addColumn_removeColumn_round_trip "public" "t" note_column t_x w_x)
    as (_ & table'' & Hget & Hcols & Hrows).
  - vm_compute; reflexivity.
  - intros c Hc. apply list_elem_of_singleton in Hc as ->. discriminate.
  - intros row Hrow. cbn [Table.rows t_x example_table x_rows] in Hrow.
    repeat (apply elem_of_cons in Hrow as [->|Hrow]; [vm_compute; reflexivity|]).
    by apply elem_of_nil in Hrow.
  - exists table''. repeat split; assumption.
Defined.




(** Every table of the database has distinct column names when this holds
    of the tables the database lists. *)
Lemma all_distinct_listed w :
  map_Forall
    (fun _ tables =>
       map_Forall
         (fun _ t => NoDup (Column.name <$> Table.columns t))
         (tables : gmap string Table.t))
    (database w) ->
  all_distinct w.
Proof.
  intros Hall s t table Hget. unfold getTable in Hget.
  destruct (database w !! s) as [tables|] eqn:E; [|done].
  by apply (Hall s tables E t table).
Qed.

(** The engine holding the seeded table [users], with five columns, and
    the table [t]: the column names stay distinct when a column is added to
    [users] and when a table is created in a new schema. *)
Lemma distinct_columns_witness :
  all_distinct (addColumn "public" "users" note_column w_x).2 /\
  all_distinct (createTable "app" t_x w_x).2.
Proof.
  destruct (distinct_columns_are_kept "public" "users" ∅ ∅ note_column "x" t_x
              w_x) as (Hadd & _).
  { apply all_distinct_listed. apply (bool_decide_unpack _). vm_compute. exact I. }
  destruct (distinct_columns_are_kept "app" "t" ∅ ∅ note_column "x" t_x
              w_x) as (_ & _ & _ & _ & _ & _ & Hcreate).
  { apply all_distinct_listed. apply (bool_decide_unpack _). vm_compute. exact I. }
  split; [exact Hadd|].
  apply Hcreate. apply (bool_decide_unpack _). vm_compute. exact I.
Defined.

Lemma delete_witness :
  QueryResult.rowsAffected (delete "public" "t" {[ "x" := int 1 ]} w_x).1
  = Some 1.
Proof.
  destruct (delete_removes_matching_rows "public" "t" {[ "x" := int 1 ]} t_x w_x)
    as (_ & Hcount & _).
  - vm_compute; reflexivity.
  - rewrite Hcount. vm_compute; reflexivity.
Defined.

Lemma select_after_delete_witness :
  QueryResult.data
    (select "public" "t" (only_where {[ "x" := int 1 ]})
       (delete "public" "t" {[ "x" := int 1 ]} w_x).2).1 = Some [].
Proof.
  destruct (select_after_delete_is_empty "public" "t" {[ "x" := int 1 ]} t_x w_x)
    as [Hdata _].
  - vm_compute; reflexivity.
  - exact Hdata.
Defined.

Lemma operations_agree_witness :
  QueryResult.rowsAffected
    (update "public" "t" {[ "x" := int 1 ]} {[ "y" := int 7 ]} w_x).1
  = QueryResult.rowsAffected (delete "public" "t" {[ "x" := int 1 ]} w_x).1.
Proof.
  destruct (operations_agree_on_matches "public" "t" {[ "x" := int 1 ]}
              {[ "y" := int 7 ]} t_x w_x) as (_ & Hupdate & Hdelete).
  - vm_compute; reflexivity.
  - by rewrite Hupdate, Hdelete.
Defined.

Lemma select_after_insert_witness :
  exists row,
    QueryResult.data
      (select "public" "t" no_options
         (insert "public" "t" {[ "x" := int 9 ]} w_x).2).1
    = Some (x_rows ++ [row])%list.
Proof.
  destruct (select_after_insert "public" "t" {[ "x" := int 9 ]} t_x w_x)
    as (row & _ & Hrows).
  - vm_compute; reflexivity.
  - exists row. exact Hrows.
Defined.


Lemma executeSQL_rejects_witness :
  (executeSQL "DROP TABLE users" fresh_world).1 = Some not_implemented.
Proof.
  destruct (executeSQL_rejects_other_statements "DROP TABLE users" fresh_world)
    as [Hreject _].
  apply Hreject. intros [H|H]; vm_compute in H; discriminate.
Defined.

Lemma select_statement_recognised :
  exists m,
    JS.string_match true select_pattern "select x from t where x = 1" = Some m /\
    schema_of m = "public" /\ tableName_of m = "t".
Proof. eexists. repeat split; vm_compute; reflexivity. Defined.

Lemma executeSQL_select_witness :
  exists result,
    (executeSQL "select x from t where x = 1" w_x).1 = Some result /\
    QueryResult.data result = Some x_rows.
Proof.
  destruct select_statement_recognised as (m & Hm & Hschema & Hname).
  destruct (executeSQL_select_returns_every_row
              "select x from t where x = 1" m t_x w_x)
    as (result & Hres & _ & Hdata & _).
  - vm_compute; reflexivity.
  - exact Hm.
  - rewrite Hschema, Hname. vm_compute; reflexivity.
  - exists result. split; [exact Hres|exact Hdata].
Defined.

Lemma create_statement_recognised :
  exists m,
    JS.string_match true create_table_pattern "CREATE TABLE t (a INTEGER)" = Some m /\
    schema_of m = "public" /\ tableName_of m = "t".
Proof. eexists. repeat split; vm_compute; reflexivity. Defined.

Lemma executeSQL_create_existing_witness :
  exists result,
    (executeSQL "CREATE TABLE t (a INTEGER)" w_x).1 = Some result /\
    QueryResult.success result = true /\
    database (executeSQL "CREATE TABLE t (a INTEGER)" w_x).2 = database w_x.
Proof.
  destruct create_statement_recognised as (m & Hm & Hschema & Hname).
  destruct (executeSQL_create_existing_table
              "CREATE TABLE t (a INTEGER)" m t_x w_x)
    as (result & Hres & Hsucc & _ & Hdb & _).
  - vm_compute; reflexivity.
  - exact Hm.
  - rewrite Hschema, Hname. vm_compute; reflexivity.
  - exists result. repeat split; assumption.
Defined.

Lemma executeSQL_keeps_witness :
  getTable "public" "t" (executeSQL create_foo w_x).2 = Some t_x.
Proof.
  apply (executeSQL_keeps_existing_tables create_foo w_x "public" "t" t_x).
  vm_compute; reflexivity.
Defined.

Lemma create_constructor_recognised :
  exists m,
    JS.string_match true create_table_pattern
      "CREATE TABLE app.constructor (a INTEGER)" = Some m /\
    schema_of m = "app" /\ tableName_of m = "constructor".
Proof. eexists. repeat split; vm_compute; reflexivity. Defined.

(** The snapshot follows an insert and the creation of [foo]; it does not
    follow the refusal of [toString] in the new schema [app]. *)
Lemma snapshot_witness :
  synced (insert "public" "t" {[ "x" := int 9 ]} w_x).2 /\
  synced (executeSQL create_foo w_x).2 /\
  ~ synced (createTable "app" (table_named "toString") w_x).2.
Proof.
  destruct (snapshot_follows_database "app" "t" (table_named "toString")
              note_column "x" {[ "x" := int 9 ]} ∅ no_options create_foo w_x)
    as (_ & _ & _ & _ & _ & _ & _ & _ & Hrefused & Hsql & _).
  { vm_compute; reflexivity. }
  destruct (snapshot_follows_database "public" "t" t_x
              note_column "x" {[ "x" := int 9 ]} ∅ no_options create_foo w_x)
    as (_ & _ & _ & Hinsert & _).
  { vm_compute; reflexivity. }
  split; [exact Hinsert|]. split.
  - apply Hsql. intros m Hm. right.
    destruct create_foo_recognised as (_ & m' & Hm' & _ & Hname & _).
    rewrite Hm' in Hm. injection Hm as <-. by rewrite Hname.
  - apply Hrefused; [reflexivity|vm_compute; reflexivity|reflexivity].
Defined.

Lemma restart_witness :
  exists w',
    construct example_runtime (localStorage w_x) = Some w' /\
    database w' = database w_x.
Proof.
  destruct (restart_restores_database example_runtime w_x)
    as (w' & Hconstruct & Hdb & _ & _ & _ & Hsame).
  - vm_compute; reflexivity.
  - eexists. vm_compute; reflexivity.
  - exists w'. split; [exact Hconstruct|]. rewrite Hdb. vm_compute; reflexivity.
Defined.

Lemma start_up_witness :
  construct example_runtime (Some ∅) = None.
Proof.
  destruct (start_up_seeds_users example_runtime) as (_ & Hfail & _).
  apply Hfail. apply lookup_empty.
Defined.

Lemma saveQueryToHistory_witness :
  getQueryHistory (saveQueryToHistory "SELECT 2" (Some ["SELECT 1"]))
  = ["SELECT 2"; "SELECT 1"].
Proof.
  destruct (saveQueryToHistory_keeps_the_latest "SELECT 2" (Some ["SELECT 1"]))
    as (_ & Hshort & _).
  destruct Hshort as [Hnew _]; [simpl; lia|]. exact Hnew.
Defined.

(** A statement with another keyword and a SELECT from a table that does
    not exist are not recorded; a SELECT from [t] is. *)
Lemma handleExecute_witness :
  (SQLEditor.handleExecute "DROP TABLE users" fresh_world (Some ["SELECT 1"])).2
    = Some ["SELECT 1"] /\
  (SQLEditor.handleExecute "select x from t where x = 1" fresh_world
     (Some ["SELECT 1"])).2 = Some ["SELECT 1"] /\
  (SQLEditor.handleExecute "select x from t where x = 1" w_x
     (Some ["SELECT 1"])).2 = Some ["select x from t where x = 1"; "SELECT 1"].
Proof.
  split; [|split].
  - destruct (handleExecute_records_successful_statements "DROP TABLE users"
                fresh_world (Some ["SELECT 1"]))
      as (_ & _ & _ & _ & _ & Hkeep & _).
    apply Hkeep. intros [H|H]; vm_compute in H; discriminate.
  - destruct (handleExecute_records_successful_statements
                "select x from t where x = 1" fresh_world (Some ["SELECT 1"]))
      as (_ & _ & _ & Hselect & _).
    destruct select_statement_recognised as (m & Hm & Hschema & Hname).
    rewrite (Hselect m); [|vm_compute; reflexivity|exact Hm].
    rewrite Hschema, Hname. vm_compute; reflexivity.
  - destruct (handleExecute_records_successful_statements
                "select x from t where x = 1" w_x (Some ["SELECT 1"]))
      as (_ & _ & _ & Hselect & _).
    destruct select_statement_recognised as (m & Hm & Hschema & Hname).
    rewrite (Hselect m); [|vm_compute; reflexivity|exact Hm].
    rewrite Hschema, Hname. vm_compute; reflexivity.
Defined.


Lemma handleDeleteRow_witness :
  exists table',
    getTable "public" "t"
      (TableEditor.handleDeleteRow t_serial
         {[ "id" := int 1; "name" := JS.VString "ann" ]} true
         (world_with t_serial)).2 = Some table' /\
    ({[ "id" := int 1; "name" := JS.VString "ann" ]} : JS.object)
      ∉ Table.rows table'.
Proof.
  destruct (handleDeleteRow_deletes_by_key t_serial
              {[ "id" := int 1; "name" := JS.VString "ann" ]} true
              (world_with t_serial)) as [_ Hdelete].
  - vm_compute; reflexivity.
  - destruct (Hdelete (serial_column "id") eq_refl eq_refl)
      as (table' & Hget & _ & Hgone).
    exists table'. split; [exact Hget|]. apply Hgone.
    vm_compute. discriminate.
Defined.




Lemma update_keeps_witness :
  exists table',
    getTable "public" "t"
      (update "public" "t" {[ "x" := int 1 ]} {[ "y" := int 7 ]} w_x).2
      = Some table' /\
    Table.rows table' !! 0%nat = Some ({[ "x" := int 3 ]} : JS.object).
Proof.
  destruct (update_keeps_other_rows "public" "t" {[ "x" := int 1 ]}
              {[ "y" := int 7 ]} t_x w_x) as (table' & Hget & _ & _ & Hrows).
  - vm_compute; reflexivity.
  - exists table'. split; [exact Hget|]. apply Hrows; [reflexivity|].
    intros Hsat. apply satisfies_singleton in Hsat. vm_compute in Hsat.
    discriminate.
Defined.

Lemma select_pages_witness :
  exists page rest,
    QueryResult.data (select "public" "t" (paged no_options 0 (Some 2)) w_x).1
      = Some page /\
    QueryResult.data (select "public" "t" (paged no_options 2 None) w_x).1
      = Some rest /\
    (page ++ rest)%list = x_rows.
Proof.
  destruct (select_pages_fit_together "public" "t" no_options 0 2 t_x w_x)
    as (page & rest & all & Hpage & Hrest & Hall & Hfit & _).
  - vm_compute; reflexivity.
  - lia.
  - lia.
  - exists page, rest. split; [exact Hpage|]. split; [exact Hrest|].
    rewrite Hfit.
    assert (Hx : QueryResult.data
                   (select "public" "t" (paged no_options 0 None) w_x).1
                 = Some x_rows) by (vm_compute; reflexivity).
    rewrite Hx in Hall. by injection Hall.
Defined.
